(** * amaxa: the dependency-aware extraction and load engine

    A shallow embedding of [amaxa/amaxa.py]: Salesforce identifiers, the
    lookup classifier of [Step.scan_fields], the two-phase load of
    [LoadOperation] / [LoadStep] and the extraction of [ExtractOperation] /
    [ExtractionStep], followed by the properties of the specification that
    these definitions satisfy or break.

    Conventions of the embedding.
    - A Python [str] is a [string]; a field value is [option string]
      ([None] is Python's [None]).
    - A record (a Python [dict] from field name to value) is an association
      list in insertion order, since dict comprehensions run in that order
      and the first exception raised depends on it.
    - Python's exceptions are the constructors of [exn]; a computation that
      may raise returns a [result]; a method that also mutates the operation
      context is a function from the context to a [result] and the context
      reached, so that mutations made before a [raise] stay visible.
    - Python sets of field names and of identifiers are [gset]s, dictionaries
      of the operation are [gmap]s. A Python set is iterated and popped in an
      arbitrary order; the embedding iterates in the order of [elements], and
      the chunking of identifier lists is stated for every order. *)

From Stdlib Require Import String Ascii List ZArith NArith Lia Bool.
From stdpp Require Import base option list gmap sets strings countable.

(** ** Exceptions and results *)

Inductive exn : Type :=
| ValueError
| TypeError
| KeyError
| IndexError
| NotImplementedError
| Exception.

Inductive result (A : Type) : Type :=
| Ok (a : A)
| Raise (e : exn).

Arguments Ok {A} a.
Arguments Raise {A} e.

Definition rbind {A B} (m : result A) (k : A -> result B) : result B :=
  match m with
  | Ok a => k a
  | Raise e => Raise e
  end.

Global Instance result_ret : MRet result := @Ok.
Global Instance result_bind : MBind result := fun A B k m => rbind m k.

Definition of_option {A} (e : exn) (o : option A) : result A :=
  match o with
  | Some a => Ok a
  | None => Raise e
  end.

(** [[f(x) for x in l]] for a fallible [f]: the first exception wins. *)
Fixpoint rmap {A B} (f : A -> result B) (l : list A) : result (list B) :=
  match l with
  | [] => Ok []
  | x :: l' =>
      match f x with
      | Raise e => Raise e
      | Ok y =>
          match rmap f l' with
          | Raise e => Raise e
          | Ok ys => Ok (y :: ys)
          end
      end
  end.

(** ** Python values that reach [SalesforceId] *)

Record SalesforceId : Type := MkSalesforceId { sfid : string }.

Global Instance SalesforceId_eq_dec : EqDecision SalesforceId.
Proof. solve_decision. Defined.

Global Instance SalesforceId_countable : Countable SalesforceId.
Proof.
  apply (inj_countable' sfid MkSalesforceId).
  intros [s]; reflexivity.
Defined.

Inductive pyval : Type :=
| PyNone
| PyStr (s : string)
| PyId (i : SalesforceId)
| PyInt (z : Z)
| PyBool (b : bool).

Definition pyval_of_value (v : option string) : pyval :=
  match v with
  | Some s => PyStr s
  | None => PyNone
  end.

(** ** [class SalesforceId] *)

Module Id.

(** [character >= 'A' and character <= 'Z'] *)
Definition is_upper (character : ascii) : bool :=
  ((N_of_ascii "A" <=? N_of_ascii character)
   && (N_of_ascii character <=? N_of_ascii "Z"))%N.

Definition alphabet : string := "ABCDEFGHIJKLMNOPQRSTUVWXYZ012345".

(** The inner loop [for j in range(0, 5)]: [baseTwo += 1 << j] for every
    upper-case character of the [i]-th group of five. *)
Definition baseTwo (idstr : string) (i : nat) : result N :=
  fold_left
    (fun acc j =>
       match acc with
       | Raise e => Raise e
       | Ok b =>
           match String.get (i * 5 + j) idstr with
           | None => Raise IndexError
           | Some character =>
               if is_upper character
               then Ok (b + N.shiftl 1 (N.of_nat j))%N
               else Ok b
           end
       end)
    (seq 0 5) (Ok 0%N).

(** The outer loop [for i in range(0, 3)], accumulating [suffix]. *)
Definition suffix (idstr : string) : result string :=
  fold_left
    (fun acc i =>
       match acc with
       | Raise e => Raise e
       | Ok sfx =>
           match baseTwo idstr i with
           | Raise e => Raise e
           | Ok b =>
               match String.get (N.to_nat b) alphabet with
               | None => Raise IndexError
               | Some c => Ok (sfx +:+ String c EmptyString)
               end
           end
       end)
    (seq 0 3) (Ok "").

(** [SalesforceId.__init__]. [len] of a value that is neither a string nor
    an identifier raises [TypeError]. *)
Definition __init__ (idstr : pyval) : result SalesforceId :=
  match idstr with
  | PyId other => Ok (MkSalesforceId (sfid other))
  | PyStr s =>
      if Nat.eqb (String.length s) 15 then
        match suffix s with
        | Ok sfx => Ok (MkSalesforceId (s +:+ sfx))
        | Raise e => Raise e
        end
      else if Nat.eqb (String.length s) 18 then Ok (MkSalesforceId s)
      else Raise ValueError
  | PyNone | PyInt _ | PyBool _ => Raise TypeError
  end.

(** [SalesforceId.__eq__] *)
Definition __eq__ (self : SalesforceId) (other : pyval) : result bool :=
  match other with
  | PyId o => Ok (String.eqb (sfid self) (sfid o))
  | PyStr s =>
      match __init__ (PyStr s) with
      | Ok o => Ok (String.eqb (sfid self) (sfid o))
      | Raise e => Raise e
      end
  | PyNone | PyInt _ | PyBool _ => Ok false
  end.


(** [SalesforceId.__str__] *)
Definition __str__ (self : SalesforceId) : string := sfid self.

(** [SalesforceId(s)] for a field value. *)
Definition of_value (v : option string) : result SalesforceId :=
  __init__ (pyval_of_value v).

End Id.

(** ** Records: dictionaries from field name to value *)

Definition value : Type := option string.
Definition record : Type := list (string * value).

(** [record[k]], raising [KeyError] on a missing key. *)
Fixpoint dict_get (k : string) (r : record) : result value :=
  match r with
  | [] => Raise KeyError
  | (k', v) :: r' => if String.eqb k' k then Ok v else dict_get k r'
  end.

(** [k in record] *)
Definition dict_has (k : string) (r : record) : bool :=
  existsb (fun kv => String.eqb (fst kv) k) r.

(** [del record[k]] *)
Definition dict_del (k : string) (r : record) : record :=
  List.filter (fun kv => negb (String.eqb (fst kv) k)) r.

Definition keys (r : record) : list string := map fst r.

(** ** Schema: what [describe()] returns *)

Record FieldDescriptor : Type := MkField {
  ftype : string;             (* ['type'] *)
  referenceTo : list string;  (* ['referenceTo'] *)
  soapType : string           (* ['soapType'] *)
}.

Abbreviation field_map_t := (gmap string FieldDescriptor).

(** [field_map[f]] *)
Definition field_descr (field_map : field_map_t) (f : string) : result FieldDescriptor :=
  of_option KeyError (field_map !! f).

(** [x in l] for a list of names. *)
Definition in_list (x : string) (l : list string) : bool :=
  existsb (String.eqb x) l.

(** [l.index(x)]: the first position of [x], [ValueError] when absent. *)
Fixpoint index (l : list string) (x : string) : result nat :=
  match l with
  | [] => Raise ValueError
  | y :: l' =>
      if String.eqb y x then Ok 0
      else match index l' x with
           | Ok n => Ok (S n)
           | Raise e => Raise e
           end
  end.

(** A set comprehension [{ f for f in l if p(f) }] whose condition may
    raise. *)
Fixpoint rfilter (p : string -> result bool) (l : list string) : result (list string) :=
  match l with
  | [] => Ok []
  | f :: l' =>
      match p f with
      | Raise e => Raise e
      | Ok b =>
          match rfilter p l' with
          | Raise e => Raise e
          | Ok fs => Ok (if b then f :: fs else fs)
          end
      end
  end.

Definition set_comprehension (p : string -> result bool) (l : list string)
  : result (gset string) :=
  match rfilter p l with
  | Ok fs => Ok (list_to_set fs)
  | Raise e => Raise e
  end.

(** ** [Step.scan_fields]: the lookup classifier *)

Record lookups : Type := MkLookups {
  all_lookups : gset string;
  self_lookups : gset string;
  descendent_lookups : gset string;
  dependent_lookups : gset string
}.

Module Step.

(** [', '.join(self.field_scope)] *)
Definition get_field_list (field_scope : list string) : string :=
  String.concat ", " field_scope.

(** [[cmp(sobjects.index(refTo), sobjects.index(sobjectname))
      for refTo in referenceTo if refTo in sobjects]]; every element of
    the list is computed before [any] looks at it. *)
Definition index_comparisons (cmp : nat -> nat -> bool)
    (sobjects : list string) (sobjectname : string) (refs : list string)
  : result (list bool) :=
  rmap (fun refTo =>
          match index sobjects refTo with
          | Raise e => Raise e
          | Ok a =>
              match index sobjects sobjectname with
              | Raise e => Raise e
              | Ok b => Ok (cmp a b)
              end
          end)
       (List.filter (fun refTo => in_list refTo sobjects) refs).

Definition any (l : list bool) : bool := existsb (fun b => b) l.

Definition is_lookup (field_map : field_map_t) (sobjects : list string)
    (f : string) : result bool :=
  match field_descr field_map f with
  | Raise e => Raise e
  | Ok d =>
      Ok (String.eqb (ftype d) "reference"
          && any (map (fun s => in_list s sobjects) (referenceTo d)))
  end.

Definition is_self_lookup (field_map : field_map_t) (sobjectname : string)
    (f : string) : result bool :=
  match field_descr field_map f with
  | Raise e => Raise e
  | Ok d => Ok (in_list sobjectname (referenceTo d))
  end.

Definition is_relative_lookup (cmp : nat -> nat -> bool)
    (field_map : field_map_t) (sobjects : list string)
    (sobjectname : string) (f : string) : result bool :=
  match field_descr field_map f with
  | Raise e => Raise e
  | Ok d =>
      match index_comparisons cmp sobjects sobjectname (referenceTo d) with
      | Raise e => Raise e
      | Ok bs => Ok (any bs)
      end
  end.

Definition scan_fields (field_map : field_map_t) (sobjects : list string)
    (sobjectname : string) (field_scope : list string) : result lookups :=
  match set_comprehension (is_lookup field_map sobjects) field_scope with
  | Raise e => Raise e
  | Ok all =>
  match set_comprehension (is_self_lookup field_map sobjectname) (elements all) with
  | Raise e => Raise e
  | Ok selfs =>
  match set_comprehension
          (is_relative_lookup Nat.ltb field_map sobjects sobjectname)
          (elements all) with
  | Raise e => Raise e
  | Ok descendents =>
  match set_comprehension
          (is_relative_lookup (fun a b => Nat.ltb b a) field_map sobjects sobjectname)
          (elements all) with
  | Raise e => Raise e
  | Ok dependents =>
      Ok (MkLookups all selfs descendents dependents)
  end end end end.

(** A field descriptor has a target among the sObjects of the operation. *)
Definition in_operation_target (sobjects : list string) (d : FieldDescriptor)
  : Prop :=
  exists t, t ∈ referenceTo d /\ t ∈ sobjects.

(** A target of the descriptor sits in the operation at a position
    satisfying [P]. *)
Definition target_at (sobjects : list string) (d : FieldDescriptor)
    (P : nat -> Prop) : Prop :=
  exists t a, t ∈ referenceTo d /\ index sobjects t = Ok a /\ P a.

End Step.

(** ** Methods that mutate the operation context *)

Definition M (S A : Type) : Type := S -> result A * S.

Definition ret {S A} (a : A) : M S A := fun s => (Ok a, s).
Definition raise {S A} (e : exn) : M S A := fun s => (Raise e, s).
Definition bind {S A B} (m : M S A) (k : A -> M S B) : M S B :=
  fun s =>
    match m s with
    | (Ok a, s') => k a s'
    | (Raise e, s') => (Raise e, s')
    end.
Definition lift {S A} (r : result A) : M S A := fun s => (r, s).
Definition gets {S A} (f : S -> A) : M S A := fun s => (Ok (f s), s).
Definition modify {S} (f : S -> S) : M S unit := fun s => (Ok tt, f s).

Global Instance M_ret {S} : MRet (M S) := @ret S.
Global Instance M_bind {S} : MBind (M S) := fun A B k m => bind m k.

(** [for x in l: body(x)] *)
Fixpoint for_each {S A} (l : list A) (body : A -> M S unit) : M S unit :=
  match l with
  | [] => ret tt
  | x :: l' => bind (body x) (fun _ => for_each l' body)
  end.

(** [[f(x) for x in l]] where [f] reads or writes the context. *)
Fixpoint map_each {S A B} (l : list A) (f : A -> M S B) : M S (list B) :=
  match l with
  | [] => ret []
  | x :: l' => bind (f x) (fun y => bind (map_each l' f) (fun ys => ret (y :: ys)))
  end.

(** [m] moves the context along the relation [R], whether it returns or
    raises. *)
Definition preserves {S A} (R : S -> S -> Prop) (m : M S A) : Prop :=
  forall s r s', m s = (r, s') -> R s s'.

(** ** Behaviours: the string constants of the configuration *)

Module ExtractionScope.
Definition ALL_RECORDS : string := "all".
Definition QUERY : string := "query".
Definition SELECTED_RECORDS : string := "some".
Definition DESCENDENTS : string := "children".
End ExtractionScope.

Module SelfLookupBehavior.
Definition TRACE_ALL : string := "trace-all".
Definition TRACE_NONE : string := "trace-none".
End SelfLookupBehavior.

Module OutsideLookupBehavior.
Definition DROP_FIELD : string := "drop-field".
Definition INCLUDE : string := "include".
Definition RECURSE : string := "recurse".
Definition ERROR : string := "error".
End OutsideLookupBehavior.

(** ** The remote store *)

(** One element of the list a bulk insert or update returns. *)
Record UploadResult : Type := MkUploadResult {
  success : bool;     (* [r['success']] *)
  new_id : value      (* [r['id']] *)
}.

(** The connection is an external collaborator: its answers are arbitrary
    functions of the request. *)
Record Connection : Type := MkConnection {
  describe : gmap string field_map_t;
  global_describe : gmap string string;        (* key prefix -> sObject name *)
  query_all : string -> list record;
  bulk_query : string -> string -> list record;
  bulk_insert : string -> list record -> list UploadResult;
  bulk_update : string -> list record -> list UploadResult
}.

(** [Operation.get_field_map]; a [describe()] call for an sObject the store
    does not know fails remotely. *)
Definition get_field_map (connection : Connection) (sobjectname : string)
  : result field_map_t :=
  of_option Exception (describe connection !! sobjectname).

(** [Operation.get_sobject_name_for_id]: [key_prefix_map[id[:3]]] *)
Definition get_sobject_name_for_id (connection : Connection) (id : value)
  : result string :=
  match id with
  | None => Raise TypeError
  | Some s => of_option KeyError (global_describe connection !! String.substring 0 3 s)
  end.

(** ** [LoadOperation] and [LoadStep] *)

Module Load.

Record LoadStep : Type := MkLoadStep {
  sobjectname : string;
  field_scope : list string;
  outside_lookup_behavior : string;
  lookup_behaviors : gmap string string
}.

(** The parts of a [LoadOperation] that [execute] only reads. *)
Record LoadOperation : Type := MkLoadOperation {
  connection : Connection;
  steps : list LoadStep;
  input_files : gmap string (list record);
  mappers : gmap string (record -> record)
}.

(** A request received by the bulk API of the store. *)
Inductive request : Type :=
| Insert (sobject : string) (records : list record)
| Update (sobject : string) (records : list record).

(** What [execute] mutates: the identifier translation table, and the
    requests the store has received so far, oldest first. *)
Record Context : Type := MkContext {
  global_id_map : gmap SalesforceId SalesforceId;
  requests : list request
}.

Definition initial : Context := MkContext ∅ [].

(** [Operation.get_sobject_list] *)
Definition get_sobject_list (op : LoadOperation) : list string :=
  map sobjectname (steps op).

(** [LoadOperation.get_input_file] *)
Definition get_input_file (op : LoadOperation) (name : string)
  : result (list record) :=
  of_option KeyError (input_files op !! name).

(** [LoadOperation.register_new_id] *)
Definition register_new_id (old_id new_id : SalesforceId) : M Context unit :=
  modify (fun c => MkContext (<[old_id := new_id]> (global_id_map c)) (requests c)).

(** [LoadOperation.get_new_id] *)
Definition get_new_id (c : Context) (old_id : SalesforceId) : option SalesforceId :=
  global_id_map c !! old_id.

(** No old identifier leaves the table between [c] and [c']. *)
Definition keeps (c c' : Context) : Prop :=
  forall old, is_Some (get_new_id c old) -> is_Some (get_new_id c' old).

(** The bulk proxy's [insert] and [update]. *)
Definition insert (op : LoadOperation) (name : string) (records : list record)
  : M Context (list UploadResult) :=
  fun c =>
    (Ok (bulk_insert (connection op) name records),
     MkContext (global_id_map c) (requests c ++ [Insert name records])).

Definition update (op : LoadOperation) (name : string) (records : list record)
  : M Context (list UploadResult) :=
  fun c =>
    (Ok (bulk_update (connection op) name records),
     MkContext (global_id_map c) (requests c ++ [Update name records])).

(** [LoadStep.get_lookup_behavior_for_field] *)
Definition get_lookup_behavior_for_field (step : LoadStep) (field : string) : string :=
  default (outside_lookup_behavior step) (lookup_behaviors step !! field).

(** [LoadStep.get_value_for_lookup]. The chain of [elif]s has no branch
    for any other behaviour, [recurse] included: the method then falls off
    its end and returns [None]. *)
Definition get_value_for_lookup (step : LoadStep) (c : Context)
    (lookup : string) (v : value) (record_id : value) : result value :=
  let b := get_lookup_behavior_for_field step lookup in
  match Id.of_value v with
  | Raise e => Raise e
  | Ok old =>
      match get_new_id c old with
      | Some mapped_id => Ok (Some (Id.__str__ mapped_id))
      | None =>
          if String.eqb b OutsideLookupBehavior.INCLUDE then Ok v
          else if String.eqb b OutsideLookupBehavior.ERROR then Raise Exception
          else if String.eqb b OutsideLookupBehavior.DROP_FIELD then Ok (Some "")
          else Ok None
      end
  end.

(** [LoadStep.populate_lookups], for a membership test [k in lookups]. *)
Definition populate_lookups (step : LoadStep) (c : Context)
    (r : record) (lookups : gset string) : result record :=
  rmap (fun kv : string * value =>
          let (k, v) := kv in
          if decide (k ∈ lookups) then
            match dict_get "Id" r with
            | Raise e => Raise e
            | Ok rid =>
                match get_value_for_lookup step c k v rid with
                | Raise e => Raise e
                | Ok v' => Ok (k, v')
                end
            end
          else Ok (k, v))
       r.

(** [str.lower()] on the characters A-Z. *)
Definition lower_char (a : ascii) : ascii :=
  if Id.is_upper a then ascii_of_N (N_of_ascii a + 32) else a.

Fixpoint lower (s : string) : string :=
  match s with
  | EmptyString => EmptyString
  | String a s' => String (lower_char a) (lower s')
  end.

(** The local function [convert_value] of [LoadStep.primitivize]. *)
Definition convert_value (v : value) (field_type : string) : result value :=
  if String.eqb field_type "xsd:boolean" then
    match v with
    | None => Ok (Some "false")
    | Some s =>
        if in_list (lower s) ["no"; "false"; "n"; "f"; "0"; ""] then Ok (Some "false")
        else if in_list (lower s) ["yes"; "true"; "y"; "t"; "1"] then Ok (Some "true")
        else Raise ValueError
    end
  else
    match v with
    | None => Ok None
    | Some s =>
        if Nat.eqb (String.length s) 0 then Ok None
        else if String.eqb field_type "tns:ID" then Ok (Some s)
        else if in_list field_type
                  ["xsd:string"; "xsd:date"; "xsd:dateTime"; "xsd:int"; "xsd:double"]
             then Ok (Some s)
        else if in_list field_type ["base64"; "xsd:anyType"]
             then Raise NotImplementedError
        else Ok None
    end.

(** [LoadStep.primitivize] *)
Definition primitivize (op : LoadOperation) (step : LoadStep) (r : record)
  : result record :=
  match get_field_map (connection op) (sobjectname step) with
  | Raise e => Raise e
  | Ok field_map =>
      rmap (fun kv : string * value =>
              let (k, v) := kv in
              match field_descr field_map k with
              | Raise e => Raise e
              | Ok d =>
                  match convert_value v (soapType d) with
                  | Raise e => Raise e
                  | Ok v' => Ok (k, v')
                  end
              end)
           r
  end.

(** [LoadStep.transform_record] *)
Definition transform_record (op : LoadOperation) (step : LoadStep) (r : record)
  : record :=
  match mappers op !! sobjectname step with
  | Some mapper => mapper r
  | None => r
  end.

(** [Step.scan_fields] on a load step. *)
Definition scan_fields (op : LoadOperation) (step : LoadStep) : result lookups :=
  match get_field_map (connection op) (sobjectname step) with
  | Raise e => Raise e
  | Ok field_map =>
      Step.scan_fields field_map (get_sobject_list op) (sobjectname step)
        (field_scope step)
  end.

(** [enumerate(results)] *)
Definition enumerate {A} (l : list A) : list (nat * A) :=
  combine (seq 0 (length l)) l.

(** [records_to_load[i]['Id']] *)
Definition record_id_at (records_to_load : list record) (i : nat) : result value :=
  match of_option IndexError (records_to_load !! i) with
  | Raise e => Raise e
  | Ok r => dict_get "Id" r
  end.

(** The body of [for record in reader] in [LoadStep.execute]. *)
Definition prepare_record (op : LoadOperation) (step : LoadStep)
    (lk : lookups) (c : Context) (r : record) : result record :=
  match populate_lookups step c (transform_record op step r) (descendent_lookups lk) with
  | Raise e => Raise e
  | Ok r' => primitivize op step r'
  end.

(** The body of [for i, r in enumerate(results)] in [LoadStep.execute]. *)
Definition register_result (records_to_load : list record)
    (ir : nat * UploadResult) : M Context unit :=
  let (i, r) := ir in
  if success r then
    old_value ← lift (record_id_at records_to_load i);
    old ← lift (Id.of_value old_value);
    new ← lift (Id.of_value (new_id r));
    register_new_id old new
  else
    _ ← lift (record_id_at records_to_load i);
    raise Exception.

Definition register_results (records_to_load : list record)
    (results : list UploadResult) : M Context unit :=
  for_each (enumerate results) (register_result records_to_load).

(** [LoadStep.execute] *)
Definition execute_step (op : LoadOperation) (step : LoadStep) (lk : lookups)
  : M Context unit :=
  reader ← lift (get_input_file op (sobjectname step));
  records_to_load ←
    (fun c => (rmap (prepare_record op step lk c) reader, c));
  results ← insert op (sobjectname step) records_to_load;
  register_results records_to_load results.

(** [self.dependent_lookups + self.self_lookups]. Both operands are the
    sets that the set comprehensions of [scan_fields] built; [set] defines
    no [__add__], so the expression raises [TypeError] ("unsupported operand
    type(s) for +: 'set' and 'set'") whatever the sets hold. *)
Definition set_plus (a b : gset string) : result (gset string) :=
  Raise TypeError.

(** The body of [for record in reader] in
    [LoadStep.execute_dependent_updates]. *)
Definition dependent_record (step : LoadStep) (all : gset string)
    (c : Context) (r : record) : result record :=
  match populate_lookups step c r all with
  | Raise e => Raise e
  | Ok r' => Ok (List.filter (fun kv : string * value => bool_decide (fst kv ∈ all)) r')
  end.

(** The body of [for i, r in enumerate(results)] there. *)
Definition check_update_result (records_to_load : list record)
    (ir : nat * UploadResult) : M Context unit :=
  let (i, r) := ir in
  if negb (success r) then
    _ ← lift (record_id_at records_to_load i);
    raise Exception
  else ret tt.

(** [LoadStep.execute_dependent_updates] from the line after
    [all_lookups = ...] on, for a given [all_lookups]. *)
Definition dependent_updates_with (op : LoadOperation) (step : LoadStep)
    (reader : list record) (all : gset string) : M Context unit :=
  records_to_load ←
    (fun c => (rmap (dependent_record step all c) reader, c));
  results ← update op (sobjectname step) records_to_load;
  for_each (enumerate results) (check_update_result records_to_load).

(** [LoadStep.execute_dependent_updates] *)
Definition execute_dependent_updates (op : LoadOperation) (step : LoadStep)
    (lk : lookups) : M Context unit :=
  reader ← lift (get_input_file op (sobjectname step));
  all ← lift (set_plus (dependent_lookups lk) (self_lookups lk));
  dependent_updates_with op step reader all.

(** The first loop of [LoadOperation.execute]; it returns the
    classification that [scan_fields] stored on each step. *)
Definition insert_phase (op : LoadOperation) : M Context (list (LoadStep * lookups)) :=
  map_each (steps op)
    (fun s =>
       lk ← lift (scan_fields op s);
       _ ← execute_step op s lk;
       ret (s, lk)).

(** The second loop of [LoadOperation.execute]. *)
Definition update_phase (op : LoadOperation) (scanned : list (LoadStep * lookups))
  : M Context unit :=
  for_each scanned (fun sl => execute_dependent_updates op (fst sl) (snd sl)).

(** [LoadOperation.execute] *)
Definition execute (op : LoadOperation) : M Context unit :=
  scanned ← insert_phase op;
  update_phase op scanned.

(** [LoadStep.set_lookup_behavior_for_field] *)
Definition set_lookup_behavior_for_field (step : LoadStep) (field behavior : string)
  : LoadStep :=
  MkLoadStep (sobjectname step) (field_scope step) (outside_lookup_behavior step)
    (<[field := behavior]> (lookup_behaviors step)).

(** *** Vocabulary for the properties of a load *)

Definition is_insert (q : request) : bool :=
  match q with
  | Insert _ _ => true
  | Update _ _ => false
  end.

(** The request is the insert of one record per row of the step's input
    file. *)
Definition insert_of (op : LoadOperation) (step : LoadStep) (q : request) : Prop :=
  exists rows records,
    input_files op !! sobjectname step = Some rows
    /\ q = Insert (sobjectname step) records
    /\ length records = length rows.

(** The store has received the same requests in [c] and [c']. *)
Definition same_requests (c c' : Context) : Prop := requests c' = requests c.

End Load.

(** ** [ExtractOperation] and [ExtractionStep] *)

Module Extract.

Record ExtractionStep : Type := MkExtractionStep {
  sobjectname : string;
  scope : string;
  field_scope : list string;
  where_clause : option string;
  self_lookup_behavior : string;
  outside_lookup_behavior : string;
  lookup_behaviors : gmap string string
}.

(** The parts of an [ExtractOperation] that [execute] only reads. *)
Record ExtractOperation : Type := MkExtractOperation {
  connection : Connection;
  steps : list ExtractionStep;
  mappers : gmap string (record -> record)
}.

(** What [execute] mutates. An output file is the list of the rows that
    [writerow] has received, oldest first. *)
Record Context : Type := MkContext {
  required_ids : gmap string (gset SalesforceId);
  extracted_ids : gmap string (gset SalesforceId);
  output_files : gmap string (list record)
}.

Definition get_sobject_list (op : ExtractOperation) : list string :=
  map sobjectname (steps op).

(** [ExtractOperation.get_extracted_ids] *)
Definition get_extracted_ids (c : Context) (name : string) : gset SalesforceId :=
  default ∅ (extracted_ids c !! name).

(** [ExtractOperation.get_dependencies] *)
Definition get_dependencies (c : Context) (name : string) : gset SalesforceId :=
  default ∅ (required_ids c !! name).

(** [ExtractOperation.add_dependency] *)
Definition add_dependency (name : string) (id : SalesforceId) : M Context unit :=
  modify (fun c =>
    let required :=
      match required_ids c !! name with
      | Some _ => required_ids c
      | None => <[name := ∅]> (required_ids c)
      end in
    let required' :=
      if decide (id ∈ get_extracted_ids c name) then required
      else <[name := {[id]} ∪ default ∅ (required !! name)]> required in
    MkContext required' (extracted_ids c) (output_files c)).

(** [ExtractOperation.get_sobject_ids_for_reference] *)
Definition get_sobject_ids_for_reference (op : ExtractOperation) (c : Context)
    (name field : string) : result (gset SalesforceId) :=
  match get_field_map (connection op) name with
  | Raise e => Raise e
  | Ok field_map =>
      match field_descr field_map field with
      | Raise e => Raise e
      | Ok d =>
          Ok (fold_left
                (fun ids name =>
                   match extracted_ids c !! name with
                   | Some extracted => ids ∪ extracted
                   | None => ids
                   end)
                (referenceTo d) ∅)
      end
  end.

(** The row handed to [writerow]:
    [self.mappers[sobjectname].transform_record(record) if sobjectname in
    self.mappers else record]. *)
Definition row_of (op : ExtractOperation) (name : string) (r : record) : record :=
  match mappers op !! name with
  | Some mapper => mapper r
  | None => r
  end.

(** [ExtractOperation.store_result] *)
Definition store_result (op : ExtractOperation) (name : string) (r : record)
  : M Context unit :=
  _ ← modify (fun c =>
         match extracted_ids c !! name with
         | Some _ => c
         | None => MkContext (required_ids c) (<[name := ∅]> (extracted_ids c))
                     (output_files c)
         end);
  id_value ← lift (dict_get "Id" r);
  id ← lift (Id.of_value id_value);
  extracted ← gets (fun c => get_extracted_ids c name);
  _ ← (if decide (id ∈ extracted) then ret tt
       else
         _ ← modify (fun c =>
                MkContext (required_ids c)
                  (<[name := {[id]} ∪ extracted]> (extracted_ids c))
                  (output_files c));
         rows ← (fun c => (of_option KeyError (output_files c !! name), c));
         modify (fun c =>
           MkContext (required_ids c) (extracted_ids c)
             (<[name := rows ++ [row_of op name r]]> (output_files c))));
  modify (fun c =>
    match required_ids c !! name with
    | Some required =>
        if decide (id ∈ required)
        then MkContext (<[name := required ∖ {[id]}]> (required_ids c))
               (extracted_ids c) (output_files c)
        else c
    | None => c
    end).

(** [ExtractionStep.get_self_lookup_behavior_for_field] *)
Definition get_self_lookup_behavior_for_field (step : ExtractionStep) (f : string)
  : string :=
  default (self_lookup_behavior step) (lookup_behaviors step !! f).

(** [ExtractionStep.get_outside_lookup_behavior_for_field] *)
Definition get_outside_lookup_behavior_for_field (step : ExtractionStep) (f : string)
  : string :=
  default (outside_lookup_behavior step) (lookup_behaviors step !! f).

(** [lookup_value in ids] for a field value and a set of [SalesforceId]s.
    Python probes the set with the hash of the plain string, and
    [SalesforceId.__hash__] is the hash of the 18-character form: up to
    hash collisions, the probe succeeds exactly when the value is the
    18-character text of a member. *)
Definition value_in (v : value) (ids : gset SalesforceId) : bool :=
  match v with
  | Some s => bool_decide (MkSalesforceId s ∈ ids)
  | None => false
  end.

(** The body of [for l in self.self_lookups] in
    [ExtractionStep.store_result]. *)
Definition trace_self_lookup (step : ExtractionStep) (r : record) (l : string)
  : M Context unit :=
  if negb (String.eqb (get_self_lookup_behavior_for_field step l)
             SelfLookupBehavior.TRACE_NONE)
  then
    v ← lift (dict_get l r);
    match v with
    | None => ret tt
    | Some _ =>
        id ← lift (Id.of_value v);
        add_dependency (sobjectname step) id
    end
  else ret tt.

(** The body of [for f in self.dependent_lookups]. *)
Definition register_dependent_lookup (op : ExtractOperation)
    (step : ExtractionStep) (field_map : field_map_t) (r : record) (f : string)
  : M Context unit :=
  lookup_value ← lift (dict_get f r);
  match lookup_value with
  | None => ret tt
  | Some _ =>
      d ← lift (field_descr field_map f);
      if Nat.ltb 1 (length (referenceTo d)) then
        target_sobject ← lift (get_sobject_name_for_id (connection op) lookup_value);
        if negb (in_list target_sobject (get_sobject_list op)) then ret tt
        else
          a ← lift (index (get_sobject_list op) target_sobject);
          b ← lift (index (get_sobject_list op) (sobjectname step));
          if Nat.ltb a b then ret tt
          else
            id ← lift (Id.of_value lookup_value);
            add_dependency target_sobject id
      else
        target_sobject ← lift (of_option IndexError (referenceTo d !! 0));
        id ← lift (Id.of_value lookup_value);
        add_dependency target_sobject id
  end.

(** The sObject a descendent lookup value points to: the only target of
    the field, or for a polymorphic field the owner of the key prefix. *)
Definition descendent_target (op : ExtractOperation) (d : FieldDescriptor)
    (lookup_value : value) : result string :=
  if Nat.eqb (length (referenceTo d)) 1
  then of_option IndexError (referenceTo d !! 0)
  else get_sobject_name_for_id (connection op) lookup_value.

(** The body of [for f in self.descendent_lookups]: it returns the record,
    from which [del result[f]] may have removed the field. *)
Definition check_descendent_lookup (op : ExtractOperation)
    (step : ExtractionStep) (field_map : field_map_t) (r : record) (f : string)
  : M Context record :=
  lookup_value ← lift (dict_get f r);
  d ← lift (field_descr field_map f);
  target_sobject ← lift (descendent_target op d lookup_value);
  extracted ← gets (fun c => get_extracted_ids c target_sobject);
  if negb (value_in lookup_value extracted) then
    let behavior := get_outside_lookup_behavior_for_field step f in
    if String.eqb behavior OutsideLookupBehavior.DROP_FIELD then ret (dict_del f r)
    else if String.eqb behavior OutsideLookupBehavior.INCLUDE then ret r
    else if String.eqb behavior OutsideLookupBehavior.ERROR then
      _ ← lift (dict_get "Id" r);
      _ ← lift (dict_get f r);
      raise Exception
    else if String.eqb behavior OutsideLookupBehavior.RECURSE then
      raise NotImplementedError
    else ret r
  else ret r.

Fixpoint check_descendent_lookups (op : ExtractOperation)
    (step : ExtractionStep) (field_map : field_map_t) (r : record)
    (fs : list string) : M Context record :=
  match fs with
  | [] => ret r
  | f :: fs' =>
      r' ← check_descendent_lookup op step field_map r f;
      check_descendent_lookups op step field_map r' fs'
  end.

(** [ExtractionStep.store_result] *)
Definition step_store_result (op : ExtractOperation) (step : ExtractionStep)
    (lk : lookups) (r : record) : M Context unit :=
  field_map ← lift (get_field_map (connection op) (sobjectname step));
  _ ← for_each (elements (self_lookups lk)) (trace_self_lookup step r);
  _ ← for_each (elements (dependent_lookups lk))
        (register_dependent_lookup op step field_map r);
  r' ← check_descendent_lookups op step field_map r
         (elements (descendent_lookups lk));
  store_result op (sobjectname step) r'.

(** ['\'' + str(id) + '\''] *)
Definition quoted (id : SalesforceId) : string :=
  "'" +:+ Id.__str__ id +:+ "'".

(** [max_len = 4000 - len('WHERE {} IN ()'.format(self.get_field_list()))] *)
Definition max_len (field_scope : list string) : Z :=
  4000 - Z.of_nat (String.length
                     ("WHERE " +:+ Step.get_field_list field_scope +:+ " IN ()")).

(** The inner [while] of [perform_id_field_pass]: it pops identifiers into
    [id_list] while the text is shorter than [max_len - 22]. It returns
    the identifiers popped into this chunk, the text, and the identifiers
    left. *)
Fixpoint fill_chunk (max_len : Z) (taken : list SalesforceId) (id_list : string)
    (ids : list SalesforceId) : list SalesforceId * string * list SalesforceId :=
  match ids with
  | [] => (taken, id_list, [])
  | id :: ids' =>
      if (Z.of_nat (String.length id_list) <? max_len - 22)%Z
      then fill_chunk max_len (taken ++ [id]) (id_list +:+ ", " +:+ quoted id) ids'
      else (taken, id_list, ids)
  end.

(** The outer [while len(ids) > 0], for the identifiers in the order in
    which [ids.pop()] hands them out. Every round pops at least one
    identifier, so [length ids] rounds are enough. *)
Fixpoint chunks_in (rounds : nat) (max_len : Z) (ids : list SalesforceId)
  : list (list SalesforceId * string) :=
  match rounds, ids with
  | S rounds', id :: ids' =>
      let '(taken, id_list, rest) := fill_chunk max_len [id] (quoted id) ids' in
      (taken, id_list) :: chunks_in rounds' max_len rest
  | _, _ => []
  end.

Definition chunks (max_len : Z) (ids : list SalesforceId)
  : list (list SalesforceId * string) :=
  chunks_in (length ids) max_len ids.

(** ['WHERE {} IN ({})'], the filter of the query of one chunk. *)
Definition where_clause_of (id_field id_list : string) : string :=
  "WHERE " +:+ id_field +:+ " IN (" +:+ id_list +:+ ")".

(** ['SELECT {} FROM {} WHERE {} IN ({})'.format(...)] *)
Definition id_query (step : ExtractionStep) (id_field id_list : string) : string :=
  "SELECT " +:+ Step.get_field_list (field_scope step) +:+ " FROM "
    +:+ sobjectname step +:+ " " +:+ where_clause_of id_field id_list.

(** [ExtractionStep.perform_id_field_pass], popping [id_set] in the order
    [ids]. The chunks depend on the local copy of the set only, not on what
    the queries return, so they are laid out before the queries are sent. *)
Definition perform_id_field_pass_in (op : ExtractOperation)
    (step : ExtractionStep) (lk : lookups) (id_field : string)
    (ids : list SalesforceId) : M Context unit :=
  for_each (chunks (max_len (field_scope step)) ids)
    (fun chunk =>
       for_each (query_all (connection op) (id_query step id_field (snd chunk)))
         (step_store_result op step lk)).

Definition perform_id_field_pass (op : ExtractOperation)
    (step : ExtractionStep) (lk : lookups) (id_field : string)
    (id_set : gset SalesforceId) : M Context unit :=
  perform_id_field_pass_in op step lk id_field (elements id_set).

(** [ExtractionStep.perform_lookup_pass] *)
Definition perform_lookup_pass (op : ExtractOperation) (step : ExtractionStep)
    (lk : lookups) (field : string) : M Context unit :=
  ids ← (fun c =>
           (get_sobject_ids_for_reference op c (sobjectname step) field, c));
  perform_id_field_pass op step lk field ids.

(** [ExtractionStep.resolve_registered_dependencies] *)
Definition resolve_registered_dependencies (op : ExtractOperation)
    (step : ExtractionStep) (lk : lookups) : M Context unit :=
  pre_deps ← gets (fun c => get_dependencies c (sobjectname step));
  _ ← perform_id_field_pass op step lk "Id" pre_deps;
  missing ← gets (fun c => get_dependencies c (sobjectname step) ∩ pre_deps);
  if Nat.ltb 0 (size missing) then raise Exception else ret tt.

(** [ExtractionStep.perform_bulk_api_pass] *)
Definition perform_bulk_api_pass (op : ExtractOperation) (step : ExtractionStep)
    (lk : lookups) (query : string) : M Context unit :=
  for_each (bulk_query (connection op) (sobjectname step) query)
    (step_store_result op step lk).

(** One round of the [while True] loop of [ExtractionStep.execute]:
    children through every self lookup, then parents. *)
Definition trace_round (op : ExtractOperation) (step : ExtractionStep)
    (lk : lookups) : M Context unit :=
  _ ← for_each (elements (self_lookups lk)) (perform_lookup_pass op step lk);
  resolve_registered_dependencies op step lk.

(** The [while True] loop, run for at most [fuel] rounds; [None] when the
    rounds are used up before the loop has left. *)
Fixpoint trace_self_lookups (fuel : nat) (op : ExtractOperation)
    (step : ExtractionStep) (lk : lookups) (c : Context)
  : option (result unit * Context) :=
  match fuel with
  | 0 => None
  | S fuel' =>
      let before_count := size (get_extracted_ids c (sobjectname step)) in
      match trace_round op step lk c with
      | (Raise e, c') => Some (Raise e, c')
      | (Ok _, c') =>
          let after_count := size (get_extracted_ids c' (sobjectname step)) in
          if Nat.eqb before_count after_count then Some (Ok tt, c')
          else trace_self_lookups fuel' op step lk c'
      end
  end.

(** [Step.scan_fields] on an extraction step. *)
Definition scan_fields (op : ExtractOperation) (step : ExtractionStep)
  : result lookups :=
  match get_field_map (connection op) (sobjectname step) with
  | Raise e => Raise e
  | Ok field_map =>
      Step.scan_fields field_map (get_sobject_list op) (sobjectname step)
        (field_scope step)
  end.

(** ['{}'.format(where_clause)] *)
Definition format_clause (w : option string) : string :=
  match w with
  | Some s => s
  | None => "None"
  end.

(** The condition guarding the tracing loop. *)
Definition traces (step : ExtractionStep) (lk : lookups) : bool :=
  Nat.ltb 0 (size (self_lookups lk))
  && String.eqb (self_lookup_behavior step) SelfLookupBehavior.TRACE_ALL
  && negb (String.eqb (scope step) ExtractionScope.ALL_RECORDS).

(** [ExtractionStep.execute] up to the tracing loop: [inl] when the method
    has returned (the [AllRecords] branch), [inr] with the classification
    when it goes on. *)
Definition execute_scope (op : ExtractOperation) (step : ExtractionStep)
  : M Context (unit + lookups) :=
  lk ← lift (scan_fields op step);
  if String.eqb (scope step) ExtractionScope.ALL_RECORDS then
    _ ← perform_bulk_api_pass op step lk
          ("SELECT " +:+ Step.get_field_list (field_scope step) +:+ " FROM "
             +:+ sobjectname step);
    ret (inl tt)
  else
    _ ← (if String.eqb (scope step) ExtractionScope.QUERY then
           perform_bulk_api_pass op step lk
             ("SELECT " +:+ Step.get_field_list (field_scope step) +:+ " FROM "
                +:+ sobjectname step +:+ " WHERE "
                +:+ format_clause (where_clause step))
         else if String.eqb (scope step) ExtractionScope.DESCENDENTS then
           for_each (elements (descendent_lookups lk))
             (perform_lookup_pass op step lk)
         else ret tt);
    _ ← resolve_registered_dependencies op step lk;
    ret (inr lk).

(** [ExtractionStep.execute] *)
Definition execute_step (fuel : nat) (op : ExtractOperation)
    (step : ExtractionStep) (c : Context) : option (result unit * Context) :=
  match execute_scope op step c with
  | (Raise e, c') => Some (Raise e, c')
  | (Ok (inl _), c') => Some (Ok tt, c')
  | (Ok (inr lk), c') =>
      if traces step lk then trace_self_lookups fuel op step lk c'
      else Some (Ok tt, c')
  end.

(** [ExtractOperation.execute]: the steps in order; an exception ends the
    operation. *)
Fixpoint execute_steps (fuel : nat) (op : ExtractOperation)
    (todo : list ExtractionStep) (c : Context) : option (result unit * Context) :=
  match todo with
  | [] => Some (Ok tt, c)
  | s :: todo' =>
      match execute_step fuel op s c with
      | None => None
      | Some (Raise e, c') => Some (Raise e, c')
      | Some (Ok _, c') => execute_steps fuel op todo' c'
      end
  end.

Definition execute (fuel : nat) (op : ExtractOperation) (c : Context)
  : option (result unit * Context) :=
  execute_steps fuel op (steps op) c.

(** *** Vocabulary for the properties of an extraction *)

(** The identifier that [store_result] files a record under. *)
Definition record_id (r : record) : result SalesforceId :=
  match dict_get "Id" r with
  | Raise e => Raise e
  | Ok v => Id.of_value v
  end.

(** No identifier leaves an extracted set between [c] and [c']. *)
Definition grows (c c' : Context) : Prop :=
  forall name, get_extracted_ids c name ⊆ get_extracted_ids c' name.

(** Every identifier extracted between [c] and [c'] satisfies [U]. *)
Definition adds_within (U : SalesforceId -> Prop) (c c' : Context) : Prop :=
  forall name id,
    id ∈ get_extracted_ids c' name -> id ∈ get_extracted_ids c name \/ U id.

(** Between [c] and [c'] an output file received as many rows as
    identifiers were added to the extracted set of its sObject, and every
    output file is still there. *)
Definition writes_once (c c' : Context) : Prop :=
  forall name rows,
    output_files c !! name = Some rows ->
    exists new_rows,
      output_files c' !! name = Some (rows ++ new_rows)
      /\ size (get_extracted_ids c' name)
         = size (get_extracted_ids c name) + length new_rows.

(** The rows of an output file that has no mapper carry pairwise distinct
    identifiers, each of them extracted for the sObject of the file. *)
Definition unique_rows (op : ExtractOperation) (c : Context) : Prop :=
  forall name rows,
    output_files c !! name = Some rows ->
    mappers op !! name = None ->
    exists ids,
      rmap record_id rows = Ok ids
      /\ NoDup ids
      /\ forall id, id ∈ ids -> id ∈ get_extracted_ids c name.

Definition keeps_unique_rows (op : ExtractOperation) (c c' : Context) : Prop :=
  unique_rows op c -> unique_rows op c'.

Definition advances (U : SalesforceId -> Prop) (c c' : Context) : Prop :=
  grows c c' /\ writes_once c c' /\ adds_within U c c'.

(** The identifier of the record, when it has one, satisfies [U]. *)
Definition ids_within (U : SalesforceId -> Prop) (r : record) : Prop :=
  forall id, record_id r = Ok id -> U id.

(** Every record the store answers a query with has an identifier that
    satisfies [U]. *)
Definition store_within (op : ExtractOperation) (U : SalesforceId -> Prop) : Prop :=
  (forall q r, r ∈ query_all (connection op) q -> ids_within U r)
  /\ (forall name q r, r ∈ bulk_query (connection op) name q -> ids_within U r).

(** [ExtractionStep.set_lookup_behavior_for_field] *)
Definition set_lookup_behavior_for_field (step : ExtractionStep) (f behavior : string)
  : ExtractionStep :=
  MkExtractionStep (sobjectname step) (scope step) (field_scope step)
    (where_clause step) (self_lookup_behavior step) (outside_lookup_behavior step)
    (<[f := behavior]> (lookup_behaviors step)).

(** For every sObject with an output file, no identifier is both required
    and extracted. *)
Definition settled (c : Context) : Prop :=
  forall name,
    is_Some (output_files c !! name) ->
    get_dependencies c name ## get_extracted_ids c name.

Definition keeps_settled (c c' : Context) : Prop :=
  (forall name, is_Some (output_files c' !! name) -> is_Some (output_files c !! name))
  /\ (settled c -> settled c').

(** Between [c] and [c'] no identifier leaves an extracted set, and an
    identifier leaves a required set only once it is extracted. *)
Definition resolves (c c' : Context) : Prop :=
  grows c c'
  /\ forall name id,
      id ∈ get_dependencies c name ->
      id ∈ get_dependencies c' name \/ id ∈ get_extracted_ids c' name.

(** Between [c] and [c'] only the extracted set and the output file of
    [name] may have changed, and no output file was opened or closed. *)
Definition touches_only (name : string) (c c' : Context) : Prop :=
  (forall other, other <> name ->
                 get_extracted_ids c' other = get_extracted_ids c other
                 /\ output_files c' !! other = output_files c !! other)
  /\ (is_Some (output_files c' !! name) <-> is_Some (output_files c !! name)).

End Extract.

(** ** [class DataMapper] *)

Module DataMapper.

Record DataMapper : Type := MkDataMapper {
  field_name_mapping : gmap string string;
  field_transforms : gmap string (list (value -> value))
}.

(** [DataMapper.transform_key] *)
Definition transform_key (m : DataMapper) (k : string) : string :=
  default k (field_name_mapping m !! k).

(** [DataMapper.transform_value]:
    [functools.reduce(lambda x, f: f(x), self.field_transforms.get(k, []), v)] *)
Definition transform_value (m : DataMapper) (k : string) (v : value) : value :=
  fold_left (fun x f => f x) (default [] (field_transforms m !! k)) v.

(** [d[k] = v] on a dictionary in insertion order: a key that is already
    there keeps its place. *)
Fixpoint dict_set (k : string) (v : value) (r : record) : record :=
  match r with
  | [] => [(k, v)]
  | (k', v') :: r' =>
      if String.eqb k' k then (k, v) :: r' else (k', v') :: dict_set k v r'
  end.

(** [DataMapper.transform_record]: the dict comprehension
    [{ transform_key(k): transform_value(k, record[k]) for k in record }]. *)
Definition transform_record (m : DataMapper) (r : record) : record :=
  fold_left
    (fun out kv =>
       dict_set (transform_key m (fst kv)) (transform_value m (fst kv) (snd kv)) out)
    r [].

End DataMapper.

(** ** [class Operation]: the cache of the schema *)

Module Operation.

(** What [describe()] answers for an sObject: its fields in order, each
    under its name ([f.get('name')]). *)
Definition Describe : Type := list (string * FieldDescriptor).

(** The caches of an [Operation], and the [describe()] calls the store has
    received so far, oldest first. *)
Record State : Type := MkState {
  describe_info : gmap string Describe;
  field_maps : gmap string field_map_t;
  proxy_objects : gset string;
  described : list string
}.

Definition initial : State := MkState ∅ ∅ ∅ [].

(** [{ f.get('name') : f for f in fields }]: of two fields with one name
    the later stays. *)
Definition field_map_of (fields : Describe) : field_map_t :=
  fold_left (fun fm f => <[fst f := snd f]> fm) fields ∅.

(** [Operation.get_proxy_object] *)
Definition get_proxy_object (sobjectname : string) : M State unit :=
  modify (fun s =>
    MkState (describe_info s) (field_maps s) ({[sobjectname]} ∪ proxy_objects s)
      (described s)).

(** [Operation.get_describe], for the store's answer [remote] to
    [describe()]. *)
Definition get_describe (remote : string -> result Describe) (sobjectname : string)
  : M State Describe :=
  cached ← gets (fun s => describe_info s !! sobjectname);
  match cached with
  | Some d => ret d
  | None =>
      _ ← get_proxy_object sobjectname;
      _ ← modify (fun s =>
             MkState (describe_info s) (field_maps s) (proxy_objects s)
               (described s ++ [sobjectname]));
      d ← lift (remote sobjectname);
      _ ← modify (fun s =>
             MkState (<[sobjectname := d]> (describe_info s)) (field_maps s)
               (proxy_objects s) (described s));
      _ ← modify (fun s =>
             MkState (describe_info s)
               (<[sobjectname := field_map_of d]> (field_maps s))
               (proxy_objects s) (described s));
      ret d
  end.

(** [Operation.get_field_map] *)
Definition get_field_map (remote : string -> result Describe) (sobjectname : string)
  : M State field_map_t :=
  cached ← gets (fun s => describe_info s !! sobjectname);
  _ ← match cached with
      | Some _ => ret tt
      | None => _ ← get_describe remote sobjectname; ret tt
      end;
  fm ← gets (fun s => field_maps s !! sobjectname);
  lift (of_option KeyError fm).

(** [Operation.get_filtered_field_map] *)
Definition get_filtered_field_map (remote : string -> result Describe)
    (sobjectname : string) (lam : FieldDescriptor -> bool)
  : M State field_map_t :=
  field_map ← get_field_map remote sobjectname;
  ret (filter (fun kd : string * FieldDescriptor => lam (snd kd) = true) field_map).


End Operation.

(** ** Concrete operations *)

Module Example.

Definition account_fields : field_map_t :=
  <["Id" := MkField "id" [] "tns:ID"]>
    (<["Name" := MkField "string" [] "xsd:string"]>
       (<["ParentId" := MkField "reference" ["Account"] "tns:ID"]> ∅)).

Definition contact_fields : field_map_t :=
  <["Id" := MkField "id" [] "tns:ID"]>
    (<["LastName" := MkField "string" [] "xsd:string"]>
       (<["AccountId" := MkField "reference" ["Account"] "tns:ID"]> ∅)).

Definition schema : gmap string field_map_t :=
  <["Account" := account_fields]> (<["Contact" := contact_fields]> ∅).

(** A store whose bulk insert answers [results] to every request and whose
    bulk update accepts every record. *)
Definition store (results : list UploadResult) : Connection :=
  MkConnection schema ∅ (fun _ => []) (fun _ _ => [])
    (fun _ _ => results)
    (fun _ records => map (fun _ => MkUploadResult true None) records).

Definition inserted (id : string) : UploadResult := MkUploadResult true (Some id).
Definition rejected : UploadResult := MkUploadResult false None.

Definition account_step : Load.LoadStep :=
  Load.MkLoadStep "Account" ["Name"; "ParentId"] OutsideLookupBehavior.INCLUDE ∅.

Definition contact_step : Load.LoadStep :=
  Load.MkLoadStep "Contact" ["LastName"; "AccountId"] OutsideLookupBehavior.INCLUDE ∅.

(** Two accounts that are each other's parent. *)
Definition x : record :=
  [("Id", Some "001000000000000"); ("Name", Some "X");
   ("ParentId", Some "001000000000001")].
Definition y : record :=
  [("Id", Some "001000000000001"); ("Name", Some "Y");
   ("ParentId", Some "001000000000000")].


Definition contact : record :=
  [("Id", Some "003000000000000"); ("LastName", Some "Z");
   ("AccountId", Some "001000000000000")].

Definition accounts (rows : list record) (results : list UploadResult)
  : Load.LoadOperation :=
  Load.MkLoadOperation (store results) [account_step]
    (<["Account" := rows]> ∅) ∅.

Definition accounts_and_contacts (results : list UploadResult)
  : Load.LoadOperation :=
  Load.MkLoadOperation (store results) [account_step; contact_step]
    (<["Account" := [x; y]]> (<["Contact" := [contact]]> ∅)) ∅.

Definition account_lookups : lookups :=
  MkLookups {["ParentId"]} {["ParentId"]} ∅ ∅.

(** A contact step that drops outside references. *)
Definition contact_drop_step : Load.LoadStep :=
  Load.MkLoadStep "Contact" ["LastName"; "AccountId"]
    OutsideLookupBehavior.DROP_FIELD ∅.

Definition contact_lookups : lookups :=
  MkLookups {["AccountId"]} ∅ {["AccountId"]} ∅.


(** [sub in s] *)
Definition contains (sub s : string) : bool :=
  match String.index 0 sub s with
  | Some _ => true
  | None => false
  end.

(** Whether the identifier in field [f] of [r] is listed in the query. *)
Definition listed (f : string) (r : record) (q : string) : bool :=
  match dict_get f r with
  | Ok (Some id) => contains ("'" +:+ id +:+ "'") q
  | _ => false
  end.

(** A store holding the rows [table] of one sObject: it answers a query
    on [Id] or on [ParentId] with the rows whose field is listed. *)
Definition answers (table : list record) (q : string) : list record :=
  List.filter
    (fun r =>
       if contains "WHERE Id IN" q then listed "Id" r q
       else if contains "WHERE ParentId IN" q then listed "ParentId" r q
       else false)
    table.

(** Three accounts in a chain: [a] is the parent of [b], [b] of [c]. *)
Definition a : record :=
  [("Id", Some "001000000000010AAA"); ("Name", Some "A"); ("ParentId", None)].
Definition b : record :=
  [("Id", Some "001000000000011AAA"); ("Name", Some "B");
   ("ParentId", Some "001000000000010AAA")].
Definition c : record :=
  [("Id", Some "001000000000012AAA"); ("Name", Some "C");
   ("ParentId", Some "001000000000011AAA")].

Definition id_a : SalesforceId := MkSalesforceId "001000000000010AAA".
Definition id_b : SalesforceId := MkSalesforceId "001000000000011AAA".
Definition id_c : SalesforceId := MkSalesforceId "001000000000012AAA".

Definition chain_store : Connection :=
  MkConnection schema ∅ (answers [a; b; c]) (fun _ _ => [])
    (fun _ _ => []) (fun _ _ => []).

Definition selected_accounts : Extract.ExtractionStep :=
  Extract.MkExtractionStep "Account" ExtractionScope.SELECTED_RECORDS
    ["Id"; "Name"; "ParentId"] None SelfLookupBehavior.TRACE_ALL
    OutsideLookupBehavior.INCLUDE ∅.

Definition chain_extraction : Extract.ExtractOperation :=
  Extract.MkExtractOperation chain_store [selected_accounts] ∅.

(** The context after [add_dependency('Account', c)] and
    [set_output_file('Account', ...)]. *)
Definition chain_seed : Extract.Context :=
  Extract.MkContext (<["Account" := {[id_c]}]> ∅) ∅ (<["Account" := []]> ∅).

(** Contacts extracted after accounts, dropping outside references. *)
Definition dropping_contacts : Extract.ExtractionStep :=
  Extract.MkExtractionStep "Contact" ExtractionScope.DESCENDENTS
    ["Id"; "LastName"; "AccountId"] None SelfLookupBehavior.TRACE_ALL
    OutsideLookupBehavior.DROP_FIELD ∅.

Definition contact_extraction : Extract.ExtractOperation :=
  Extract.MkExtractOperation chain_store [selected_accounts; dropping_contacts] ∅.


Definition contact_sink : Extract.Context :=
  Extract.MkContext ∅ ∅ (<["Contact" := []]> ∅).

(** The context in which [c] is extracted and still required. *)
Definition chain_found_c : Extract.Context :=
  Extract.MkContext (<["Account" := {[id_c]}]> ∅) (<["Account" := {[id_c]}]> ∅)
    (<["Account" := [c]]> ∅).


(** A mapper for the extraction, which renames two fields for the file,
    and the mapper for the load, which names them back. *)
Definition to_file : DataMapper.DataMapper :=
  DataMapper.MkDataMapper
    (<["Name" := "Account Name"]> (<["ParentId" := "Parent"]> ∅)) ∅.

Definition from_file : DataMapper.DataMapper :=
  DataMapper.MkDataMapper
    (<["Account Name" := "Name"]> (<["Parent" := "ParentId"]> ∅)) ∅.

End Example.

(** * Properties *)

(** ** Strings *)

Lemma string_length_app (s t : string) :
  String.length (s +:+ t) = String.length s + String.length t.
Proof. induction s as [|a s IH]; simpl; [reflexivity | now rewrite IH]. Qed.

Lemma get_lt (s : string) (n : nat) :
  n < String.length s -> exists c, String.get n s = Some c.
Proof.
  revert n; induction s as [|a s IH]; simpl; intros n Hn; [lia |].
  destruct n as [|n]; [eauto | apply IH; lia].
Qed.

(** ** Identifiers *)

Section Identifier.

Example id_of_15 :
  Id.__init__ (PyStr "001000000000000") = Ok (MkSalesforceId "001000000000000AAA").
Proof. reflexivity. Qed.

Example id_of_15_upper :
  Id.__init__ (PyStr "00Q0A000000aBcD") = Ok (MkSalesforceId "00Q0A000000aBcDUAU").
Proof. reflexivity. Qed.

Lemma baseTwo_ok (s : string) (i : nat) :
  i * 5 + 5 <= String.length s ->
  exists b, Id.baseTwo s i = Ok b /\ (b < 32)%N.
Proof.
  intros Hlen. unfold Id.baseTwo. cbn [seq fold_left].
  destruct (get_lt s (i * 5 + 0)) as [c0 ->]; [lia |].
  destruct (get_lt s (i * 5 + 1)) as [c1 ->]; [lia |].
  destruct (get_lt s (i * 5 + 2)) as [c2 ->]; [lia |].
  destruct (get_lt s (i * 5 + 3)) as [c3 ->]; [lia |].
  destruct (get_lt s (i * 5 + 4)) as [c4 ->]; [lia |].
  destruct (Id.is_upper c0), (Id.is_upper c1), (Id.is_upper c2),
    (Id.is_upper c3), (Id.is_upper c4);
    eexists; (split; [reflexivity | vm_compute; reflexivity]).
Qed.

Lemma alphabet_get (b : N) :
  (b < 32)%N -> exists c, String.get (N.to_nat b) Id.alphabet = Some c.
Proof.
  intros Hb. apply get_lt.
  change (String.length Id.alphabet) with 32. lia.
Qed.

Lemma suffix_ok (s : string) :
  String.length s = 15 ->
  exists sfx, Id.suffix s = Ok sfx /\ String.length sfx = 3.
Proof.
  intros Hlen. unfold Id.suffix. cbn [seq fold_left].
  destruct (baseTwo_ok s 0) as (b0 & -> & H0); [lia |].
  destruct (alphabet_get b0 H0) as [c0 ->].
  destruct (baseTwo_ok s 1) as (b1 & -> & H1); [lia |].
  destruct (alphabet_get b1 H1) as [c1 ->].
  destruct (baseTwo_ok s 2) as (b2 & -> & H2); [lia |].
  destruct (alphabet_get b2 H2) as [c2 ->].
  eexists; split; [reflexivity | reflexivity].
Qed.


Lemma init_18 (s : string) :
  String.length s = 18 -> Id.__init__ (PyStr s) = Ok (MkSalesforceId s).
Proof. intros Hlen. unfold Id.__init__. rewrite Hlen. reflexivity. Qed.

(** Every identifier built from a string holds 18 characters. *)
Lemma init_length (s : string) (a : SalesforceId) :
  Id.__init__ (PyStr s) = Ok a -> String.length (sfid a) = 18.
Proof.
  unfold Id.__init__.
  destruct (Nat.eqb (String.length s) 15) eqn:E15.
  - apply Nat.eqb_eq in E15.
    destruct (suffix_ok s E15) as (sfx & -> & Hl).
    intros [= <-]. simpl. rewrite string_length_app. lia.
  - destruct (Nat.eqb (String.length s) 18) eqn:E18; [| discriminate].
    apply Nat.eqb_eq in E18. intros [= <-]. exact E18.
Qed.

Lemma init_other_length (s : string) :
  String.length s <> 15 -> String.length s <> 18 ->
  Id.__init__ (PyStr s) = Raise ValueError.
Proof.
  intros H15 H18. unfold Id.__init__.
  apply Nat.eqb_neq in H15, H18. rewrite H15, H18. reflexivity.
Qed.



(** C10. [__eq__] against a string of a length other than 15 and 18 raises
    [ValueError]; against a value that is neither a string nor an
    identifier it returns [False]. *)
Theorem C10_eq_other_values (self : SalesforceId) :
  (forall s : string,
      String.length s <> 15 -> String.length s <> 18 ->
      Id.__eq__ self (PyStr s) = Raise ValueError)
  /\ (forall other : pyval,
         (forall s, other <> PyStr s) -> (forall i, other <> PyId i) ->
         Id.__eq__ self other = Ok false).
Proof.
  split.
  - intros s H15 H18. unfold Id.__eq__.
    now rewrite (init_other_length s H15 H18).
  - intros other Hs Hi.
    destruct other as [| s | i | z | b]; try reflexivity.
    + now destruct (Hs s).
    + now destruct (Hi i).
Qed.

End Identifier.

(** ** The lookup classifier *)

Section Classifier.

Lemma in_list_spec (x : string) (l : list string) :
  in_list x l = true <-> x ∈ l.
Proof.
  unfold in_list. rewrite existsb_exists. split.
  - intros (y & Hy & E). apply String.eqb_eq in E. subst.
    now apply list_elem_of_In.
  - intros H. exists x. split; [now apply list_elem_of_In | apply String.eqb_refl].
Qed.

Lemma any_spec (l : list bool) : Step.any l = true <-> true ∈ l.
Proof.
  unfold Step.any. rewrite existsb_exists. split.
  - intros (b & Hb & ->). now apply list_elem_of_In.
  - intros H. exists true. split; [now apply list_elem_of_In | reflexivity].
Qed.

Lemma index_in (l : list string) (x : string) :
  x ∈ l -> exists n, index l x = Ok n.
Proof.
  induction l as [|y l IH]; intros H; [inversion H |].
  simpl. destruct (String.eqb_spec y x) as [-> | Hne]; [eauto |].
  destruct IH as [n ->]; [| eauto].
  apply elem_of_cons in H as [-> | H]; [congruence | assumption].
Qed.

Lemma index_Ok_in (l : list string) (x : string) (n : nat) :
  index l x = Ok n -> x ∈ l.
Proof.
  revert n; induction l as [|y l IH]; simpl; intros n; [discriminate |].
  destruct (String.eqb_spec y x) as [-> | Hne]; [intros _; left |].
  destruct (index l x) eqn:E; [| discriminate].
  intros _. right. eapply IH. reflexivity.
Qed.

Lemma rfilter_total (p : string -> result bool) (l : list string) :
  (forall f, f ∈ l -> exists b, p f = Ok b) ->
  exists fs, rfilter p l = Ok fs.
Proof.
  induction l as [|f l IH]; intros H; simpl; [eauto |].
  destruct (H f) as [b ->]; [left |].
  destruct IH as [fs ->]; [| eauto].
  intros g Hg. apply H. now right.
Qed.

Lemma rfilter_elem (p : string -> result bool) (l fs : list string) :
  rfilter p l = Ok fs ->
  forall f, f ∈ fs <-> f ∈ l /\ p f = Ok true.
Proof.
  revert fs; induction l as [|g l IH]; simpl; intros fs.
  - intros [= <-] f. split; [intros H; inversion H | intros [H _]; inversion H].
  - destruct (p g) as [b |] eqn:Eg; [| discriminate].
    destruct (rfilter p l) as [fs' |]; [| discriminate].
    intros [= <-] f. specialize (IH fs' eq_refl f).
    destruct b.
    + rewrite !elem_of_cons, IH.
      split; [intros [-> | [? ?]]; auto | intros [[-> | ?] ?]; auto].
    + rewrite IH, elem_of_cons.
      split; [intros [? ?]; auto | intros [[-> | ?] ?]; [congruence | auto]].
Qed.

Lemma set_comprehension_total (p : string -> result bool) (l : list string) :
  (forall f, f ∈ l -> exists b, p f = Ok b) ->
  exists fs, set_comprehension p l = Ok fs.
Proof.
  intros H. unfold set_comprehension.
  destruct (rfilter_total p l H) as [fs ->]. eauto.
Qed.

Lemma set_comprehension_elem (p : string -> result bool) (l : list string)
    (fs : gset string) :
  set_comprehension p l = Ok fs ->
  forall f, f ∈ fs <-> f ∈ l /\ p f = Ok true.
Proof.
  unfold set_comprehension.
  destruct (rfilter p l) as [fs' |] eqn:E; [| discriminate].
  intros [= <-] f. rewrite elem_of_list_to_set. now apply rfilter_elem.
Qed.

Variable field_map : field_map_t.
Variable sobjects : list string.
Variable sobjectname : string.
Variable own : nat.
Hypothesis own_index : index sobjects sobjectname = Ok own.

(** What the list comprehension under [any] computes once the step's own
    position is known. *)
Lemma index_comparisons_spec (cmp : nat -> nat -> bool) (refs : list string) :
  exists bs,
    Step.index_comparisons cmp sobjects sobjectname refs = Ok bs
    /\ (Step.any bs = true <->
        exists t a, t ∈ refs /\ index sobjects t = Ok a /\ cmp a own = true).
Proof.
  unfold Step.index_comparisons. rewrite own_index.
  induction refs as [|t refs (bs & IH & Hany)]; simpl.
  - exists []. split; [reflexivity |].
    split; [discriminate | intros (t & a & H & _); inversion H].
  - destruct (in_list t sobjects) eqn:Et; simpl.
    + apply in_list_spec in Et. destruct (index_in _ _ Et) as [a Ea].
      rewrite Ea, IH. exists (cmp a own :: bs). split; [reflexivity |].
      unfold Step.any in *. simpl. rewrite orb_true_iff, Hany. split.
      * intros [Hc | (t' & a' & Ht' & Ea' & Hc)].
        -- exists t, a. repeat split; [left | assumption | assumption].
        -- exists t', a'. repeat split; [now right | assumption | assumption].
      * intros (t' & a' & Ht' & Ea' & Hc).
        apply elem_of_cons in Ht' as [-> | Ht'].
        -- left. congruence.
        -- right. eauto.
    + exists bs. split; [assumption |]. rewrite Hany. split.
      * intros (t' & a' & Ht' & Ea' & Hc). exists t', a'.
        repeat split; [now right | assumption | assumption].
      * intros (t' & a' & Ht' & Ea' & Hc).
        apply elem_of_cons in Ht' as [-> | Ht']; [| eauto].
        apply index_Ok_in, in_list_spec in Ea'. congruence.
Qed.

Lemma is_relative_lookup_spec (cmp : nat -> nat -> bool) (f : string)
    (d : FieldDescriptor) :
  field_map !! f = Some d ->
  exists b,
    Step.is_relative_lookup cmp field_map sobjects sobjectname f = Ok b
    /\ (b = true <->
        exists t a, t ∈ referenceTo d /\ index sobjects t = Ok a /\ cmp a own = true).
Proof.
  intros Hd. unfold Step.is_relative_lookup, field_descr. rewrite Hd. simpl.
  destruct (index_comparisons_spec cmp (referenceTo d)) as (bs & -> & Hany).
  eauto.
Qed.

End Classifier.

Section Classification.

Variable field_map : field_map_t.
Variable sobjects : list string.
Variable sobjectname : string.
Variable field_scope : list string.

Hypothesis step_in_operation : sobjectname ∈ sobjects.
Hypothesis scope_described : forall f, f ∈ field_scope -> is_Some (field_map !! f).

Local Abbreviation in_operation_target := (Step.in_operation_target sobjects).
Local Abbreviation target_at := (Step.target_at sobjects).

Lemma is_lookup_spec (f : string) (d : FieldDescriptor) :
  field_map !! f = Some d ->
  exists b, Step.is_lookup field_map sobjects f = Ok b
            /\ (b = true <-> ftype d = "reference" /\ in_operation_target d).
Proof.
  intros Hd. unfold Step.is_lookup, field_descr. rewrite Hd. simpl.
  eexists; split; [reflexivity |].
  rewrite andb_true_iff, String.eqb_eq, any_spec, list_elem_of_fmap.
  unfold Step.in_operation_target. split.
  - intros [Ht (t & E & Hin)]. split; [assumption |].
    exists t. split; [assumption |]. now apply in_list_spec.
  - intros [Ht (t & Hin & Hop)]. split; [assumption |].
    exists t. split; [| assumption]. symmetry. now apply in_list_spec.
Qed.

(** [scan_fields] returns, and its four sets are the ones the
    comprehensions describe. *)
Lemma scan_fields_spec :
  exists lk own,
    Step.scan_fields field_map sobjects sobjectname field_scope = Ok lk
    /\ index sobjects sobjectname = Ok own
    /\ (forall f, f ∈ all_lookups lk <->
                  f ∈ field_scope
                  /\ exists d, field_map !! f = Some d
                               /\ ftype d = "reference" /\ in_operation_target d)
    /\ (forall f, f ∈ self_lookups lk <->
                  f ∈ all_lookups lk
                  /\ exists d, field_map !! f = Some d /\ sobjectname ∈ referenceTo d)
    /\ (forall f, f ∈ descendent_lookups lk <->
                  f ∈ all_lookups lk
                  /\ exists d, field_map !! f = Some d
                               /\ target_at d (fun a => a < own))
    /\ (forall f, f ∈ dependent_lookups lk <->
                  f ∈ all_lookups lk
                  /\ exists d, field_map !! f = Some d
                               /\ target_at d (fun a => own < a)).
Proof.
  destruct (index_in _ _ step_in_operation) as [own Hown].
  unfold Step.scan_fields.
  destruct (set_comprehension_total (Step.is_lookup field_map sobjects) field_scope)
    as [all Hall].
  { intros f Hf. destruct (scope_described f Hf) as [d Hd].
    destruct (is_lookup_spec f d Hd) as (b & -> & _). eauto. }
  rewrite Hall.
  pose proof (set_comprehension_elem _ _ _ Hall) as Eall.
  assert (Hdescr : forall f, f ∈ elements all -> exists d, field_map !! f = Some d).
  { intros f Hf. apply elem_of_elements, Eall in Hf as [Hf _].
    destruct (scope_described f Hf) as [d Hd]. eauto. }
  destruct (set_comprehension_total
              (Step.is_self_lookup field_map sobjectname) (elements all))
    as [selfs Hself].
  { intros f Hf. destruct (Hdescr f Hf) as [d Hd].
    unfold Step.is_self_lookup, field_descr. rewrite Hd. simpl. eauto. }
  rewrite Hself.
  destruct (set_comprehension_total
              (Step.is_relative_lookup Nat.ltb field_map sobjects sobjectname)
              (elements all)) as [descs Hdesc].
  { intros f Hf. destruct (Hdescr f Hf) as [d Hd].
    destruct (is_relative_lookup_spec field_map sobjects sobjectname own Hown
                Nat.ltb f d Hd) as (b & -> & _). eauto. }
  rewrite Hdesc.
  destruct (set_comprehension_total
              (Step.is_relative_lookup (fun a b => Nat.ltb b a)
                 field_map sobjects sobjectname)
              (elements all)) as [deps Hdep].
  { intros f Hf. destruct (Hdescr f Hf) as [d Hd].
    destruct (is_relative_lookup_spec field_map sobjects sobjectname own Hown
                (fun a b => Nat.ltb b a) f d Hd) as (b & -> & _). eauto. }
  rewrite Hdep.
  exists (MkLookups all selfs descs deps), own.
  split; [reflexivity |]. split; [assumption |]. cbn [all_lookups self_lookups
    descendent_lookups dependent_lookups].
  split; [| split; [| split]].
  - intros f. rewrite Eall. split.
    + intros [Hf Hp]. split; [assumption |].
      destruct (scope_described f Hf) as [d Hd]. exists d. split; [assumption |].
      destruct (is_lookup_spec f d Hd) as (b & Hb & Hiff).
      apply Hiff. congruence.
    + intros [Hf (d & Hd & Hp)]. split; [assumption |].
      destruct (is_lookup_spec f d Hd) as (b & Hb & Hiff).
      rewrite Hb. f_equal. now apply Hiff.
  - intros f. rewrite (set_comprehension_elem _ _ _ Hself), elem_of_elements.
    unfold Step.is_self_lookup, field_descr. split.
    + intros [Hf Hp]. split; [assumption |].
      destruct (Hdescr f) as [d Hd]; [now apply elem_of_elements |].
      exists d. split; [assumption |]. rewrite Hd in Hp. simpl in Hp.
      apply in_list_spec. congruence.
    + intros [Hf (d & Hd & Hin)]. split; [assumption |].
      rewrite Hd. simpl. f_equal. now apply in_list_spec.
  - intros f. rewrite (set_comprehension_elem _ _ _ Hdesc), elem_of_elements.
    split.
    + intros [Hf Hp]. split; [assumption |].
      destruct (Hdescr f) as [d Hd]; [now apply elem_of_elements |].
      exists d. split; [assumption |].
      destruct (is_relative_lookup_spec field_map sobjects sobjectname own Hown
                  Nat.ltb f d Hd) as (b & Hb & Hiff).
      destruct Hiff as [Hiff _]. destruct Hiff as (t & a & Ht & Ha & Hc);
        [congruence |].
      exists t, a. repeat split; try assumption. now apply Nat.ltb_lt.
    + intros [Hf (d & Hd & t & a & Ht & Ha & Hc)]. split; [assumption |].
      destruct (is_relative_lookup_spec field_map sobjects sobjectname own Hown
                  Nat.ltb f d Hd) as (b & Hb & Hiff).
      rewrite Hb. f_equal. apply Hiff. exists t, a.
      repeat split; try assumption. now apply Nat.ltb_lt.
  - intros f. rewrite (set_comprehension_elem _ _ _ Hdep), elem_of_elements.
    split.
    + intros [Hf Hp]. split; [assumption |].
      destruct (Hdescr f) as [d Hd]; [now apply elem_of_elements |].
      exists d. split; [assumption |].
      destruct (is_relative_lookup_spec field_map sobjects sobjectname own Hown
                  (fun a b => Nat.ltb b a) f d Hd) as (b & Hb & Hiff).
      destruct Hiff as [Hiff _]. destruct Hiff as (t & a & Ht & Ha & Hc);
        [congruence |].
      exists t, a. repeat split; try assumption. now apply Nat.ltb_lt.
    + intros [Hf (d & Hd & t & a & Ht & Ha & Hc)]. split; [assumption |].
      destruct (is_relative_lookup_spec field_map sobjects sobjectname own Hown
                  (fun a b => Nat.ltb b a) f d Hd) as (b & Hb & Hiff).
      rewrite Hb. f_equal. apply Hiff. exists t, a.
      repeat split; try assumption. now apply Nat.ltb_lt.
Qed.

End Classification.

Lemma index_inj (l : list string) (t s : string) (a : nat) :
  index l t = Ok a -> index l s = Ok a -> t = s.
Proof.
  revert a; induction l as [|y l IH]; simpl; intros a; [discriminate |].
  destruct (String.eqb_spec y t) as [Eyt | Hyt],
           (String.eqb_spec y s) as [Eys | Hys]; try congruence.
  - destruct (index l s); congruence.
  - destruct (index l t); congruence.
  - destruct (index l t) as [a' |] eqn:Et, (index l s) as [b |] eqn:Es;
      try discriminate.
    intros [= <-] [= E]. subst b. now apply (IH a').
Qed.

(** C5. For a step of the operation whose field scope is described by the
    schema, [scan_fields] returns; a reference field in scope with a target
    in the operation, all of whose targets in the operation sit strictly
    earlier (later, at the same position) than the step's own sObject, is a
    descendent (dependent, self) lookup and nothing else; and a field found
    in two of the three sets has two targets in the operation on different
    sides of the step's position. *)
Theorem C5_classification_partition
    (field_map : field_map_t) (sobjects : list string) (sobjectname : string)
    (field_scope : list string) :
  sobjectname ∈ sobjects ->
  (forall f, f ∈ field_scope -> is_Some (field_map !! f)) ->
  exists lk own,
    Step.scan_fields field_map sobjects sobjectname field_scope = Ok lk
    /\ index sobjects sobjectname = Ok own
    /\ forall f d,
        f ∈ field_scope -> field_map !! f = Some d -> ftype d = "reference" ->
        Step.in_operation_target sobjects d ->
        ((forall t a, t ∈ referenceTo d -> index sobjects t = Ok a -> a < own) ->
         f ∈ descendent_lookups lk /\ (f ∉ dependent_lookups lk)
         /\ (f ∉ self_lookups lk))
        /\ ((forall t a, t ∈ referenceTo d -> index sobjects t = Ok a -> own < a) ->
            f ∈ dependent_lookups lk /\ (f ∉ descendent_lookups lk)
            /\ (f ∉ self_lookups lk))
        /\ ((forall t a, t ∈ referenceTo d -> index sobjects t = Ok a -> a = own) ->
            f ∈ self_lookups lk /\ (f ∉ descendent_lookups lk)
            /\ (f ∉ dependent_lookups lk))
        /\ ((f ∈ self_lookups lk /\ f ∈ descendent_lookups lk)
            \/ (f ∈ self_lookups lk /\ f ∈ dependent_lookups lk)
            \/ (f ∈ descendent_lookups lk /\ f ∈ dependent_lookups lk) ->
            exists t1 t2 a1 a2,
              t1 ∈ referenceTo d /\ t2 ∈ referenceTo d /\ t1 <> t2
              /\ index sobjects t1 = Ok a1 /\ index sobjects t2 = Ok a2
              /\ Nat.compare a1 own <> Nat.compare a2 own).
Proof.
  intros Hstep Hscope.
  destruct (scan_fields_spec field_map sobjects sobjectname field_scope Hstep Hscope)
    as (lk & own & Hscan & Hown & Eall & Eself & Edesc & Edep).
  exists lk, own. split; [assumption |]. split; [assumption |].
  intros f d Hf Hd Hty Hop.
  assert (Hall : f ∈ all_lookups lk) by (apply Eall; eauto).
  assert (Hsame : forall t a, index sobjects t = Ok a -> a = own -> t = sobjectname).
  { intros t a Ha ->. exact (index_inj sobjects t sobjectname own Ha Hown). }
  assert (Hself : f ∈ self_lookups lk -> Step.target_at sobjects d (fun a => a = own)).
  { intros (_ & d' & Hd' & Hin)%Eself. assert (d' = d) as -> by congruence.
    exists sobjectname, own. auto. }
  assert (Hdesc : f ∈ descendent_lookups lk ->
                  Step.target_at sobjects d (fun a => a < own)).
  { intros (_ & d' & Hd' & Ht)%Edesc. now assert (d' = d) as -> by congruence. }
  assert (Hdep : f ∈ dependent_lookups lk ->
                 Step.target_at sobjects d (fun a => own < a)).
  { intros (_ & d' & Hd' & Ht)%Edep. now assert (d' = d) as -> by congruence. }
  destruct Hop as (t0 & Ht0 & Hin0).
  destruct (index_in _ _ Hin0) as [a0 Ha0].
  repeat split.
  - apply Edesc. split; [assumption |]. exists d. split; [assumption |].
    exists t0, a0. eauto.
  - intros (t & a & Ht & Ha & Hlt)%Hdep. specialize (H t a Ht Ha). lia.
  - intros (t & a & Ht & Ha & Hlt)%Hself. specialize (H t a Ht Ha). lia.
  - apply Edep. split; [assumption |]. exists d. split; [assumption |].
    exists t0, a0. eauto.
  - intros (t & a & Ht & Ha & Hlt)%Hdesc. specialize (H t a Ht Ha). lia.
  - intros (t & a & Ht & Ha & Hlt)%Hself. specialize (H t a Ht Ha). lia.
  - apply Eself. split; [assumption |]. exists d. split; [assumption |].
    rewrite <- (Hsame t0 a0 Ha0 (H t0 a0 Ht0 Ha0)). assumption.
  - intros (t & a & Ht & Ha & Hlt)%Hdesc. specialize (H t a Ht Ha). lia.
  - intros (t & a & Ht & Ha & Hlt)%Hdep. specialize (H t a Ht Ha). lia.
  - assert (Hcmp : forall t1 t2 a1 a2,
               t1 ∈ referenceTo d -> t2 ∈ referenceTo d ->
               index sobjects t1 = Ok a1 -> index sobjects t2 = Ok a2 ->
               Nat.compare a1 own <> Nat.compare a2 own ->
               exists t1 t2 a1 a2,
                 t1 ∈ referenceTo d /\ t2 ∈ referenceTo d /\ t1 <> t2
                 /\ index sobjects t1 = Ok a1 /\ index sobjects t2 = Ok a2
                 /\ Nat.compare a1 own <> Nat.compare a2 own).
    { intros t1 t2 a1 a2 H1 H2 E1 E2 Hne. exists t1, t2, a1, a2.
      repeat split; try assumption. intros ->. congruence. }
    intros [[(t1 & a1 & H1 & E1 & P1)%Hself (t2 & a2 & H2 & E2 & P2)%Hdesc]
           |[[(t1 & a1 & H1 & E1 & P1)%Hself (t2 & a2 & H2 & E2 & P2)%Hdep]
            |[(t1 & a1 & H1 & E1 & P1)%Hdesc (t2 & a2 & H2 & E2 & P2)%Hdep]]];
      apply (Hcmp t1 t2 a1 a2 H1 H2 E1 E2);
      [ apply Nat.compare_eq_iff in P1; apply Nat.compare_lt_iff in P2
      | apply Nat.compare_eq_iff in P1; apply Nat.compare_gt_iff in P2
      | apply Nat.compare_lt_iff in P1; apply Nat.compare_gt_iff in P2 ];
      congruence.
Qed.

Lemma C5_classification_partition_witness :
  exists lk,
    Step.scan_fields
      (<["AccountId" := MkField "reference" ["Account"] "tns:ID"]>
         (<["LastName" := MkField "string" [] "xsd:string"]> ∅))
      ["Account"; "Contact"] "Contact" ["LastName"; "AccountId"] = Ok lk
    /\ "AccountId" ∈ descendent_lookups lk
    /\ ("AccountId" ∉ dependent_lookups lk)
    /\ ("AccountId" ∉ self_lookups lk).
Proof.
  destruct (C5_classification_partition
              (<["AccountId" := MkField "reference" ["Account"] "tns:ID"]>
                 (<["LastName" := MkField "string" [] "xsd:string"]> ∅))
              ["Account"; "Contact"] "Contact" ["LastName"; "AccountId"])
    as (lk & own & Hscan & Hown & Hfields).
  - apply list_elem_of_In. simpl. auto.
  - intros f Hf. apply list_elem_of_In in Hf. simpl in Hf.
    destruct Hf as [<- | [<- | []]]; vm_compute; eauto.
  - exists lk. split; [exact Hscan |].
    injection Hown as <-.
    apply (Hfields "AccountId" (MkField "reference" ["Account"] "tns:ID")).
    + apply list_elem_of_In. simpl. auto.
    + reflexivity.
    + reflexivity.
    + exists "Account". split; apply list_elem_of_In; simpl; auto.
    + intros t a Ht Ha. apply list_elem_of_In in Ht. simpl in Ht.
      destruct Ht as [<- | []]. injection Ha as <-. lia.
Defined.

Lemma C10_eq_other_values_witness :
  Id.__eq__ (MkSalesforceId "001000000000000AAA") (PyStr "0010000000") = Raise ValueError
  /\ Id.__eq__ (MkSalesforceId "001000000000000AAA") PyNone = Ok false.
Proof.
  destruct (C10_eq_other_values (MkSalesforceId "001000000000000AAA")) as [Hs Ho].
  split.
  - apply Hs; simpl; lia.
  - apply Ho; discriminate.
Defined.

(** ** Invariants of context-mutating methods *)

Section Preserves.

Context {S : Type} (R : relation S) `{!PreOrder R}.

Lemma preserves_ret {A} (a : A) : preserves R (ret a).
Proof. intros s r s' [= _ <-]. reflexivity. Qed.

Lemma preserves_raise {A} (e : exn) : preserves R (raise (A := A) e).
Proof. intros s r s' [= _ <-]. reflexivity. Qed.

Lemma preserves_lift {A} (x : result A) : preserves R (lift x).
Proof. intros s r s' [= _ <-]. reflexivity. Qed.

Lemma preserves_gets {A} (f : S -> A) : preserves R (gets f).
Proof. intros s r s' [= _ <-]. reflexivity. Qed.

Lemma preserves_read {A} (f : S -> result A) : preserves R (fun s => (f s, s)).
Proof. intros s r s' [= _ <-]. reflexivity. Qed.

Lemma preserves_modify (f : S -> S) :
  (forall s, R s (f s)) -> preserves R (modify f).
Proof. intros H s r s' [= _ <-]. apply H. Qed.

Lemma preserves_bind {A B} (m : M S A) (k : A -> M S B) :
  preserves R m -> (forall a, preserves R (k a)) -> preserves R (bind m k).
Proof.
  intros Hm Hk s r s'. unfold bind.
  destruct (m s) as [[a | e] s1] eqn:Em.
  - intros Hka. transitivity s1; [eapply Hm; eassumption | eapply Hk; eassumption].
  - intros [= _ <-]. eapply Hm. eassumption.
Qed.

Lemma preserves_bind_post {A B} (Q : A -> Prop) (m : M S A) (k : A -> M S B) :
  preserves R m ->
  (forall s a s', m s = (Ok a, s') -> Q a) ->
  (forall a, Q a -> preserves R (k a)) ->
  preserves R (m ≫= k).
Proof.
  intros Hm HQ Hk s r s'. unfold mbind, M_bind, bind.
  destruct (m s) as [[a | e] s1] eqn:Em.
  - intros Hka. transitivity s1; [eapply Hm; eassumption |].
    eapply Hk; [eapply HQ |]; eassumption.
  - intros [= _ <-]. eapply Hm. eassumption.
Qed.

Lemma preserves_mbind {A B} (m : M S A) (k : A -> M S B) :
  preserves R m -> (forall a, preserves R (k a)) -> preserves R (m ≫= k).
Proof. apply preserves_bind. Qed.

Lemma preserves_for_each {A} (l : list A) (body : A -> M S unit) :
  (forall x, x ∈ l -> preserves R (body x)) -> preserves R (for_each l body).
Proof.
  induction l as [|x l IH]; intros H; simpl.
  - apply preserves_ret.
  - apply preserves_bind; [apply H; left |].
    intros _. apply IH. intros y Hy. apply H. now right.
Qed.


Lemma preserves_if {A} (b : bool) (m1 m2 : M S A) :
  preserves R m1 -> preserves R m2 -> preserves R (if b then m1 else m2).
Proof. now destruct b. Qed.

End Preserves.

Create HintDb preserves.
#[export] Hint Resolve preserves_ret preserves_raise preserves_lift preserves_gets
  preserves_read : preserves.

(** Peel a method down to its context updates. *)
Ltac preorder := try solve [apply _].

Ltac preserves_step :=
  lazymatch goal with
  | |- preserves _ (_ ≫= _) => apply preserves_mbind; preorder; [| intros ?]
  | |- preserves _ (bind _ _) => apply preserves_bind; preorder; [| intros ?]
  | |- preserves _ (ret _) => apply preserves_ret; preorder
  | |- preserves _ (raise _) => apply preserves_raise; preorder
  | |- preserves _ (lift _) => apply preserves_lift; preorder
  | |- preserves _ (gets _) => apply preserves_gets; preorder
  | |- preserves _ (match ?x with _ => _ end) =>
      first [apply preserves_if | destruct x]
  | |- preserves _ (fun s => (_, s)) => apply preserves_read; preorder
  end.

(** ** The identifier translation table *)

Section TranslationTable.

Import Load.

Local Instance keeps_preorder : PreOrder keeps.
Proof.
  split.
  - intros c old H. exact H.
  - intros c1 c2 c3 H12 H23 old H. apply H23, H12, H.
Qed.









Lemma register_result_cases records i res c r c1 :
  register_result records (i, res) c = (r, c1) ->
  (r = Ok tt /\ success res = true
   /\ exists v old new,
       record_id_at records i = Ok v /\ Id.of_value v = Ok old
       /\ Id.of_value (new_id res) = Ok new
       /\ c1 = MkContext (<[old := new]> (global_id_map c)) (requests c))
  \/ ((exists e, r = Raise e) /\ c1 = c).
Proof.
  unfold register_result, mbind, M_bind, bind, lift, raise, register_new_id, modify.
  destruct (success res).
  - destruct (record_id_at records i) as [v |] eqn:Ev; [| intros [= <- <-]; eauto].
    destruct (Id.of_value v) as [old |] eqn:Eo; [| intros [= <- <-]; eauto].
    destruct (Id.of_value (new_id res)) as [new |] eqn:En;
      [| intros [= <- <-]; eauto].
    intros [= <- <-]. left. split; [reflexivity |]. split; [reflexivity |].
    exists v, old, new. auto.
  - destruct (record_id_at records i) as [v |]; intros [= <- <-]; eauto.
Qed.

Lemma for_each_cons {S A} (x : A) (l : list A) (body : A -> M S unit) (s : S) :
  for_each (x :: l) body s
  = match body x s with
    | (Ok _, s') => for_each l body s'
    | (Raise e, s') => (Raise e, s')
    end.
Proof. reflexivity. Qed.

(** The loop over [enumerate(results)], started at position [k]. *)
Lemma register_loop (records : list record) (rs : list UploadResult) :
  forall (k : nat) (c c' : Context) (r : result unit),
    for_each (combine (seq k (length rs)) rs) (register_result records) c
    = (r, c') ->
    (forall old,
        (forall j res v,
            rs !! j = Some res -> success res = true ->
            record_id_at records (k + j) = Ok v ->
            Id.of_value v <> Ok old) ->
        get_new_id c' old = get_new_id c old)
    /\ (r = Ok tt ->
        forall j res,
          rs !! j = Some res ->
          exists v old new,
            success res = true
            /\ record_id_at records (k + j) = Ok v
            /\ Id.of_value v = Ok old
            /\ Id.of_value (new_id res) = Ok new
            /\ ((forall j' res' v',
                    j < j' -> rs !! j' = Some res' ->
                    record_id_at records (k + j') = Ok v' ->
                    Id.of_value v' <> Ok old) ->
                get_new_id c' old = Some new)).
Proof.
  induction rs as [|res0 rs IH]; intros k c c' r.
  - intros [= <- <-]. split; [reflexivity |]. intros _ j res Hj. inversion Hj.
  - cbn [length seq combine]. rewrite for_each_cons.
    destruct (register_result records (k, res0) c) as [[[] | e] c1] eqn:E0.
    + intros Hrest. destruct (IH (S k) c1 c' r Hrest) as [Hb Hc].
      apply register_result_cases in E0
          as [(_ & Hs0 & v0 & old0 & new0 & Ev0 & Eo0 & En0 & ->)
             | [[e He] _]]; [| discriminate].
      split.
      * intros old Hno. rewrite Hb.
        -- unfold get_new_id. cbn [global_id_map]. apply lookup_insert_ne.
           intros ->. apply (Hno 0 res0 v0); auto.
           now rewrite Nat.add_0_r.
        -- intros j res v Hj Hs Hv. apply (Hno (S j) res v); auto.
           now rewrite Nat.add_succ_r.
      * intros -> j res Hj. destruct j as [|j].
        -- injection Hj as <-. exists v0, old0, new0.
           rewrite Nat.add_0_r. repeat split; try assumption.
           intros Hlater. rewrite Hb.
           ++ unfold get_new_id. cbn [global_id_map]. apply lookup_insert_eq.
           ++ intros j res v Hj Hs Hv. apply (Hlater (S j) res v); auto; [lia |].
              now rewrite Nat.add_succ_r.
        -- destruct (Hc eq_refl j res Hj)
             as (v & old & new & Hs & Hv & Ho & Hn & Hlast).
           exists v, old, new. rewrite Nat.add_succ_r.
           repeat split; try assumption.
           intros Hlater. apply Hlast. intros j' res' v' Hlt Hj' Hv'.
           apply (Hlater (S j') res' v'); auto; [lia |].
           now rewrite Nat.add_succ_r.
    + intros [= <- <-].
      apply register_result_cases in E0 as [(He & _) | [_ ->]]; [discriminate |].
      split; [reflexivity | discriminate].
Qed.

End TranslationTable.




(** ** The two phases of a load *)

(** [execute_dependent_updates] raises before it submits anything, whatever
    the step and the context. *)
Lemma execute_dependent_updates_raises op step lk c :
  exists e, Load.execute_dependent_updates op step lk c = (Raise e, c).
Proof.
  unfold Load.execute_dependent_updates, mbind, M_bind, bind, lift, Load.set_plus.
  destruct (Load.get_input_file op (Load.sobjectname step)); eauto.
Qed.

(** C1 at the load of two accounts that are each other's parent, both
    inserted. The insert phase registers both identifiers; the dependent
    update then raises [TypeError] at the [+] of two sets, and the store
    receives no update. Were [all_lookups] the union of the two sets, the
    update submitted would hold the translated [ParentId] of each record and
    no [Id] at all. *)
Theorem C1_dependent_update_at_two_accounts :
  let op := Example.accounts [Example.x; Example.y]
              [Example.inserted "001000000000002AAA";
               Example.inserted "001000000000003AAA"] in
  exists c c',
    Load.execute op Load.initial = (Raise TypeError, c)
    /\ Load.requests c = [Load.Insert "Account" [Example.x; Example.y]]
    /\ Load.get_new_id c (MkSalesforceId "001000000000000AAA")
       = Some (MkSalesforceId "001000000000002AAA")
    /\ Load.get_new_id c (MkSalesforceId "001000000000001AAA")
       = Some (MkSalesforceId "001000000000003AAA")
    /\ Load.scan_fields op Example.account_step = Ok Example.account_lookups
    /\ Load.dependent_updates_with op Example.account_step [Example.x; Example.y]
         (dependent_lookups Example.account_lookups
            ∪ self_lookups Example.account_lookups) c = (Ok tt, c')
    /\ Load.requests c'
       = [Load.Insert "Account" [Example.x; Example.y];
          Load.Update "Account"
            [[("ParentId", Some "001000000000003AAA")];
             [("ParentId", Some "001000000000002AAA")]]].
Proof.
  do 2 eexists.
  split; [vm_compute; reflexivity |].
  split; [vm_compute; reflexivity |].
  split; [vm_compute; reflexivity |].
  split; [vm_compute; reflexivity |].
  split; [vm_compute; reflexivity |].
  split; [vm_compute; reflexivity |].
  vm_compute; reflexivity.
Qed.

(** A rejected record makes the loop over the insert results raise. *)
Lemma rejected_result_raises records i res v c :
  success res = false ->
  Load.record_id_at records i = Ok v ->
  Load.register_result records (i, res) c = (Raise Exception, c).
Proof.
  intros Hs Hv. unfold Load.register_result, mbind, M_bind, bind, lift, raise.
  now rewrite Hs, Hv.
Qed.

(** C3 at a load of accounts, then contacts, in which the store rejects the
    first account and accepts the second: [execute] raises, the accepted
    account is not registered, and the contacts are never submitted. *)
Theorem C3_rejected_insert_at_two_steps :
  let op := Example.accounts_and_contacts
              [Example.rejected; Example.inserted "001000000000003AAA"] in
  exists c,
    Load.execute op Load.initial = (Raise Exception, c)
    /\ Load.requests c = [Load.Insert "Account" [Example.x; Example.y]]
    /\ Load.get_new_id c (MkSalesforceId "001000000000000AAA") = None
    /\ Load.get_new_id c (MkSalesforceId "001000000000001AAA") = None.
Proof.
  eexists.
  split; [vm_compute; reflexivity |].
  split; [vm_compute; reflexivity |].
  split; vm_compute; reflexivity.
Qed.

(** ** Outside lookups *)

Section OutsideLookups.

Import OutsideLookupBehavior.


Lemma dict_get_del_other (f g : string) (r : record) :
  g <> f -> dict_get g (dict_del f r) = dict_get g r.
Proof.
  intros Hne. unfold dict_del. induction r as [|[k v] r IH]; simpl; [reflexivity |].
  destruct (String.eqb_spec k f) as [-> | Hkf]; simpl.
  - destruct (String.eqb_spec f g); [congruence | exact IH].
  - now rewrite IH.
Qed.




End OutsideLookups.




(** ** Extraction: the registries *)

Section Registries.

Import Extract.

Lemma get_extracted_ids_insert (c : Context) (name other : string)
    (ids : gset SalesforceId) req out :
  get_extracted_ids (MkContext req (<[name := ids]> (extracted_ids c)) out) other
  = if decide (name = other) then ids else get_extracted_ids c other.
Proof.
  unfold get_extracted_ids. cbn [extracted_ids].
  rewrite lookup_insert. now destruct (decide (name = other)).
Qed.

(** [ExtractOperation.store_result], case by case. *)
Lemma store_result_spec op name r c res c' :
  store_result op name r c = (res, c') ->
  (forall other, other <> name ->
                 get_extracted_ids c' other = get_extracted_ids c other
                 /\ output_files c' !! other = output_files c !! other
                 /\ get_dependencies c' other = get_dependencies c other)
  /\ match record_id r with
     | Raise e =>
         res = Raise e
         /\ get_extracted_ids c' name = get_extracted_ids c name
         /\ output_files c' = output_files c
         /\ required_ids c' = required_ids c
     | Ok id =>
         if decide (id ∈ get_extracted_ids c name) then
           res = Ok tt
           /\ extracted_ids c' = extracted_ids c
           /\ output_files c' = output_files c
           /\ get_dependencies c' name = get_dependencies c name ∖ {[id]}
         else
           get_extracted_ids c' name = {[id]} ∪ get_extracted_ids c name
           /\ match output_files c !! name with
              | None =>
                  res = Raise KeyError
                  /\ output_files c' = output_files c
                  /\ required_ids c' = required_ids c
              | Some rows =>
                  res = Ok tt
                  /\ output_files c' = <[name := rows ++ [row_of op name r]]>
                                         (output_files c)
                  /\ get_dependencies c' name = get_dependencies c name ∖ {[id]}
              end
     end.
Proof.
  unfold store_result, record_id, mbind, M_bind, bind, modify, lift, gets, ret.
  set (c0 := match extracted_ids c !! name with
             | Some _ => c
             | None => MkContext (required_ids c) (<[name := ∅]> (extracted_ids c))
                         (output_files c)
             end).
  assert (Hext : forall other, get_extracted_ids c0 other = get_extracted_ids c other).
  { intros other. subst c0. destruct (extracted_ids c !! name) eqn:E; [reflexivity |].
    rewrite get_extracted_ids_insert. destruct (decide (name = other)) as [<- |];
      [| reflexivity].
    unfold get_extracted_ids. now rewrite E. }
  assert (Hreq : required_ids c0 = required_ids c)
    by (subst c0; now destruct (extracted_ids c !! name)).
  assert (Hout : output_files c0 = output_files c)
    by (subst c0; now destruct (extracted_ids c !! name)).
  assert (Hsame : is_Some (extracted_ids c !! name) -> c0 = c).
  { intros [ids E]. subst c0. now rewrite E. }
  assert (Hdep0 : forall other, get_dependencies c0 other = get_dependencies c other)
    by (intros other; unfold get_dependencies; now rewrite Hreq).
  clearbody c0.
  destruct (dict_get "Id" r) as [v |].
  2:{ intros [= <- <-]. split; [intros other _; rewrite Hext, Hout, Hdep0; auto |].
      rewrite Hext, Hout, Hreq; auto. }
  destruct (Id.of_value v) as [id |].
  2:{ intros [= <- <-]. split; [intros other _; rewrite Hext, Hout, Hdep0; auto |].
      rewrite Hext, Hout, Hreq; auto. }
  rewrite <- (Hext name).
  assert (Hdeps : forall c1 res1 c2,
             required_ids c1 = required_ids c ->
             (res1, match required_ids c1 !! name with
                    | Some required =>
                        if decide (id ∈ required)
                        then MkContext (<[name := required ∖ {[id]}]> (required_ids c1))
                               (extracted_ids c1) (output_files c1)
                        else c1
                    | None => c1
                    end) = (res, c2) ->
             res = res1 /\ extracted_ids c2 = extracted_ids c1
             /\ output_files c2 = output_files c1
             /\ get_dependencies c2 name = get_dependencies c name ∖ {[id]}
             /\ forall other, other <> name ->
                              get_dependencies c2 other = get_dependencies c other).
  { intros c1 res1 c2 Hr. unfold get_dependencies. rewrite <- Hr.
    destruct (required_ids c1 !! name) as [required |] eqn:E.
    - destruct (decide (id ∈ required)).
      + intros [= <- <-]. cbn. rewrite lookup_insert_eq.
        repeat split. intros other Hne. now rewrite lookup_insert_ne.
      + intros [= <- <-]. rewrite E. cbn. repeat split. set_solver.
    - intros [= <- <-]. rewrite E. cbn. repeat split. set_solver. }
  destruct (decide (id ∈ get_extracted_ids c0 name)) as [Hin | Hnin].
  - intros H. apply Hdeps in H as (-> & He & Ho & Hd & Hothers); [| assumption].
    assert (c0 = c) as ->.
    { apply Hsame. rewrite Hext in Hin. unfold get_extracted_ids in Hin.
      destruct (extracted_ids c !! name); [eauto | set_solver]. }
    split; [| auto].
    intros other Hne. unfold get_extracted_ids. rewrite He, Ho. auto.
  - cbn [output_files required_ids extracted_ids].
    destruct (output_files c0 !! name) as [rows |] eqn:Erows;
      cbn [of_option output_files required_ids extracted_ids].
    + intros H.
      destruct (Hdeps (MkContext (required_ids c0)
                         (<[name := {[id]} ∪ get_extracted_ids c0 name]>
                            (extracted_ids c0))
                         (<[name := rows ++ [row_of op name r]]> (output_files c0)))
                  (Ok tt) c' Hreq H) as (-> & He & Ho & Hd & Hothers).
      cbn in He, Ho. rewrite <- Hout, Erows.
      split.
      * intros other Hne. rewrite <- (Hext other). unfold get_extracted_ids.
        rewrite He, Ho, !lookup_insert_ne by congruence. auto.
      * split; [| auto].
        unfold get_extracted_ids at 1. rewrite He, lookup_insert_eq. reflexivity.
    + intros [= <- <-]. cbn. rewrite <- Hout, Erows.
      split.
      * intros other Hne. rewrite <- (Hext other), get_extracted_ids_insert.
        destruct (decide (name = other)); [congruence |].
        unfold get_dependencies. cbn. now rewrite Hreq.
      * rewrite get_extracted_ids_insert, decide_True by reflexivity. auto.
Qed.

End Registries.

(** ** Extraction: from the registries to the methods *)

(** Every method of an extraction step reaches the registries through
    [add_dependency] and [ExtractOperation.store_result] only: a preorder
    on contexts that these two respect, the second for the records the store
    answers with and what [del] leaves of them, is respected by every
    method, whether it returns or raises. *)
Section StepMethods.

Import Extract.

Variable op : ExtractOperation.
Variable step : ExtractionStep.
Context (R : relation Context) `{!PreOrder R}.
Variable P : record -> Prop.

Hypothesis add_ok : forall name id, preserves R (add_dependency name id).
Hypothesis store_ok :
  forall r, P r -> preserves R (store_result op (sobjectname step) r).
Hypothesis del_ok : forall f r, P r -> P (dict_del f r).
Hypothesis query_ok : forall q r, r ∈ query_all (connection op) q -> P r.
Hypothesis bulk_ok : forall name q r, r ∈ bulk_query (connection op) name q -> P r.

Lemma check_descendent_lookup_spec field_map r f c res c' :
  check_descendent_lookup op step field_map r f c = (res, c') ->
  c' = c /\ forall r', res = Ok r' -> r' = r \/ r' = dict_del f r.
Proof.
  unfold check_descendent_lookup, mbind, M_bind, bind, lift, gets, ret, raise.
  destruct (dict_get f r) as [v |]; [| intros [= <- <-]; split; [auto | discriminate]].
  destruct (field_descr field_map f) as [d |];
    [| intros [= <- <-]; split; [auto | discriminate]].
  destruct (descendent_target op d v) as [target |];
    [| intros [= <- <-]; split; [auto | discriminate]].
  destruct (negb _).
  - repeat match goal with
           | |- context [if ?b then _ else _] => destruct b
           end;
      try (intros [= <- <-]; split; [reflexivity | intros r' [= <-]; auto]);
      try (intros [= <- <-]; split; [reflexivity | discriminate]).
    destruct (dict_get "Id" r); intros [= <- <-]; split; auto; discriminate.
  - intros [= <- <-]. split; [reflexivity | intros r' [= <-]; auto].
Qed.

Lemma check_descendent_lookups_spec field_map fs :
  forall r c res c',
    check_descendent_lookups op step field_map r fs c = (res, c') ->
    c' = c /\ forall r', res = Ok r' -> P r -> P r'.
Proof.
  induction fs as [|f fs IH]; intros r c res c'; simpl.
  - intros [= <- <-]. split; [reflexivity | now intros r' [= <-]].
  - unfold mbind, M_bind, bind.
    destruct (check_descendent_lookup op step field_map r f c) as [[r1 | e] c1] eqn:E.
    + apply check_descendent_lookup_spec in E as [-> Hr1].
      intros H. destruct (IH r1 c res c' H) as [-> Hr']. split; [reflexivity |].
      intros r' E' Hr. apply (Hr' r' E').
      destruct (Hr1 r1 eq_refl) as [-> | ->]; [assumption | now apply del_ok].
    + apply check_descendent_lookup_spec in E as [-> _].
      intros [= <- <-]. split; [reflexivity | discriminate].
Qed.

Lemma step_store_result_respects lk r :
  P r -> preserves R (step_store_result op step lk r).
Proof.
  intros Hr. unfold step_store_result.
  preserves_step; [preserves_step |].
  preserves_step.
  { apply preserves_for_each; preorder. intros l _. unfold trace_self_lookup.
    repeat preserves_step. apply add_ok. }
  preserves_step.
  { apply preserves_for_each; preorder. intros f _. unfold register_dependent_lookup.
    repeat preserves_step; apply add_ok. }
  apply (preserves_bind_post _ (P)); preorder.
  - intros c res c' H. apply check_descendent_lookups_spec in H as [-> _].
    reflexivity.
  - intros c r' c' H. apply check_descendent_lookups_spec in H as [_ H].
    now apply H.
  - intros r' Hr'. now apply store_ok.
Qed.

Lemma perform_id_field_pass_respects lk id_field id_set :
  preserves R (perform_id_field_pass op step lk id_field id_set).
Proof.
  unfold perform_id_field_pass, perform_id_field_pass_in.
  apply preserves_for_each; preorder. intros chunk _.
  apply preserves_for_each; preorder. intros r Hr.
  apply step_store_result_respects. exact (query_ok _ _ Hr).
Qed.

Lemma perform_lookup_pass_respects lk field :
  preserves R (perform_lookup_pass op step lk field).
Proof.
  unfold perform_lookup_pass. repeat preserves_step.
  apply perform_id_field_pass_respects.
Qed.

Lemma resolve_registered_dependencies_respects lk :
  preserves R (resolve_registered_dependencies op step lk).
Proof.
  unfold resolve_registered_dependencies. repeat preserves_step.
  apply perform_id_field_pass_respects.
Qed.

Lemma perform_bulk_api_pass_respects lk query :
  preserves R (perform_bulk_api_pass op step lk query).
Proof.
  unfold perform_bulk_api_pass. apply preserves_for_each; preorder. intros r Hr.
  apply step_store_result_respects. exact (bulk_ok _ _ _ Hr).
Qed.

Lemma trace_round_respects lk :
  preserves R (trace_round op step lk).
Proof.
  unfold trace_round. preserves_step.
  - apply preserves_for_each; preorder. intros l _.
    apply perform_lookup_pass_respects.
  - apply resolve_registered_dependencies_respects.
Qed.

Lemma execute_scope_respects :
  preserves R (execute_scope op step).
Proof.
  unfold execute_scope. repeat preserves_step;
    try apply perform_bulk_api_pass_respects;
    try apply resolve_registered_dependencies_respects.
  apply preserves_for_each; preorder. intros f _.
  apply perform_lookup_pass_respects.
Qed.

Lemma trace_self_lookups_respects lk fuel :
  forall c r c',
    trace_self_lookups fuel op step lk c = Some (r, c') -> R c c'.
Proof.
  induction fuel as [|fuel IH]; intros c r c'; simpl; [discriminate |].
  destruct (trace_round op step lk c) as [[[] | e] c1] eqn:E.
  - pose proof (trace_round_respects lk c _ _ E) as H1.
    destruct (Nat.eqb _ _).
    + now intros [= _ <-].
    + intros H. transitivity c1; [assumption | eapply IH; eassumption].
  - intros [= _ <-]. exact (trace_round_respects lk c _ _ E).
Qed.

Lemma execute_step_respects fuel c r c' :
  execute_step fuel op step c = Some (r, c') -> R c c'.
Proof.
  unfold execute_step.
  destruct (execute_scope op step c) as [[[[] | lk] | e] c1] eqn:E;
    pose proof (execute_scope_respects c _ _ E) as H1.
  - now intros [= _ <-].
  - destruct (traces step lk).
    + intros H. transitivity c1; [assumption |].
      eapply trace_self_lookups_respects; eassumption.
    + now intros [= _ <-].
  - now intros [= _ <-].
Qed.


End StepMethods.

Section Methods.

Import Extract.

Variable op : ExtractOperation.
Context (R : relation Context) `{!PreOrder R}.
Variable P : record -> Prop.

Hypothesis add_ok : forall name id, preserves R (add_dependency name id).
Hypothesis store_ok : forall name r, P r -> preserves R (store_result op name r).
Hypothesis del_ok : forall f r, P r -> P (dict_del f r).
Hypothesis query_ok : forall q r, r ∈ query_all (connection op) q -> P r.
Hypothesis bulk_ok : forall name q r, r ∈ bulk_query (connection op) name q -> P r.

Lemma step_store_result_preserves step lk r :
  P r -> preserves R (step_store_result op step lk r).
Proof. apply (step_store_result_respects op step R P); auto. Qed.

Lemma trace_round_preserves step lk :
  preserves R (trace_round op step lk).
Proof. apply (trace_round_respects op step R P); auto. Qed.

Lemma trace_self_lookups_preserves step lk fuel c r c' :
  trace_self_lookups fuel op step lk c = Some (r, c') -> R c c'.
Proof. apply (trace_self_lookups_respects op step R P); auto. Qed.

Lemma execute_step_preserves step fuel c r c' :
  execute_step fuel op step c = Some (r, c') -> R c c'.
Proof. apply (execute_step_respects op step R P); auto. Qed.

Lemma execute_steps_preserves fuel :
  forall todo c r c',
    execute_steps fuel op todo c = Some (r, c') -> R c c'.
Proof.
  intros todo. induction todo as [|s todo IH]; intros c r c'; simpl.
  - intros [= _ <-]. reflexivity.
  - destruct (execute_step fuel op s c) as [[[[] | e] c1] |] eqn:E; [| | discriminate].
    + intros H. transitivity c1; [| eapply IH; eassumption].
      eapply execute_step_preserves; eassumption.
    + intros [= _ <-]. eapply execute_step_preserves; eassumption.
Qed.

End Methods.

Section Advances.

Import Extract.

Variable op : ExtractOperation.
Variable U : SalesforceId -> Prop.
Hypothesis store_bounded : store_within op U.

Global Instance advances_preorder V : PreOrder (advances V).
Proof.
  split.
  - intros c. split; [| split].
    + intros name. reflexivity.
    + intros name rows H. exists []. rewrite app_nil_r. simpl. split; [assumption | lia].
    + intros name id H. now left.
  - intros c1 c2 c3 (G12 & W12 & A12) (G23 & W23 & A23). split; [| split].
    + intros name. etransitivity; [apply G12 | apply G23].
    + intros name rows H.
      destruct (W12 name rows H) as (n1 & H2 & S2).
      destruct (W23 name _ H2) as (n2 & H3 & S3).
      exists (n1 ++ n2). rewrite app_assoc, length_app. split; [assumption | lia].
    + intros name id H. destruct (A23 name id H) as [H2 | HU]; [| now right].
      apply (A12 name id H2).
Qed.

Lemma advances_same c c' :
  extracted_ids c' = extracted_ids c -> output_files c' = output_files c ->
  advances U c c'.
Proof.
  intros He Ho. unfold advances, grows, writes_once, adds_within, get_extracted_ids.
  rewrite He, Ho. split; [| split].
  - reflexivity.
  - intros name rows H. exists []. rewrite app_nil_r. simpl. split; [assumption | lia].
  - intros name id H. now left.
Qed.

Lemma add_dependency_advances name id : preserves (advances U) (add_dependency name id).
Proof.
  intros c r c'. unfold add_dependency, modify. intros [= _ <-].
  now apply advances_same.
Qed.

Lemma store_result_advances name r :
  ids_within U r -> preserves (advances U) (store_result op name r).
Proof.
  intros Hr c res c' H.
  destruct (store_result_spec op name r c res c' H) as [Hothers Hname].
  assert (Hcases :
            (get_extracted_ids c' name = get_extracted_ids c name
             /\ output_files c' !! name = output_files c !! name)
            \/ (exists id,
                   U id /\ (id ∉ get_extracted_ids c name)
                   /\ get_extracted_ids c' name = {[id]} ∪ get_extracted_ids c name
                   /\ (output_files c !! name = None
                       \/ exists rows row,
                           output_files c !! name = Some rows
                           /\ output_files c' !! name = Some (rows ++ [row])))).
  { destruct (record_id r) as [id |] eqn:Eid.
    - destruct (decide (id ∈ get_extracted_ids c name)) as [Hin | Hnin].
      + destruct Hname as (_ & He & Ho & _). left.
        unfold get_extracted_ids. now rewrite He, Ho.
      + destruct Hname as (He & Hout). right. exists id.
        split; [now apply Hr |]. split; [assumption |]. split; [assumption |].
        destruct (output_files c !! name) as [rows |]; [right | now left].
        destruct Hout as (_ & -> & _). exists rows. eexists.
        split; [reflexivity | apply lookup_insert_eq].
    - destruct Hname as (_ & He & -> & _). now left. }
  split; [| split].
  - intros other. destruct (decide (other = name)) as [-> | Hne].
    + destruct Hcases as [[-> _] | (id & _ & _ & -> & _)]; set_solver.
    + destruct (Hothers other Hne) as (-> & _). reflexivity.
  - intros other rows Hrows. destruct (decide (other = name)) as [-> | Hne].
    + destruct Hcases as [[-> Ho] | (id & _ & Hnin & -> & [Hnone | Hsome])].
      * exists []. rewrite app_nil_r, Ho. simpl. split; [assumption | lia].
      * congruence.
      * destruct Hsome as (rows' & row & Hr' & Hw). exists [row].
        assert (rows' = rows) as -> by congruence. split; [assumption |].
        rewrite size_union by set_solver. rewrite size_singleton. simpl. lia.
    + destruct (Hothers other Hne) as (-> & -> & _).
      exists []. rewrite app_nil_r. simpl. split; [assumption | lia].
  - intros other id Hid. destruct (decide (other = name)) as [-> | Hne].
    + destruct Hcases as [[E _] | (id' & HU & _ & E & _)]; rewrite E in Hid.
      * now left.
      * apply elem_of_union in Hid as [->%elem_of_singleton | Hid]; auto.
    + destruct (Hothers other Hne) as (E & _). rewrite E in Hid. now left.
Qed.

Lemma dict_get_del_same (f : string) (r : record) :
  dict_get f (dict_del f r) = Raise KeyError.
Proof.
  unfold dict_del. induction r as [|[k v] r IH]; simpl; [reflexivity |].
  destruct (String.eqb k f) eqn:E; simpl; [exact IH |]. now rewrite E.
Qed.

Lemma ids_within_del f r : ids_within U r -> ids_within U (dict_del f r).
Proof.
  intros H id. unfold record_id.
  destruct (String.eqb_spec "Id" f) as [<- | Hne].
  - now rewrite dict_get_del_same.
  - rewrite dict_get_del_other by assumption. apply H.
Qed.

Lemma step_store_result_advances step lk r :
  ids_within U r -> preserves (advances U) (step_store_result op step lk r).
Proof.
  apply (step_store_result_preserves op (advances U) (ids_within U));
    auto using add_dependency_advances, store_result_advances, ids_within_del.
Qed.

Lemma trace_round_advances step lk :
  preserves (advances U) (trace_round op step lk).
Proof.
  apply (trace_round_preserves op (advances U) (ids_within U));
    auto using add_dependency_advances, store_result_advances, ids_within_del;
    apply store_bounded.
Qed.

Lemma trace_self_lookups_advances step lk fuel c r c' :
  trace_self_lookups fuel op step lk c = Some (r, c') -> advances U c c'.
Proof.
  apply (trace_self_lookups_preserves op (advances U) (ids_within U));
    auto using add_dependency_advances, store_result_advances, ids_within_del;
    apply store_bounded.
Qed.

Lemma execute_step_advances step fuel c r c' :
  execute_step fuel op step c = Some (r, c') -> advances U c c'.
Proof.
  apply (execute_step_preserves op (advances U) (ids_within U));
    auto using add_dependency_advances, store_result_advances, ids_within_del;
    apply store_bounded.
Qed.

Lemma execute_steps_advances fuel todo c r c' :
  execute_steps fuel op todo c = Some (r, c') -> advances U c c'.
Proof.
  apply (execute_steps_preserves op (advances U) (ids_within U));
    auto using add_dependency_advances, store_result_advances, ids_within_del;
    apply store_bounded.
Qed.

End Advances.

(** ** Extraction: the rows of the output files *)

Section UniqueRows.

Import Extract.

Variable op : ExtractOperation.

Local Instance keeps_unique_rows_preorder : PreOrder (keeps_unique_rows op).
Proof.
  split.
  - intros c H. exact H.
  - intros c1 c2 c3 H12 H23 H. apply H23, H12, H.
Qed.

Lemma rmap_snoc {A B} (f : A -> result B) (l : list A) (x : A) (ys : list B) (y : B) :
  rmap f l = Ok ys -> f x = Ok y -> rmap f (l ++ [x]) = Ok (ys ++ [y]).
Proof.
  revert ys. induction l as [|a l IH]; simpl; intros ys.
  - intros [= <-] ->. reflexivity.
  - destruct (f a) as [b |]; [| discriminate].
    destruct (rmap f l) as [bs |]; [| discriminate].
    intros [= <-] Hx. now rewrite (IH bs eq_refl Hx).
Qed.

Lemma add_dependency_unique_rows name id :
  preserves (keeps_unique_rows op) (add_dependency name id).
Proof.
  intros c r c'. unfold add_dependency, modify. intros [= _ <-].
  intros H. exact H.
Qed.

Lemma store_result_unique_rows name r :
  preserves (keeps_unique_rows op) (store_result op name r).
Proof.
  intros c res c' H Hc other rows Hrows Hmap.
  destruct (store_result_spec op name r c res c' H) as [Hothers Hname].
  destruct (decide (other = name)) as [-> | Hne].
  2:{ destruct (Hothers other Hne) as (He & Ho & _). rewrite Ho in Hrows.
      rewrite He. now apply Hc. }
  destruct (record_id r) as [id |] eqn:Eid.
  - destruct (decide (id ∈ get_extracted_ids c name)) as [Hin | Hnin].
    + destruct Hname as (_ & He & Ho & _). rewrite Ho in Hrows.
      unfold get_extracted_ids. rewrite He. now apply Hc.
    + destruct Hname as (He & Hout).
      destruct (output_files c !! name) as [rows0 |] eqn:E0.
      * destruct Hout as (_ & Ho & _). rewrite Ho, lookup_insert_eq in Hrows.
        injection Hrows as <-.
        destruct (Hc name rows0 E0 Hmap) as (ids & Hids & Hnodup & Hext).
        exists (ids ++ [id]). split; [| split].
        -- apply rmap_snoc; [assumption |]. unfold row_of. now rewrite Hmap.
        -- apply list.NoDup_app. split; [assumption |]. split; [| apply NoDup_singleton].
           intros x Hx ->%list_elem_of_singleton. apply Hnin, Hext, Hx.
        -- intros x Hx. rewrite He. apply elem_of_app in Hx as [Hx | Hx].
           ++ apply elem_of_union_r, Hext, Hx.
           ++ apply list_elem_of_singleton in Hx as ->. set_solver.
      * destruct Hout as (_ & Ho & _). rewrite Ho in Hrows. congruence.
  - destruct Hname as (_ & He & Ho & _). rewrite Ho in Hrows. rewrite He.
    now apply Hc.
Qed.

Lemma execute_unique_rows fuel c res c' :
  execute fuel op c = Some (res, c') -> unique_rows op c -> unique_rows op c'.
Proof.
  apply (execute_steps_preserves op (keeps_unique_rows op) (fun _ => True));
    auto using add_dependency_unique_rows, store_result_unique_rows.
Qed.

Lemma execute_step_unique_rows step fuel c res c' :
  execute_step fuel op step c = Some (res, c') ->
  unique_rows op c -> unique_rows op c'.
Proof.
  apply (execute_step_preserves op (keeps_unique_rows op) (fun _ => True));
    auto using add_dependency_unique_rows, store_result_unique_rows.
Qed.

(** Before anything is written, the rows are unique. *)
Lemma unique_rows_fresh c :
  (forall name rows, output_files c !! name = Some rows -> rows = []) ->
  unique_rows op c.
Proof.
  intros Hempty name rows Hrows _. rewrite (Hempty name rows Hrows).
  exists []. split; [reflexivity |]. split; [constructor |].
  intros id Hid. inversion Hid.
Qed.

End UniqueRows.

(** ** Extraction: deduplication and the tracing loop *)

Section Tracing.

Import Extract.

Variable op : ExtractOperation.

Lemma store_within_True : store_within op (fun _ => True).
Proof. split; intros; intros id _; exact I. Qed.

(** A round that returns leaves the loop exactly when it extracted nothing
    new for the step's sObject. *)
Lemma trace_round_exit step lk fuel c1 c2 :
  trace_round op step lk c1 = (Ok tt, c2) ->
  (get_extracted_ids c2 (sobjectname step) = get_extracted_ids c1 (sobjectname step) ->
   trace_self_lookups (S fuel) op step lk c1 = Some (Ok tt, c2))
  /\ (get_extracted_ids c2 (sobjectname step) <> get_extracted_ids c1 (sobjectname step) ->
      trace_self_lookups (S fuel) op step lk c1 = trace_self_lookups fuel op step lk c2).
Proof.
  intros E.
  destruct (trace_round_advances op _ store_within_True step lk c1 _ _ E) as (G & _).
  simpl. rewrite E. split.
  - intros ->. now rewrite Nat.eqb_refl.
  - intros Hne. destruct (Nat.eqb_spec (size (get_extracted_ids c1 (sobjectname step)))
                            (size (get_extracted_ids c2 (sobjectname step))))
      as [Hsize | _]; [| reflexivity].
    destruct Hne. symmetry. apply set_subseteq_size_eq; [apply G | lia].
Qed.

(** Rounds that are not needed change nothing. *)
Lemma trace_self_lookups_more_fuel step lk fuel :
  forall c x,
    trace_self_lookups fuel op step lk c = Some x ->
    forall extra, trace_self_lookups (fuel + extra) op step lk c = Some x.
Proof.
  induction fuel as [|fuel IH]; intros c x; [discriminate |].
  cbn [trace_self_lookups Nat.add].
  destruct (trace_round op step lk c) as [[[] | e] c1]; [| auto].
  destruct (Nat.eqb _ _); [auto |]. apply IH.
Qed.

(** The loop leaves within as many rounds as the store has identifiers
    that are not extracted yet, plus one. *)
Lemma trace_self_lookups_terminates (U : gset SalesforceId) step lk :
  store_within op (fun id => id ∈ U) ->
  forall fuel c,
    size (U ∖ get_extracted_ids c (sobjectname step)) < fuel ->
    exists r c', trace_self_lookups fuel op step lk c = Some (r, c').
Proof.
  intros HU fuel. induction fuel as [|fuel IH]; intros c Hlt; [lia |].
  simpl. destruct (trace_round op step lk c) as [[[] | e] c1] eqn:E; [| eauto].
  destruct (Nat.eqb_spec (size (get_extracted_ids c (sobjectname step)))
              (size (get_extracted_ids c1 (sobjectname step)))) as [Hsize | Hsize];
    [eauto |].
  apply IH.
  destruct (trace_round_advances op _ HU step lk c _ _ E) as (G & _ & A).
  specialize (G (sobjectname step)). specialize (A (sobjectname step)).
  set (E0 := get_extracted_ids c (sobjectname step)) in *.
  set (E1 := get_extracted_ids c1 (sobjectname step)) in *.
  assert (Hstrict : U ∖ E1 ⊂ U ∖ E0).
  { split; [set_solver |]. intros Hsub. apply Hsize.
    f_equal. apply set_subseteq_size_eq; [exact G |].
    apply subseteq_size. intros x Hx.
    destruct (decide (x ∈ E0)) as [| Hnot]; [assumption |].
    destruct (A x Hx) as [| HxU]; [assumption |].
    assert (x ∈ U ∖ E1) by (apply Hsub; set_solver). set_solver. }
  apply subset_size in Hstrict. lia.
Qed.

Lemma execute_step_terminates (U : gset SalesforceId) step c :
  store_within op (fun id => id ∈ U) ->
  exists r c', execute_step (S (size U)) op step c = Some (r, c').
Proof.
  intros HU. unfold execute_step.
  destruct (execute_scope op step c) as [[[[] | lk] | e] c1]; eauto.
  destruct (traces step lk); [| eauto].
  apply (trace_self_lookups_terminates U step lk HU).
  assert (size (U ∖ get_extracted_ids c1 (sobjectname step)) <= size U)
    by (apply subseteq_size; set_solver).
  lia.
Qed.

End Tracing.

(** C4. Let [U] hold the identifiers of the records of the store, and let
    the step trace its self lookups ([traces]: a self lookup, [trace-all],
    a scope other than [all]). Then the loop leaves within [size U + 1]
    rounds; whatever the number of rounds, no identifier leaves an extracted
    set, across a round and across the loop; a round that returns ends the
    loop exactly when it added no identifier to the extracted set of the
    step's sObject; and this loop is what the step runs after its scope. *)
Theorem C4_self_lookup_tracing
    (op : Extract.ExtractOperation) (step : Extract.ExtractionStep)
    (lk : lookups) (U : gset SalesforceId) (c : Extract.Context) :
  Extract.store_within op (fun id => id ∈ U) ->
  Extract.traces step lk = true ->
  (exists r c',
      Extract.trace_self_lookups (S (size U)) op step lk c = Some (r, c'))
  /\ (forall fuel r c',
         Extract.trace_self_lookups fuel op step lk c = Some (r, c') ->
         Extract.grows c c')
  /\ (forall c1 r c2,
         Extract.trace_round op step lk c1 = (r, c2) -> Extract.grows c1 c2)
  /\ (forall fuel c1 c2,
         Extract.trace_round op step lk c1 = (Ok tt, c2) ->
         (Extract.get_extracted_ids c2 (Extract.sobjectname step)
          = Extract.get_extracted_ids c1 (Extract.sobjectname step) ->
          Extract.trace_self_lookups (S fuel) op step lk c1 = Some (Ok tt, c2))
         /\ (Extract.get_extracted_ids c2 (Extract.sobjectname step)
             <> Extract.get_extracted_ids c1 (Extract.sobjectname step) ->
             Extract.trace_self_lookups (S fuel) op step lk c1
             = Extract.trace_self_lookups fuel op step lk c2))
  /\ (forall fuel c0,
         Extract.execute_scope op step c0 = (Ok (inr lk), c) ->
         Extract.execute_step fuel op step c0
         = Extract.trace_self_lookups fuel op step lk c).
Proof.
  intros HU Htraces. split; [| split; [| split; [| split]]].
  - apply (trace_self_lookups_terminates op U step lk HU).
    assert (size (U ∖ Extract.get_extracted_ids c (Extract.sobjectname step)) <= size U)
      by (apply subseteq_size; set_solver).
    lia.
  - intros fuel r c' H.
    exact (proj1 (trace_self_lookups_advances op _ (store_within_True op)
                    step lk fuel c r c' H)).
  - intros c1 r c2 H.
    exact (proj1 (trace_round_advances op _ (store_within_True op) step lk c1 r c2 H)).
  - intros fuel c1 c2 H. exact (trace_round_exit op step lk fuel c1 c2 H).
  - intros fuel c0 H. unfold Extract.execute_step. now rewrite H, Htraces.
Qed.

Lemma chain_store_within :
  Extract.store_within Example.chain_extraction
    (fun id => id ∈ ({[Example.id_a; Example.id_b; Example.id_c]} : gset SalesforceId)).
Proof.
  split.
  - intros q r Hr. apply list_elem_of_In in Hr.
    apply filter_In in Hr as [Hr _]. simpl in Hr.
    destruct Hr as [<- | [<- | [<- | []]]]; intros id [= <-]; set_solver.
  - intros name q r Hr. inversion Hr.
Qed.

Lemma C4_self_lookup_tracing_witness :
  exists r c',
    Extract.trace_self_lookups
      (S (size ({[Example.id_a; Example.id_b; Example.id_c]} : gset SalesforceId)))
      Example.chain_extraction Example.selected_accounts Example.account_lookups
      Example.chain_seed = Some (r, c').
Proof.
  apply (C4_self_lookup_tracing Example.chain_extraction Example.selected_accounts
           Example.account_lookups
           {[Example.id_a; Example.id_b; Example.id_c]} Example.chain_seed).
  - exact chain_store_within.
  - vm_compute. reflexivity.
Defined.

(** The chain [a <- b <- c], entered at [c]: three rounds extract all three
    accounts, and two rounds are not enough. *)
Example chain_is_extracted :
  exists c',
    Extract.execute_step 3 Example.chain_extraction Example.selected_accounts
      Example.chain_seed = Some (Ok tt, c')
    /\ Extract.get_extracted_ids c' "Account"
       = {[Example.id_a; Example.id_b; Example.id_c]}
    /\ Extract.output_files c' !! "Account" = Some [Example.c; Example.b; Example.a]
    /\ Extract.execute_step 2 Example.chain_extraction Example.selected_accounts
         Example.chain_seed = None.
Proof.
  eexists. split; [vm_compute; reflexivity |].
  split; [| split]; vm_compute; reflexivity.
Qed.

(** C7. [ExtractOperation.store_result] on a record whose identifier is
    already extracted for the sObject returns, leaves the extracted sets and
    the output files as they are, and removes the identifier from the
    required set; on a record seen for the first time it adds the identifier
    and appends one row. Across any step and across the whole operation,
    whatever passes hand the same record in again, no identifier leaves an
    extracted set and every output file receives exactly as many rows as
    identifiers were added for its sObject; and when the operation starts
    with empty output files, the rows of every output file written without a
    mapper carry pairwise distinct identifiers. *)
Theorem C7_extracted_and_written_once (op : Extract.ExtractOperation) :
  (forall name r id c,
      Extract.record_id r = Ok id ->
      id ∈ Extract.get_extracted_ids c name ->
      exists c',
        Extract.store_result op name r c = (Ok tt, c')
        /\ Extract.extracted_ids c' = Extract.extracted_ids c
        /\ Extract.output_files c' = Extract.output_files c
        /\ Extract.get_dependencies c' name
           = Extract.get_dependencies c name ∖ {[id]})
  /\ (forall name r id c rows,
         Extract.record_id r = Ok id ->
         id ∉ Extract.get_extracted_ids c name ->
         Extract.output_files c !! name = Some rows ->
         exists c' row,
           Extract.store_result op name r c = (Ok tt, c')
           /\ Extract.get_extracted_ids c' name
              = {[id]} ∪ Extract.get_extracted_ids c name
           /\ Extract.output_files c' !! name = Some (rows ++ [row])
           /\ Extract.get_dependencies c' name
              = Extract.get_dependencies c name ∖ {[id]})
  /\ (forall step lk r c res c',
         Extract.step_store_result op step lk r c = (res, c') ->
         Extract.grows c c' /\ Extract.writes_once c c')
  /\ (forall fuel step c res c',
         Extract.execute_step fuel op step c = Some (res, c') ->
         Extract.grows c c' /\ Extract.writes_once c c')
  /\ (forall fuel c res c',
         Extract.execute fuel op c = Some (res, c') ->
         Extract.grows c c' /\ Extract.writes_once c c')
  /\ (forall fuel c res c',
         Extract.execute fuel op c = Some (res, c') ->
         (forall name rows, Extract.output_files c !! name = Some rows -> rows = []) ->
         Extract.unique_rows op c').
Proof.
  split; [| split; [| split; [| split; [| split]]]].
  - intros name r id c Hid Hin.
    destruct (Extract.store_result op name r c) as [res c'] eqn:E.
    destruct (store_result_spec op name r c res c' E) as [_ H].
    rewrite Hid in H. rewrite decide_True in H by assumption.
    destruct H as (-> & He & Ho & Hd). eauto.
  - intros name r id c rows Hid Hnin Hrows.
    destruct (Extract.store_result op name r c) as [res c'] eqn:E.
    destruct (store_result_spec op name r c res c' E) as [_ H].
    rewrite Hid in H. rewrite decide_False in H by assumption.
    rewrite Hrows in H. destruct H as (He & -> & Ho & Hd).
    exists c'. eexists. split; [reflexivity |]. split; [assumption |].
    split; [| assumption]. rewrite Ho. apply lookup_insert_eq.
  - intros step lk r c res c' H.
    destruct (step_store_result_advances op _ (store_within_True op) step lk r
                (fun _ _ => I) c res c' H) as (G & W & _).
    auto.
  - intros fuel step c res c' H.
    destruct (execute_step_advances op _ (store_within_True op) step fuel c res c' H)
      as (G & W & _).
    auto.
  - intros fuel c res c' H.
    destruct (execute_steps_advances op _ (store_within_True op) fuel
                (Extract.steps op) c res c' H) as (G & W & _).
    auto.
  - intros fuel c res c' H Hfresh.
    apply (execute_unique_rows op fuel c res c' H).
    now apply unique_rows_fresh.
Qed.

Lemma C7_extracted_and_written_once_witness :
  exists c',
    Extract.store_result Example.chain_extraction "Account" Example.c
      Example.chain_found_c = (Ok tt, c')
    /\ Extract.extracted_ids c' = Extract.extracted_ids Example.chain_found_c
    /\ Extract.output_files c' = Extract.output_files Example.chain_found_c
    /\ Extract.get_dependencies c' "Account"
       = Extract.get_dependencies Example.chain_found_c "Account" ∖ {[Example.id_c]}.
Proof.
  destruct (C7_extracted_and_written_once Example.chain_extraction) as (Hagain & _).
  apply (Hagain "Account" Example.c Example.id_c Example.chain_found_c).
  - reflexivity.
  - unfold Extract.get_extracted_ids, Example.chain_found_c. simpl.
    rewrite lookup_insert_eq. simpl. set_solver.
Defined.

(** ** Chunks of an identifier-set pass *)

Section Chunks.

Import Extract.

Lemma string_app_assoc (s t u : string) : (s +:+ t) +:+ u = s +:+ (t +:+ u).
Proof.
  induction s as [|a s IH]; [reflexivity |].
  change (String a ((s +:+ t) +:+ u) = String a (s +:+ (t +:+ u))).
  now rewrite IH.
Qed.

(** The text of a chunk: its identifiers, quoted and separated. *)
Lemma concat_snoc (sep : string) (l : list string) (x : string) :
  l <> [] -> String.concat sep (l ++ [x]) = String.concat sep l +:+ sep +:+ x.
Proof.
  induction l as [|y l IH]; [congruence |]. intros _.
  destruct l as [|z l]; [reflexivity |].
  change (String.concat sep ((y :: z :: l) ++ [x]))
    with (y +:+ sep +:+ String.concat sep ((z :: l) ++ [x])).
  rewrite IH by discriminate.
  change (String.concat sep (y :: z :: l))
    with (y +:+ sep +:+ String.concat sep (z :: l)).
  now rewrite !string_app_assoc.
Qed.

Lemma quoted_length (id : SalesforceId) :
  String.length (sfid id) = 18 -> String.length (quoted id) = 20.
Proof.
  intros H. unfold quoted, Id.__str__. rewrite !string_length_app, H. reflexivity.
Qed.

Lemma fill_chunk_spec (ml : Z) (ids : list SalesforceId) :
  forall taken id_list taken' id_list' rest,
    fill_chunk ml taken id_list ids = (taken', id_list', rest) ->
    taken' ++ rest = taken ++ ids
    /\ length rest <= length ids
    /\ (exists more, taken' = taken ++ more)
    /\ (taken <> [] -> id_list = String.concat ", " (map quoted taken) ->
        id_list' = String.concat ", " (map quoted taken'))
    /\ ((forall id, id ∈ ids -> String.length (sfid id) = 18) ->
        id_list' = id_list \/ (Z.of_nat (String.length id_list') < ml)%Z).
Proof.
  induction ids as [|id ids IH]; intros taken id_list taken' id_list' rest; simpl.
  - intros [= <- <- <-]. repeat split; auto.
    exists []. now rewrite app_nil_r.
  - destruct (Z.ltb_spec (Z.of_nat (String.length id_list)) (ml - 22)) as [Hlt | Hge].
    + intros H. apply IH in H as (Happ & Hlen & [more Hmore] & Htext & Hbound).
      split; [now rewrite Happ, <- app_assoc |].
      split; [lia |].
      split; [exists (id :: more); now rewrite Hmore, <- app_assoc |].
      split.
      * intros Hne ->. apply Htext; [now destruct taken |].
        rewrite map_app. simpl. rewrite concat_snoc; [reflexivity |].
        now destruct taken.
      * intros H18. right.
        assert (Hq : String.length (id_list +:+ ", " +:+ quoted id)
                     = String.length id_list + 22).
        { rewrite !string_length_app, quoted_length by (apply H18; left).
          simpl. lia. }
        destruct Hbound as [-> | Hb]; [intros; apply H18; now right | | exact Hb].
        rewrite Hq. lia.
    + intros [= <- <- <-]. repeat split; auto.
      exists []. now rewrite app_nil_r.
Qed.

Lemma chunks_in_spec (ml : Z) (rounds : nat) :
  forall ids,
    length ids <= rounds ->
    concat (map fst (chunks_in rounds ml ids)) = ids
    /\ Forall (fun chunk : list SalesforceId * string =>
                 fst chunk <> []
                 /\ snd chunk = String.concat ", " (map quoted (fst chunk)))
         (chunks_in rounds ml ids)
    /\ ((forall id, id ∈ ids -> String.length (sfid id) = 18) ->
        Forall (fun chunk : list SalesforceId * string =>
                  String.length (snd chunk) = 20
                  \/ (Z.of_nat (String.length (snd chunk)) < ml)%Z)
          (chunks_in rounds ml ids)).
Proof.
  induction rounds as [|rounds IH]; intros ids Hlen.
  - destruct ids; [| simpl in Hlen; lia]. simpl. auto.
  - destruct ids as [|id ids]; [simpl; auto |].
    cbn [chunks_in].
    destruct (fill_chunk ml [id] (quoted id) ids) as [[taken id_list] rest] eqn:E.
    apply fill_chunk_spec in E as (Happ & Hrest & [more ->] & Htext & Hbound).
    simpl in Hlen.
    destruct (IH rest) as (Hcat & Hall & Hlens); [lia |].
    cbn [map concat fst]. rewrite Hcat.
    split; [exact Happ |]. split.
    + constructor; [| exact Hall]. cbn [fst snd]. split; [discriminate |].
      apply Htext; [discriminate | reflexivity].
    + intros H18. constructor.
      * cbn [snd]. destruct Hbound as [-> | Hb]; [| left | now right].
        -- intros i Hi. apply H18. now right.
        -- apply quoted_length, H18. left.
      * apply Hlens. intros i Hi. apply H18.
        assert (i ∈ ([id] ++ more) ++ rest) by (apply elem_of_app; now right).
        rewrite Happ in H. exact H.
Qed.

End Chunks.






(** * Further properties of the code *)

(** ** Identifiers: text and equality *)

Lemma string_app_same_length (s t u v : string) :
  String.length s = String.length t -> s +:+ u = t +:+ v -> s = t /\ u = v.
Proof.
  revert t. induction s as [|a s IH]; intros [|b t] Hlen; try discriminate.
  - intros H. split; [reflexivity | exact H].
  - change (String a (s +:+ u) = String b (t +:+ v) -> String a s = String b t /\ u = v).
    intros [= -> H]. injection Hlen as Hlen.
    destruct (IH t Hlen H) as [-> ->]. auto.
Qed.

(** X1. The text of an identifier built from a string has 18 characters,
    and building an identifier from that text, or from the identifier
    itself, gives the identifier back. *)
Theorem X1_identifier_round_trip (s : string) (a : SalesforceId) :
  Id.__init__ (PyStr s) = Ok a ->
  String.length (Id.__str__ a) = 18
  /\ Id.__init__ (PyStr (Id.__str__ a)) = Ok a
  /\ Id.__init__ (PyId a) = Ok a.
Proof.
  intros H. pose proof (init_length s a H) as H18. split; [exact H18 |].
  split.
  - unfold Id.__str__. rewrite (init_18 _ H18). now destruct a.
  - simpl. now destruct a.
Qed.

Lemma X1_identifier_round_trip_witness :
  String.length (Id.__str__ (MkSalesforceId "00Q0A000000aBcDUAU")) = 18
  /\ Id.__init__ (PyStr (Id.__str__ (MkSalesforceId "00Q0A000000aBcDUAU")))
     = Ok (MkSalesforceId "00Q0A000000aBcDUAU")
  /\ Id.__init__ (PyId (MkSalesforceId "00Q0A000000aBcDUAU"))
     = Ok (MkSalesforceId "00Q0A000000aBcDUAU").
Proof.
  apply (X1_identifier_round_trip "00Q0A000000aBcD"). reflexivity.
Defined.

(** X2. Identifiers built from two strings of the same length are equal
    exactly when the strings are: [__eq__] is case-sensitive and an
    18-character string is taken as it is, whatever its last three
    characters. The same holds when the second string is compared as a plain
    string. *)
Theorem X2_identifier_equality_same_length (s t : string) (a b : SalesforceId) :
  String.length s = String.length t ->
  Id.__init__ (PyStr s) = Ok a ->
  Id.__init__ (PyStr t) = Ok b ->
  (Id.__eq__ a (PyId b) = Ok true <-> s = t)
  /\ (Id.__eq__ a (PyStr t) = Ok true <-> s = t).
Proof.
  intros Hlen Ha Hb.
  assert (Hiff : sfid a = sfid b <-> s = t).
  { split; [| intros ->; congruence].
    revert Ha Hb. unfold Id.__init__. rewrite <- Hlen.
    destruct (Nat.eqb (String.length s) 15).
    - destruct (Id.suffix s) as [u |]; [| discriminate].
      destruct (Id.suffix t) as [v |]; [| discriminate].
      intros [= <-] [= <-]. simpl. intros H.
      now destruct (string_app_same_length s t u v Hlen H).
    - destruct (Nat.eqb (String.length s) 18); [| discriminate].
      now intros [= <-] [= <-]. }
  unfold Id.__eq__. rewrite Hb. split.
  - rewrite <- Hiff. split; [intros [= H]; now apply String.eqb_eq |].
    intros ->. now rewrite String.eqb_refl.
  - rewrite <- Hiff. split; [intros [= H]; now apply String.eqb_eq |].
    intros ->. now rewrite String.eqb_refl.
Qed.

Lemma X2_identifier_equality_same_length_witness :
  (Id.__eq__ (MkSalesforceId "001000000000000AAA")
     (PyId (MkSalesforceId "001000000000000ZZZ")) = Ok true
   <-> "001000000000000AAA" = "001000000000000ZZZ")
  /\ (Id.__eq__ (MkSalesforceId "001000000000000AAA") (PyStr "001000000000000ZZZ")
      = Ok true
      <-> "001000000000000AAA" = "001000000000000ZZZ").
Proof.
  apply (X2_identifier_equality_same_length
           "001000000000000AAA" "001000000000000ZZZ"); reflexivity.
Defined.

(** ** The classifier: coverage and errors *)

(** X3. For a step of the operation whose field scope is described,
    every lookup found by [scan_fields] is a field of the scope and is
    classified at least once: the lookups are exactly the union of the self,
    descendent and dependent lookups; and a field that is not a reference,
    or whose targets are all outside the operation, is in none of the
    sets. *)
Theorem X3_every_lookup_is_classified
    (field_map : field_map_t) (sobjects : list string) (sobjectname : string)
    (field_scope : list string) :
  sobjectname ∈ sobjects ->
  (forall f, f ∈ field_scope -> is_Some (field_map !! f)) ->
  exists lk,
    Step.scan_fields field_map sobjects sobjectname field_scope = Ok lk
    /\ (forall f, f ∈ all_lookups lk -> f ∈ field_scope)
    /\ all_lookups lk
       = self_lookups lk ∪ descendent_lookups lk ∪ dependent_lookups lk
    /\ (forall f d,
           field_map !! f = Some d ->
           ftype d <> "reference" \/ ~ Step.in_operation_target sobjects d ->
           f ∉ all_lookups lk).
Proof.
  intros Hstep Hscope.
  destruct (scan_fields_spec field_map sobjects sobjectname field_scope Hstep Hscope)
    as (lk & own & Hscan & Hown & Eall & Eself & Edesc & Edep).
  exists lk. split; [assumption |]. split; [| split].
  - intros f Hf. now apply Eall in Hf.
  - apply set_eq. intros f. rewrite !elem_of_union. split.
    + intros Hall. destruct (proj1 (Eall f) Hall) as (_ & d & Hd & _ & t & Ht & Hin).
      destruct (index_in _ _ Hin) as [a Ha].
      destruct (Nat.lt_trichotomy a own) as [Hlt | [Heq | Hgt]].
      * left. right. apply Edesc. split; [assumption |].
        exists d. split; [assumption |]. exists t, a. auto.
      * left. left. apply Eself. split; [assumption |].
        exists d. split; [assumption |]. subst a.
        now rewrite <- (index_inj sobjects t sobjectname own Ha Hown).
      * right. apply Edep. split; [assumption |].
        exists d. split; [assumption |]. exists t, a. auto.
    + intros [[H | H] | H]; [apply Eself in H | apply Edesc in H | apply Edep in H];
        tauto.
  - intros f d Hd Hnot Hall.
    destruct (proj1 (Eall f) Hall) as (_ & d' & Hd' & Hty & Hop).
    assert (d' = d) as -> by congruence. tauto.
Qed.

Lemma X3_every_lookup_is_classified_witness :
  exists lk,
    Step.scan_fields Example.account_fields ["Account"; "Contact"] "Account"
      ["Name"; "ParentId"] = Ok lk
    /\ (forall f, f ∈ all_lookups lk -> f ∈ ["Name"; "ParentId"])
    /\ all_lookups lk
       = self_lookups lk ∪ descendent_lookups lk ∪ dependent_lookups lk
    /\ (forall f d,
           Example.account_fields !! f = Some d ->
           ftype d <> "reference"
           \/ ~ Step.in_operation_target ["Account"; "Contact"] d ->
           f ∉ all_lookups lk).
Proof.
  apply (X3_every_lookup_is_classified Example.account_fields
           ["Account"; "Contact"] "Account" ["Name"; "ParentId"]).
  - apply list_elem_of_In. simpl. auto.
  - intros f Hf. apply list_elem_of_In in Hf. simpl in Hf.
    destruct Hf as [<- | [<- | []]]; vm_compute; eauto.
Defined.

Lemma rfilter_raises (p : string -> result bool) (e : exn) (l : list string) :
  (forall f, f ∈ l -> (exists b, p f = Ok b) \/ p f = Raise e) ->
  (exists f, f ∈ l /\ p f = Raise e) ->
  rfilter p l = Raise e.
Proof.
  induction l as [|g l IH]; intros Hall (f & Hf & Hp); [inversion Hf |].
  simpl. destruct (Hall g) as [[b Hb] | Hg]; [left | | now rewrite Hg].
  rewrite Hb. rewrite IH; [reflexivity | |].
  - intros h Hh. apply Hall. now right.
  - apply elem_of_cons in Hf as [-> | Hf]; [congruence | eauto].
Qed.

(** X4. A field of the scope that the schema does not describe makes
    [scan_fields] raise [KeyError], whatever the other fields are. *)
Theorem X4_scan_fields_undescribed_field
    (field_map : field_map_t) (sobjects : list string) (sobjectname : string)
    (field_scope : list string) (f : string) :
  f ∈ field_scope ->
  field_map !! f = None ->
  Step.scan_fields field_map sobjects sobjectname field_scope = Raise KeyError.
Proof.
  intros Hf Hnone. unfold Step.scan_fields, set_comprehension.
  rewrite (rfilter_raises (Step.is_lookup field_map sobjects) KeyError field_scope);
    [reflexivity | |].
  - intros g _. unfold Step.is_lookup, field_descr.
    destruct (field_map !! g); simpl; eauto.
  - exists f. split; [assumption |].
    unfold Step.is_lookup, field_descr. now rewrite Hnone.
Qed.

Lemma X4_scan_fields_undescribed_field_witness :
  Step.scan_fields Example.account_fields ["Account"] "Account"
    ["Name"; "Industry"] = Raise KeyError.
Proof.
  apply (X4_scan_fields_undescribed_field Example.account_fields ["Account"]
           "Account" ["Name"; "Industry"] "Industry").
  - apply list_elem_of_In. simpl. auto.
  - reflexivity.
Defined.

Lemma index_not_in (l : list string) (x : string) :
  x ∉ l -> index l x = Raise ValueError.
Proof.
  induction l as [|y l IH]; intros Hx; [reflexivity |]. simpl.
  destruct (String.eqb_spec y x) as [-> | Hne]; [destruct Hx; left |].
  rewrite IH; [reflexivity |]. intros H. apply Hx. now right.
Qed.

Lemma index_comparisons_outside (cmp : nat -> nat -> bool)
    (sobjects : list string) (sobjectname : string) (refs : list string) :
  sobjectname ∉ sobjects ->
  (exists t, t ∈ refs /\ t ∈ sobjects) ->
  Step.index_comparisons cmp sobjects sobjectname refs = Raise ValueError.
Proof.
  intros Hout. unfold Step.index_comparisons.
  rewrite (index_not_in _ _ Hout).
  induction refs as [|t0 refs IH]; intros (t & Ht & Hin); [inversion Ht |].
  simpl. destruct (in_list t0 sobjects) eqn:E0.
  - apply in_list_spec in E0. destruct (index_in _ _ E0) as [a Ha].
    simpl. now rewrite Ha.
  - apply IH. exists t. split; [| assumption].
    apply elem_of_cons in Ht as [-> | Ht]; [| assumption].
    apply in_list_spec in Hin. congruence.
Qed.

(** X5. When the step's own sObject is not among the sObjects of the
    operation (a step whose context was set without [add_step]),
    [scan_fields] raises [ValueError] as soon as one field of the scope is a
    reference with a target in the operation; and whenever no field of the
    scope is such a reference, it returns four empty sets. *)
Theorem X5_scan_fields_step_outside_operation
    (field_map : field_map_t) (sobjects : list string) (sobjectname : string)
    (field_scope : list string) :
  (forall f, f ∈ field_scope -> is_Some (field_map !! f)) ->
  (sobjectname ∉ sobjects ->
   (exists f d, f ∈ field_scope /\ field_map !! f = Some d
                /\ ftype d = "reference" /\ Step.in_operation_target sobjects d) ->
   Step.scan_fields field_map sobjects sobjectname field_scope = Raise ValueError)
  /\ ((forall f d, f ∈ field_scope -> field_map !! f = Some d ->
                   ~ (ftype d = "reference" /\ Step.in_operation_target sobjects d)) ->
      Step.scan_fields field_map sobjects sobjectname field_scope
      = Ok (MkLookups ∅ ∅ ∅ ∅)).
Proof.
  intros Hscope.
  destruct (set_comprehension_total (Step.is_lookup field_map sobjects) field_scope)
    as [all Hall].
  { intros f Hf. destruct (Hscope f Hf) as [d Hd].
    destruct (is_lookup_spec field_map sobjects f d Hd) as (b & -> & _). eauto. }
  pose proof (set_comprehension_elem _ _ _ Hall) as Eall.
  assert (Hlookup : forall f, f ∈ all <->
            f ∈ field_scope
            /\ exists d, field_map !! f = Some d /\ ftype d = "reference"
                         /\ Step.in_operation_target sobjects d).
  { intros f. rewrite Eall. split.
    - intros [Hf Hp]. split; [assumption |]. destruct (Hscope f Hf) as [d Hd].
      exists d. split; [assumption |].
      destruct (is_lookup_spec field_map sobjects f d Hd) as (b & Hb & Hiff).
      apply Hiff. congruence.
    - intros [Hf (d & Hd & Hp)]. split; [assumption |].
      destruct (is_lookup_spec field_map sobjects f d Hd) as (b & Hb & Hiff).
      rewrite Hb. f_equal. now apply Hiff. }
  unfold Step.scan_fields. rewrite Hall. split.
  - intros Hout (f & d & Hf & Hd & Hty & Hop).
    destruct (set_comprehension_total
                (Step.is_self_lookup field_map sobjectname) (elements all))
      as [selfs ->].
    { intros g Hg. apply elem_of_elements, Hlookup in Hg as (_ & dg & Hdg & _).
      unfold Step.is_self_lookup, field_descr. rewrite Hdg. simpl. eauto. }
    unfold set_comprehension.
    rewrite (rfilter_raises _ ValueError); [reflexivity | |].
    + intros g Hg. right.
      apply elem_of_elements, Hlookup in Hg as (_ & dg & Hdg & _ & Hopg).
      unfold Step.is_relative_lookup, field_descr. rewrite Hdg. simpl.
      now rewrite index_comparisons_outside.
    + exists f. split; [apply elem_of_elements, Hlookup; eauto |].
      unfold Step.is_relative_lookup, field_descr. rewrite Hd. simpl.
      now rewrite index_comparisons_outside.
  - intros Hnone.
    assert (all = ∅) as ->.
    { apply set_eq. intros f. split; [| set_solver].
      intros (Hf & d & Hd & Hp)%Hlookup. destruct (Hnone f d Hf Hd Hp). }
    rewrite elements_empty. reflexivity.
Qed.

Lemma X5_scan_fields_step_outside_operation_witness :
  Step.scan_fields Example.account_fields ["Contact"; "Account"] "Lead"
    ["Name"; "ParentId"] = Raise ValueError
  /\ Step.scan_fields Example.account_fields [] "Account" ["Name"; "ParentId"]
     = Ok (MkLookups ∅ ∅ ∅ ∅).
Proof.
  split.
  - apply (X5_scan_fields_step_outside_operation Example.account_fields
             ["Contact"; "Account"] "Lead" ["Name"; "ParentId"]).
    + intros f Hf. apply list_elem_of_In in Hf. simpl in Hf.
      destruct Hf as [<- | [<- | []]]; vm_compute; eauto.
    + intros H. apply list_elem_of_In in H. simpl in H.
      destruct H as [H | [H | []]]; discriminate.
    + exists "ParentId", (MkField "reference" ["Account"] "tns:ID").
      split; [apply list_elem_of_In; simpl; auto |].
      split; [reflexivity |]. split; [reflexivity |].
      exists "Account". split; apply list_elem_of_In; simpl; auto.
  - apply (X5_scan_fields_step_outside_operation Example.account_fields
             [] "Account" ["Name"; "ParentId"]).
    + intros f Hf. apply list_elem_of_In in Hf. simpl in Hf.
      destruct Hf as [<- | [<- | []]]; vm_compute; eauto.
    + intros f d _ _ [_ (t & _ & Ht)]. inversion Ht.
Defined.

(** ** Load: the value of a lookup *)

(** X6. A lookup value whose identifier has an entry in the translation
    table becomes the text of the new identifier, whatever the behaviour
    configured for the field and whichever of its two encodings the value
    is written in. *)
Theorem X6_translated_lookup_value
    (step : Load.LoadStep) (c : Load.Context) (lookup : string)
    (v rid : value) (old new : SalesforceId) :
  Id.of_value v = Ok old ->
  Load.get_new_id c old = Some new ->
  Load.get_value_for_lookup step c lookup v rid = Ok (Some (Id.__str__ new)).
Proof.
  intros Ho Hn. unfold Load.get_value_for_lookup. now rewrite Ho, Hn.
Qed.

Lemma X6_translated_lookup_value_witness :
  Load.get_value_for_lookup
    (Load.set_lookup_behavior_for_field Example.account_step "ParentId"
       OutsideLookupBehavior.ERROR)
    (Load.MkContext
       (<[MkSalesforceId "001000000000000AAA" := MkSalesforceId "001000000000002AAA"]> ∅)
       [])
    "ParentId" (Some "001000000000000") (Some "001000000000001")
  = Ok (Some "001000000000002AAA").
Proof.
  apply (X6_translated_lookup_value _ _ _ _ _ (MkSalesforceId "001000000000000AAA")
           (MkSalesforceId "001000000000002AAA")); reflexivity.
Defined.

(** X7. A lookup value that is a string of a length other than 15 and 18,
    the empty string included, makes [get_value_for_lookup] raise
    [ValueError], and the value [None] makes it raise [TypeError], before
    the translation table or the behaviour of the field is looked at. *)
Theorem X7_malformed_lookup_value
    (step : Load.LoadStep) (c : Load.Context) (lookup : string) (rid : value) :
  (forall s,
      String.length s <> 15 -> String.length s <> 18 ->
      Load.get_value_for_lookup step c lookup (Some s) rid = Raise ValueError)
  /\ Load.get_value_for_lookup step c lookup (Some "") rid = Raise ValueError
  /\ Load.get_value_for_lookup step c lookup None rid = Raise TypeError.
Proof.
  split; [| split]; try reflexivity.
  intros s H15 H18. unfold Load.get_value_for_lookup, Id.of_value.
  cbn [pyval_of_value]. now rewrite (init_other_length s H15 H18).
Qed.

Lemma X7_malformed_lookup_value_witness :
  Load.get_value_for_lookup Example.contact_drop_step Load.initial "AccountId"
    (Some "0010000") (Some "003000000000000") = Raise ValueError.
Proof.
  destruct (X7_malformed_lookup_value Example.contact_drop_step Load.initial
              "AccountId" (Some "003000000000000")) as [H _].
  apply H; simpl; lia.
Defined.

(** X8. For a lookup value without a translation, a behaviour other than
    [include], [error] and [drop-field] ([recurse] is one) makes
    [get_value_for_lookup] return [None] without raising. *)
Theorem X8_unhandled_behaviour_yields_none
    (step : Load.LoadStep) (c : Load.Context) (lookup : string)
    (v rid : value) (old : SalesforceId) :
  Id.of_value v = Ok old ->
  Load.get_new_id c old = None ->
  Load.get_lookup_behavior_for_field step lookup <> OutsideLookupBehavior.INCLUDE ->
  Load.get_lookup_behavior_for_field step lookup <> OutsideLookupBehavior.ERROR ->
  Load.get_lookup_behavior_for_field step lookup <> OutsideLookupBehavior.DROP_FIELD ->
  Load.get_value_for_lookup step c lookup v rid = Ok None.
Proof.
  intros Ho Hn Hi He Hd. unfold Load.get_value_for_lookup. rewrite Ho, Hn.
  apply String.eqb_neq in Hi, He, Hd. now rewrite Hi, He, Hd.
Qed.

Lemma X8_unhandled_behaviour_yields_none_witness :
  Load.get_value_for_lookup
    (Load.set_lookup_behavior_for_field Example.account_step "ParentId"
       OutsideLookupBehavior.RECURSE)
    Load.initial "ParentId" (Some "001000000000000") (Some "001000000000001")
  = Ok None.
Proof.
  apply (X8_unhandled_behaviour_yields_none _ _ _ _ _
           (MkSalesforceId "001000000000000AAA"));
    try reflexivity; discriminate.
Defined.

(** ** Load: the records prepared for the store *)

Lemma rmap_lookup {A B} (f : A -> result B) (l : list A) (out : list B) :
  rmap f l = Ok out ->
  length out = length l
  /\ forall i x, l !! i = Some x -> exists y, out !! i = Some y /\ f x = Ok y.
Proof.
  revert out. induction l as [|a l IH]; simpl; intros out.
  - intros [= <-]. split; [reflexivity |]. intros i x H. inversion H.
  - destruct (f a) as [b |] eqn:Ea; [| discriminate].
    destruct (rmap f l) as [bs |]; [| discriminate].
    intros [= <-]. destruct (IH bs eq_refl) as [Hlen Hat].
    split; [simpl; now rewrite Hlen |].
    intros [|i] x; simpl; [intros [= <-]; eauto | apply Hat].
Qed.

Lemma rmap_raises {A B} (f : A -> result B) (e : exn) (l : list A) :
  (forall x, x ∈ l -> (exists y, f x = Ok y) \/ f x = Raise e) ->
  (exists x, x ∈ l /\ f x = Raise e) ->
  rmap f l = Raise e.
Proof.
  induction l as [|a l IH]; intros Hall (x & Hx & Hf); [inversion Hx |].
  simpl. destruct (Hall a) as [[b Hb] | Ha]; [left | | now rewrite Ha].
  rewrite Hb. rewrite IH; [reflexivity | |].
  - intros y Hy. apply Hall. now right.
  - apply elem_of_cons in Hx as [-> | Hx]; [congruence | eauto].
Qed.

(** X9. [populate_lookups] returns the record as it is when there are no
    lookups to populate; when it returns, a field outside the lookups keeps
    its place and its value; and when a field of the record is a lookup and
    the record has no [Id], it raises [KeyError]. *)
Theorem X9_populate_lookups_frame
    (step : Load.LoadStep) (c : Load.Context) (r : record) (lookups : gset string) :
  Load.populate_lookups step c r ∅ = Ok r
  /\ (forall out i k v,
         Load.populate_lookups step c r lookups = Ok out ->
         r !! i = Some (k, v) -> k ∉ lookups -> out !! i = Some (k, v))
  /\ ((exists k, k ∈ keys r /\ k ∈ lookups) ->
      dict_get "Id" r = Raise KeyError ->
      Load.populate_lookups step c r lookups = Raise KeyError).
Proof.
  split; [| split].
  - unfold Load.populate_lookups. generalize (dict_get "Id" r). intros rid.
    induction r as [|[k v] r IH]; simpl; [reflexivity |].
    rewrite decide_False by set_solver. now rewrite IH.
  - intros out i k v H Hi Hk. unfold Load.populate_lookups in H.
    destruct (rmap_lookup _ _ _ H) as [_ Hat].
    destruct (Hat i (k, v) Hi) as (y & Hy & Hf).
    cbn beta iota in Hf. rewrite decide_False in Hf by assumption.
    injection Hf as <-. exact Hy.
  - intros (k & Hk & Hin) Hid. unfold Load.populate_lookups. rewrite Hid.
    apply rmap_raises.
    + intros [k' v'] _. destruct (decide (k' ∈ lookups)); eauto.
    + unfold keys in Hk. apply list_elem_of_fmap in Hk as ([k' v'] & -> & Hkv).
      exists (k', v'). split; [assumption |]. simpl in Hin.
      now rewrite decide_True by assumption.
Qed.

Lemma X9_populate_lookups_frame_witness :
  Load.populate_lookups Example.account_step Load.initial
    [("Name", Some "X"); ("ParentId", Some "001000000000001")] {["ParentId"]}
  = Raise KeyError.
Proof.
  destruct (X9_populate_lookups_frame Example.account_step Load.initial
              [("Name", Some "X"); ("ParentId", Some "001000000000001")]
              {["ParentId"]}) as (_ & _ & H).
  apply H.
  - exists "ParentId". split; [| set_solver].
    apply list_elem_of_In. simpl. auto.
  - reflexivity.
Defined.

(** X10. [convert_value] is idempotent: a value it returns is returned
    unchanged when converted again for the same field type. For
    [xsd:boolean] it returns ['true'] or ['false'] and nothing else, and for
    any other type it turns the empty string into [None]. *)
Theorem X10_convert_value_idempotent (v v' : value) (field_type : string) :
  Load.convert_value v field_type = Ok v' ->
  Load.convert_value v' field_type = Ok v'
  /\ (field_type = "xsd:boolean" -> v' = Some "true" \/ v' = Some "false")
  /\ (field_type <> "xsd:boolean" -> v = Some "" -> v' = None).
Proof.
  unfold Load.convert_value.
  destruct (String.eqb_spec field_type "xsd:boolean") as [-> | Hne].
  - assert (Hbool : forall w, w = Some "true" \/ w = Some "false" ->
              match w with
              | Some s =>
                  if in_list (Load.lower s) ["no"; "false"; "n"; "f"; "0"; ""]
                  then Ok (Some "false")
                  else if in_list (Load.lower s) ["yes"; "true"; "y"; "t"; "1"]
                       then Ok (Some "true") else Raise ValueError
              | None => Ok (Some "false")
              end = Ok w
              /\ ("xsd:boolean" = "xsd:boolean" -> w = Some "true" \/ w = Some "false")
              /\ ("xsd:boolean" <> "xsd:boolean" -> v = Some "" -> w = None)).
    { intros w [-> | ->]; (split; [reflexivity |]); (split; [auto | congruence]). }
    destruct v as [s |].
    + destruct (in_list (Load.lower s) _);
        [intros [= <-]; apply (Hbool (Some "false")); auto |].
      destruct (in_list (Load.lower s) _); [| discriminate].
      intros [= <-]. apply (Hbool (Some "true")). auto.
    + intros [= <-]. apply (Hbool (Some "false")). auto.
  - destruct v as [s |].
    + destruct (Nat.eqb (String.length s) 0) eqn:E0.
      * intros [= <-]. split; [reflexivity |]. split; [congruence | auto].
      * assert (Hs : Some s <> Some "") by (intros [= ->]; discriminate).
        destruct (String.eqb field_type "tns:ID") eqn:Eid.
        -- intros [= <-]. rewrite E0. split; [reflexivity |].
           split; [congruence |]. intros _ H. now destruct Hs.
        -- destruct (in_list field_type
                       ["xsd:string"; "xsd:date"; "xsd:dateTime"; "xsd:int";
                        "xsd:double"]) eqn:Es.
           ++ intros [= <-]. rewrite E0. split; [reflexivity |].
              split; [congruence |]. intros _ H. now destruct Hs.
           ++ destruct (in_list field_type ["base64"; "xsd:anyType"]);
                [discriminate |].
              intros [= <-]. split; [reflexivity |]. split; [congruence |].
              intros _ H. now destruct Hs.
    + intros [= <-]. split; [reflexivity |]. split; [congruence | discriminate].
Qed.

Lemma X10_convert_value_idempotent_witness :
  Load.convert_value (Some "true") "xsd:boolean" = Ok (Some "true")
  /\ (Some "true" = Some "true" \/ Some "true" = Some "false").
Proof.
  destruct (X10_convert_value_idempotent (Some "Yes") (Some "true") "xsd:boolean")
    as (H1 & H2 & _); [reflexivity |].
  split; [exact H1 | exact (H2 eq_refl)].
Defined.

(** X11. When [primitivize] returns, the schema describes every field of
    the record, the result has the fields of the record in the same order,
    and primitivizing the result again changes nothing. *)
Theorem X11_primitivize_idempotent
    (op : Load.LoadOperation) (step : Load.LoadStep) (r out : record) :
  Load.primitivize op step r = Ok out ->
  exists field_map,
    get_field_map (Load.connection op) (Load.sobjectname step) = Ok field_map
    /\ (forall k, k ∈ keys r -> is_Some (field_map !! k))
    /\ keys out = keys r
    /\ Load.primitivize op step out = Ok out.
Proof.
  unfold Load.primitivize.
  destruct (get_field_map (Load.connection op) (Load.sobjectname step))
    as [field_map |]; [| discriminate].
  intros H. exists field_map. split; [reflexivity |].
  revert out H. induction r as [|[k v] r IH]; simpl; intros out.
  - intros [= <-]. repeat split. intros k Hk. inversion Hk.
  - unfold field_descr at 1.
    destruct (field_map !! k) as [d |] eqn:Ek; [| discriminate]. simpl.
    destruct (Load.convert_value v (soapType d)) as [v' |] eqn:Ev; [| discriminate].
    destruct (rmap _ r) as [out' |] eqn:Er; [| discriminate].
    intros [= <-]. destruct (IH out' eq_refl) as (Hdescr & Hkeys & Hagain).
    split; [| split].
    + intros k' Hk'. apply elem_of_cons in Hk' as [-> | Hk']; [eauto | auto].
    + simpl. now rewrite Hkeys.
    + simpl. unfold field_descr at 1. rewrite Ek. simpl.
      destruct (X10_convert_value_idempotent v v' (soapType d) Ev) as [-> _].
      now rewrite Hagain.
Qed.

Lemma X11_primitivize_idempotent_witness :
  exists field_map,
    get_field_map (Load.connection (Example.accounts [] [])) "Account" = Ok field_map
    /\ (forall k, k ∈ keys [("Id", Some "001000000000000"); ("Name", Some "")] ->
                  is_Some (field_map !! k))
    /\ keys [("Id", Some "001000000000000"); ("Name", None)]
       = keys [("Id", Some "001000000000000"); ("Name", Some "")]
    /\ Load.primitivize (Example.accounts [] []) Example.account_step
         [("Id", Some "001000000000000"); ("Name", None)]
       = Ok [("Id", Some "001000000000000"); ("Name", None)].
Proof.
  apply (X11_primitivize_idempotent (Example.accounts [] []) Example.account_step
           [("Id", Some "001000000000000"); ("Name", Some "")]).
  vm_compute. reflexivity.
Defined.

(** ** Load: what the store receives *)

Section Requests.

Import Load.

Local Instance same_requests_preorder : PreOrder same_requests.
Proof.
  split; [intros c; reflexivity |].
  intros c1 c2 c3 H12 H23. unfold same_requests in *. congruence.
Qed.

Lemma register_results_same_requests records results :
  preserves same_requests (register_results records results).
Proof.
  apply preserves_for_each; preorder. intros [i r] _. unfold register_result.
  repeat preserves_step. apply preserves_modify. intros c. reflexivity.
Qed.

Lemma rmap_length {A B} (f : A -> result B) (l : list A) (out : list B) :
  rmap f l = Ok out -> length out = length l.
Proof. intros H. exact (proj1 (rmap_lookup f l out H)). Qed.

(** A step sends at most one request, an insert of one record per row, and
    sends it whenever it returns. *)
Lemma execute_step_requests op step lk c r c' :
  execute_step op step lk c = (r, c') ->
  (r <> Ok tt /\ requests c' = requests c)
  \/ exists q, insert_of op step q /\ requests c' = requests c ++ [q].
Proof.
  unfold execute_step, mbind, M_bind, bind, lift, insert, get_input_file.
  destruct (input_files op !! sobjectname step) as [rows |] eqn:Erows; simpl;
    [| intros [= <- <-]; left; split; [discriminate | reflexivity]].
  destruct (rmap (prepare_record op step lk c) rows) as [records |] eqn:Erec;
    [| intros [= <- <-]; left; split; [discriminate | reflexivity]].
  intros H. right. exists (Insert (sobjectname step) records). split.
  - exists rows, records. split; [assumption |]. split; [reflexivity |].
    eapply rmap_length. eassumption.
  - apply register_results_same_requests in H. exact H.
Qed.

Lemma insert_steps_requests op (todo : list LoadStep) :
  forall c r c',
    map_each todo
      (fun s => lk ← lift (scan_fields op s); _ ← execute_step op s lk; ret (s, lk))
      c = (r, c') ->
    exists qs,
      requests c' = requests c ++ qs
      /\ forallb is_insert qs = true
      /\ length qs <= length todo
      /\ forall scanned, r = Ok scanned ->
                         map fst scanned = todo /\ Forall2 (insert_of op) todo qs.
Proof.
  induction todo as [|s todo IH]; intros c r c'; simpl.
  - intros [= <- <-]. exists []. rewrite app_nil_r.
    split; [reflexivity |]. split; [reflexivity |]. split; [simpl; lia |].
    intros sc [= <-]. split; [reflexivity | constructor].
  - unfold bind at 1. unfold mbind, M_bind, bind at 1, lift.
    destruct (scan_fields op s) as [lk |].
    2:{ intros [= <- <-]. exists []. rewrite app_nil_r.
        split; [reflexivity |]. split; [reflexivity |]. split; [simpl; lia |].
        discriminate. }
    unfold bind at 1.
    destruct (execute_step op s lk c) as [[[] | e] c1] eqn:E1.
    + destruct (execute_step_requests op s lk c _ _ E1)
        as [[Hne _] | (q & Hq & Hreq)]; [now destruct Hne |].
      unfold ret at 1. unfold bind at 1.
      assert (Hqi : is_insert q = true).
      { destruct Hq as (rows & records & _ & -> & _). reflexivity. }
      destruct (map_each todo _ c1) as [[scanned | e] c2] eqn:E2.
      * intros [= <- <-]. destruct (IH _ _ _ E2) as (qs & Hqs & Hins & Hlen & Hok).
        exists (q :: qs). rewrite Hqs, Hreq, <- app_assoc.
        split; [reflexivity |]. split; [simpl; now rewrite Hqi |].
        split; [simpl; lia |].
        intros sc [= <-]. destruct (Hok scanned eq_refl) as [Hs Hf]. split.
        -- simpl. now f_equal.
        -- now constructor.
      * intros [= <- <-]. destruct (IH _ _ _ E2) as (qs & Hqs & Hins & Hlen & _).
        exists (q :: qs). rewrite Hqs, Hreq, <- app_assoc.
        split; [reflexivity |]. split; [simpl; now rewrite Hqi |].
        split; [simpl; lia | discriminate].
    + intros [= <- <-].
      destruct (execute_step_requests op s lk c _ _ E1)
        as [[_ Hreq] | (q & Hq & Hreq)].
      * exists []. rewrite app_nil_r.
        split; [assumption |]. split; [reflexivity |]. split; [simpl; lia |].
        discriminate.
      * exists [q]. destruct Hq as (rows & records & Hrows & -> & Hl).
        split; [assumption |]. split; [reflexivity |]. split; [simpl; lia |].
        discriminate.
Qed.

Lemma update_phase_raises op scanned c r c' :
  update_phase op scanned c = (r, c') ->
  c' = c /\ (scanned <> [] -> exists e, r = Raise e) /\ (scanned = [] -> r = Ok tt).
Proof.
  unfold update_phase. destruct scanned as [|[s lk] scanned]; simpl.
  - intros [= <- <-]. repeat split; congruence.
  - unfold bind.
    destruct (execute_dependent_updates_raises op s lk c) as [e ->].
    intros [= <- <-]. repeat split; [eauto | discriminate].
Qed.

End Requests.

(** X12. When the insert phase of a load returns, it has scanned every
    step, and the store has received, after what it had received before,
    exactly one insert per step, in the declared order of the steps, each
    with one record per row of the step's input file. *)
Theorem X12_insert_phase_requests
    (op : Load.LoadOperation) (c c' : Load.Context)
    (scanned : list (Load.LoadStep * lookups)) :
  Load.insert_phase op c = (Ok scanned, c') ->
  map fst scanned = Load.steps op
  /\ exists qs,
      Load.requests c' = Load.requests c ++ qs
      /\ Forall2 (Load.insert_of op) (Load.steps op) qs.
Proof.
  intros H. destruct (insert_steps_requests op (Load.steps op) c _ c' H)
    as (qs & Hqs & _ & _ & Hok).
  destruct (Hok scanned eq_refl) as [Hs Hq]. eauto.
Qed.

Lemma X12_insert_phase_requests_witness :
  match Load.insert_phase
          (Example.accounts_and_contacts [Example.inserted "001000000000002AAA"])
          Load.initial with
  | (Ok scanned, c') =>
      map fst scanned = [Example.account_step; Example.contact_step]
      /\ exists qs,
          Load.requests c' = Load.requests Load.initial ++ qs
          /\ Forall2
               (Load.insert_of
                  (Example.accounts_and_contacts
                     [Example.inserted "001000000000002AAA"]))
               [Example.account_step; Example.contact_step] qs
  | (Raise _, _) => False
  end.
Proof.
  destruct (Load.insert_phase
              (Example.accounts_and_contacts [Example.inserted "001000000000002AAA"])
              Load.initial) as [[scanned | e] c'] eqn:E.
  - exact (X12_insert_phase_requests
             (Example.accounts_and_contacts [Example.inserted "001000000000002AAA"])
             Load.initial c' scanned E).
  - vm_compute in E. discriminate.
Defined.

(** X13. [LoadOperation.execute] on an operation with at least one step
    never returns: it raises, in the insert phase or at the first dependent
    update. Whatever it does, the store receives inserts only, at most one
    per step, and never an update. Without steps it returns and sends
    nothing. *)
Theorem X13_execute_always_raises
    (op : Load.LoadOperation) (c c' : Load.Context) (r : result unit) :
  Load.execute op c = (r, c') ->
  (Load.steps op <> [] -> exists e, r = Raise e)
  /\ (Load.steps op = [] -> r = Ok tt /\ c' = c)
  /\ exists qs,
      Load.requests c' = Load.requests c ++ qs
      /\ forallb Load.is_insert qs = true
      /\ length qs <= length (Load.steps op).
Proof.
  unfold Load.execute, mbind, M_bind, bind.
  destruct (Load.insert_phase op c) as [[scanned | e] c1] eqn:E1.
  - intros H2. apply update_phase_raises in H2 as (-> & Hne & Hnil).
    destruct (insert_steps_requests op (Load.steps op) c _ c1 E1)
      as (qs & Hqs & Hins & Hlen & Hok).
    destruct (Hok scanned eq_refl) as [Hs _].
    split; [| split; [| eauto]].
    + intros Hsteps. apply Hne. intros ->. now destruct Hsteps.
    + intros Hsteps. split.
      * apply Hnil. rewrite Hsteps in Hs. now destruct scanned.
      * unfold Load.insert_phase in E1. rewrite Hsteps in E1.
        now injection E1 as _ <-.
  - intros [= <- <-].
    destruct (insert_steps_requests op (Load.steps op) c _ c1 E1)
      as (qs & Hqs & Hins & Hlen & _).
    split; [eauto | split; [| eauto]].
    intros Hsteps. unfold Load.insert_phase in E1. rewrite Hsteps in E1.
    discriminate.
Qed.

Lemma X13_execute_always_raises_witness :
  exists e,
    fst (Load.execute
           (Example.accounts_and_contacts
              [Example.inserted "001000000000002AAA";
               Example.inserted "001000000000003AAA"]) Load.initial)
    = Raise e.
Proof.
  destruct (Load.execute
              (Example.accounts_and_contacts
                 [Example.inserted "001000000000002AAA";
                  Example.inserted "001000000000003AAA"]) Load.initial)
    as [r c'] eqn:E.
  destruct (X13_execute_always_raises _ _ _ _ E) as (H & _).
  apply H. discriminate.
Defined.

(** The loop over the insert results stops at the first rejected result:
    what follows it in the list has no bearing on the outcome. *)
Lemma register_loop_rejected records pre res post :
  success res = false ->
  forall k c r c',
    for_each (combine (seq k (length (pre ++ res :: post))) (pre ++ res :: post))
      (Load.register_result records) c = (r, c') ->
    (exists e, r = Raise e)
    /\ forall post',
        for_each
          (combine (seq k (length (pre ++ res :: post'))) (pre ++ res :: post'))
          (Load.register_result records) c = (r, c').
Proof.
  intros Hres. induction pre as [|p pre IH]; intros k c r c'.
  - cbn [app length seq combine]. rewrite for_each_cons.
    destruct (Load.register_result records (k, res) c) as [[[] | e] c1] eqn:E0.
    + apply register_result_cases in E0 as [(_ & Hs & _) | [[e He] _]];
        congruence.
    + intros [= <- <-]. split; [eauto |]. intros post'.
      cbn [app length seq combine]. rewrite for_each_cons. now rewrite E0.
  - cbn [app length seq combine]. rewrite for_each_cons.
    destruct (Load.register_result records (k, p) c) as [[[] | e] c1] eqn:E0.
    + intros H. destruct (IH (S k) c1 r c' H) as [He Hpost].
      split; [assumption |]. intros post'.
      cbn [app length seq combine]. rewrite for_each_cons, E0. apply Hpost.
    + intros [= <- <-]. split; [eauto |]. intros post'.
      cbn [app length seq combine]. rewrite for_each_cons. now rewrite E0.
Qed.

(** X14. When the store rejects a record of an insert, [LoadStep.execute]
    raises at the first rejected result, and the results after it are never
    looked at: replacing them by any others gives the same outcome and the
    same translation table, so records that the store accepted after the
    rejected one are not registered. Only identifiers of records accepted
    before it can have changed in the table, and no request is sent. *)
Theorem X14_first_rejected_result_ends_the_loop
    (records : list record) (pre post : list UploadResult) (res : UploadResult)
    (c c' : Load.Context) (r : result unit) :
  success res = false ->
  Load.register_results records (pre ++ res :: post) c = (r, c') ->
  (exists e, r = Raise e)
  /\ (forall post',
         Load.register_results records (pre ++ res :: post') c = (r, c'))
  /\ (forall old,
         (forall j res' v,
             pre !! j = Some res' -> success res' = true ->
             Load.record_id_at records j = Ok v -> Id.of_value v <> Ok old) ->
         Load.get_new_id c' old = Load.get_new_id c old)
  /\ Load.requests c' = Load.requests c.
Proof.
  intros Hres H.
  destruct (register_loop_rejected records pre res post Hres 0 c r c' H)
    as [He Hpost].
  split; [assumption |]. split; [exact Hpost |]. split.
  - intros old Hno.
    destruct (register_loop records (pre ++ [res]) 0 c c' r (Hpost [])) as [Hb _].
    apply Hb. intros j res' v Hj Hs Hv.
    destruct (decide (j < length pre)) as [Hlt | Hge].
    + rewrite lookup_app_l in Hj by assumption. exact (Hno j res' v Hj Hs Hv).
    + rewrite lookup_app_r in Hj by lia.
      destruct (j - length pre) as [|n]; [| destruct n; discriminate].
      injection Hj as <-. congruence.
  - exact (register_results_same_requests records _ c r c' H).
Qed.

Lemma X14_first_rejected_result_ends_the_loop_witness :
  (exists e,
      fst (Load.register_results [Example.x; Example.y]
             [Example.rejected; Example.inserted "001000000000003AAA"]
             Load.initial) = Raise e)
  /\ Load.get_new_id
       (snd (Load.register_results [Example.x; Example.y]
               [Example.rejected; Example.inserted "001000000000003AAA"]
               Load.initial))
       (MkSalesforceId "001000000000001AAA") = None.
Proof.
  destruct (X14_first_rejected_result_ends_the_loop
              [Example.x; Example.y] [] [Example.inserted "001000000000003AAA"]
              Example.rejected Load.initial _ _ eq_refl eq_refl)
    as (He & _ & Hframe & _).
  split; [exact He |].
  rewrite Hframe; [reflexivity |].
  intros j res' v Hj. destruct j; discriminate.
Defined.

(** ** Load: the dependent update *)

Lemma rmap_Forall {A B} (f : A -> result B) (P : B -> Prop) (l : list A) :
  (forall x y, f x = Ok y -> P y) ->
  forall out, rmap f l = Ok out -> Forall P out.
Proof.
  intros Hf. induction l as [|x l IH]; simpl; intros out.
  - intros [= <-]. constructor.
  - destruct (f x) as [y |] eqn:Ey; [| discriminate].
    destruct (rmap f l) as [ys |]; [| discriminate].
    intros [= <-]. constructor; eauto.
Qed.

Lemma dict_get_missing (k : string) (r : record) :
  dict_has k r = false -> dict_get k r = Raise KeyError.
Proof.
  induction r as [|[k' v] r IH]; simpl; [reflexivity |].
  destruct (String.eqb k' k); simpl; [discriminate | exact IH].
Qed.

Lemma dependent_record_keys step all c r out :
  Load.dependent_record step all c r = Ok out ->
  Forall (fun k => k ∈ all) (keys out)
  /\ ("Id" ∉ all -> dict_has "Id" out = false).
Proof.
  unfold Load.dependent_record.
  destruct (Load.populate_lookups step c r all) as [r' |]; [| discriminate].
  intros [= <-]. split.
  - unfold keys. apply List.Forall_map. apply List.Forall_forall.
    intros kv Hin. apply List.filter_In in Hin as [_ Hin].
    now apply bool_decide_eq_true in Hin.
  - intros Hid. unfold dict_has.
    destruct (existsb _ _) eqn:E; [| reflexivity].
    apply existsb_exists in E as ([k v] & Hin & Hk).
    apply List.filter_In in Hin as [_ Hin].
    apply bool_decide_eq_true in Hin. apply String.eqb_eq in Hk.
    simpl in *. now subst.
Qed.

(** The loop over the update results, started at position [k], when no
    record of the update has an [Id]. *)
Lemma check_update_loop (records : list record) (rs : list UploadResult) :
  Forall (fun rec => dict_has "Id" rec = false) records ->
  forall (k : nat) (c c' : Load.Context) (r : result unit),
    for_each (combine (seq k (length rs)) rs)
      (Load.check_update_result records) c = (r, c') ->
    c' = c
    /\ (forallb success rs = true -> r = Ok tt)
    /\ (forallb success rs = false ->
        (r = Raise KeyError \/ r = Raise IndexError)
        /\ (k + length rs <= length records -> r = Raise KeyError)).
Proof.
  intros Hno. induction rs as [|res rs IH]; intros k c c' r.
  - intros [= <- <-]. repeat split; auto; discriminate.
  - cbn [length seq combine forallb]. rewrite for_each_cons.
    unfold Load.check_update_result at 1.
    destruct (success res); cbn [negb andb].
    + unfold ret at 1. intros H. destruct (IH (S k) c c' r H) as (-> & Hok & Hbad).
      split; [reflexivity |]. split; [assumption |].
      intros Hf. destruct (Hbad Hf) as [Hor Hkey]. split; [assumption |].
      intros Hle. apply Hkey. lia.
    + unfold mbind, M_bind, bind, lift, raise, Load.record_id_at.
      destruct (records !! k) as [rec |] eqn:Erec; cbn [of_option].
      * rewrite dict_get_missing
          by (rewrite List.Forall_forall in Hno; apply Hno;
              apply list_elem_of_In; eapply list_elem_of_lookup_2; eassumption).
        intros [= <- <-]. repeat split; auto; discriminate.
      * intros [= <- <-]. split; [reflexivity |]. split; [discriminate |].
        intros _. split; [auto |]. intros Hle.
        apply lookup_ge_None in Erec. lia.
Qed.

(** X15. The statements of [LoadStep.execute_dependent_updates] after the
    computation of [all_lookups], for whatever set [all_lookups] that does
    not hold [Id]: they leave the translation table as it is; when the
    records could be built, the store receives one update with one record
    per row, whose keys all lie in [all_lookups], so that no record names
    the row to update. When the store rejects one of them, the exception is
    the [KeyError] of [records_to_load[i]['Id']] (an [IndexError] when the
    store answers more results than records), not the exception that the
    message is written for. *)
Theorem X15_dependent_update_records_carry_no_id
    (op : Load.LoadOperation) (step : Load.LoadStep) (reader : list record)
    (all : gset string) (c c' : Load.Context) (r : result unit) :
  "Id" ∉ all ->
  Load.dependent_updates_with op step reader all c = (r, c') ->
  Load.global_id_map c' = Load.global_id_map c
  /\ (((exists e, r = Raise e) /\ Load.requests c' = Load.requests c)
      \/ exists records,
          Load.requests c'
          = Load.requests c ++ [Load.Update (Load.sobjectname step) records]
          /\ length records = length reader
          /\ Forall (fun rec => Forall (fun k => k ∈ all) (keys rec)) records
          /\ let results :=
               bulk_update (Load.connection op) (Load.sobjectname step) records in
             (forallb success results = true -> r = Ok tt)
             /\ (forallb success results = false ->
                 (r = Raise KeyError \/ r = Raise IndexError)
                 /\ (length results <= length records -> r = Raise KeyError))).
Proof.
  intros Hid. unfold Load.dependent_updates_with, mbind, M_bind, bind, Load.update.
  destruct (rmap (Load.dependent_record step all c) reader) as [records |] eqn:Erec.
  - intros H. apply check_update_loop in H as (-> & Hok & Hbad).
    + split; [reflexivity |]. right. exists records.
      split; [reflexivity |].
      split; [eapply rmap_length; eassumption |].
      split.
      * eapply rmap_Forall; [| eassumption].
        intros x y Hy. now apply dependent_record_keys in Hy.
      * split; [assumption |]. intros Hf. destruct (Hbad Hf) as [Hor Hkey].
        split; [assumption |]. intros Hle. apply Hkey. simpl. exact Hle.
    + eapply rmap_Forall; [| eassumption].
      intros x y Hy. apply dependent_record_keys in Hy as [_ Hy]. now apply Hy.
  - intros [= <- <-]. split; [reflexivity |]. left. eauto.
Qed.

Lemma X15_dependent_update_records_carry_no_id_witness :
  exists records,
    Load.requests
      (snd (Load.dependent_updates_with
              (Example.accounts [Example.x; Example.y] [])
              Example.account_step [Example.x; Example.y] {["ParentId"]}
              Load.initial))
    = [Load.Update "Account" records]
    /\ Forall (fun rec => Forall (fun k => k ∈ ({["ParentId"]} : gset string)) (keys rec))
         records.
Proof.
  assert (Hid : "Id" ∉ ({["ParentId"]} : gset string)).
  { intros H. apply elem_of_singleton in H. discriminate. }
  destruct (X15_dependent_update_records_carry_no_id
              (Example.accounts [Example.x; Example.y] [])
              Example.account_step [Example.x; Example.y] {["ParentId"]}
              Load.initial _ _ Hid eq_refl)
    as (_ & [[_ Hreq] | (records & Hreq & _ & Hkeys & _)]).
  - vm_compute in Hreq. discriminate.
  - exists records. split; [exact Hreq | exact Hkeys].
Defined.

(** ** Extraction: what a step changes, and what it leaves *)

Section Invariants.

Import Extract.

Lemma add_dependency_spec name id c r c' :
  add_dependency name id c = (r, c') ->
  r = Ok tt
  /\ extracted_ids c' = extracted_ids c
  /\ output_files c' = output_files c
  /\ (forall other, other <> name ->
                    get_dependencies c' other = get_dependencies c other)
  /\ get_dependencies c' name
     = if decide (id ∈ get_extracted_ids c name) then get_dependencies c name
       else {[id]} ∪ get_dependencies c name.
Proof.
  unfold add_dependency, modify. intros [= <- <-].
  cbn [extracted_ids output_files]. repeat split.
  - intros other Hne. unfold get_dependencies. cbn [required_ids].
    destruct (decide (id ∈ get_extracted_ids c name));
      destruct (required_ids c !! name) eqn:E;
      rewrite ?lookup_insert_ne by congruence; reflexivity.
  - unfold get_dependencies. cbn [required_ids].
    destruct (decide (id ∈ get_extracted_ids c name));
      destruct (required_ids c !! name) eqn:E;
      rewrite ?lookup_insert_eq, ?E; reflexivity.
Qed.

(** [ExtractOperation.store_result] either finds the record extracted, or
    extracts it; in the second case it writes the row, unless the sObject
    has no output file. *)
Lemma store_result_cases op name r c res c' :
  store_result op name r c = (res, c') ->
  (forall other, other <> name ->
                 get_extracted_ids c' other = get_extracted_ids c other
                 /\ output_files c' !! other = output_files c !! other
                 /\ get_dependencies c' other = get_dependencies c other)
  /\ ((get_extracted_ids c' name = get_extracted_ids c name
       /\ output_files c' = output_files c
       /\ (get_dependencies c' name = get_dependencies c name
           \/ exists id, id ∈ get_extracted_ids c name
                         /\ get_dependencies c' name
                            = get_dependencies c name ∖ {[id]}))
      \/ exists id,
          (id ∉ get_extracted_ids c name)
          /\ get_extracted_ids c' name = {[id]} ∪ get_extracted_ids c name
          /\ ((output_files c !! name = None
               /\ res = Raise KeyError
               /\ output_files c' = output_files c
               /\ get_dependencies c' name = get_dependencies c name)
              \/ exists rows,
                  output_files c !! name = Some rows
                  /\ res = Ok tt
                  /\ output_files c'
                     = <[name := rows ++ [row_of op name r]]> (output_files c)
                  /\ get_dependencies c' name = get_dependencies c name ∖ {[id]})).
Proof.
  intros H. destruct (store_result_spec op name r c res c' H) as [Hothers Hname].
  split; [exact Hothers |].
  destruct (record_id r) as [id |].
  - destruct (decide (id ∈ get_extracted_ids c name)) as [Hin | Hnin].
    + destruct Hname as (_ & He & Ho & Hd). left.
      split; [unfold get_extracted_ids; now rewrite He |].
      split; [assumption |]. right. eauto.
    + destruct Hname as (He & Hout). right. exists id.
      split; [assumption |]. split; [assumption |].
      destruct (output_files c !! name) as [rows |].
      * right. exists rows. destruct Hout as (-> & -> & ->). auto.
      * left. destruct Hout as (-> & -> & Hr). unfold get_dependencies.
        rewrite Hr. auto.
  - destruct Hname as (_ & He & Ho & Hr). left.
    split; [assumption |]. split; [assumption |]. left.
    unfold get_dependencies. now rewrite Hr.
Qed.

Lemma store_result_output_files op name r c res c' :
  store_result op name r c = (res, c') ->
  forall n, is_Some (output_files c' !! n) <-> is_Some (output_files c !! n).
Proof.
  intros H n. destruct (store_result_cases op name r c res c' H) as [Hothers Hname].
  destruct (decide (n = name)) as [-> | Hne].
  - destruct Hname as [(_ & -> & _) | (id & _ & _ & [(_ & _ & -> & _) | Hrows])];
      [reflexivity | reflexivity |].
    destruct Hrows as (rows & E & _ & -> & _). rewrite lookup_insert_eq, E.
    split; eauto.
  - destruct (Hothers n Hne) as (_ & -> & _). reflexivity.
Qed.

(** *** Only the step's own sObject *)

Local Instance touches_only_preorder name : PreOrder (touches_only name).
Proof.
  split.
  - intros c. split; [auto | reflexivity].
  - intros c1 c2 c3 [H12 S12] [H23 S23]. split.
    + intros other Hne. destruct (H12 other Hne) as [<- <-]. now apply H23.
    + now rewrite S23.
Qed.

Lemma add_dependency_touches_only name n id :
  preserves (touches_only name) (add_dependency n id).
Proof.
  intros c r c' H. apply add_dependency_spec in H as (_ & He & Ho & _).
  unfold touches_only, get_extracted_ids. rewrite He, Ho. split; [auto | reflexivity].
Qed.

Lemma store_result_touches_only op name r :
  preserves (touches_only name) (store_result op name r).
Proof.
  intros c res c' H. split.
  - intros other Hne.
    destruct (store_result_cases op name r c res c' H) as [Hothers _].
    destruct (Hothers other Hne) as (-> & -> & _). auto.
  - now apply (store_result_output_files op name r c res c').
Qed.

Lemma execute_step_touches_only fuel op step c r c' :
  execute_step fuel op step c = Some (r, c') ->
  touches_only (sobjectname step) c c'.
Proof.
  apply (execute_step_respects op step (touches_only (sobjectname step))
           (fun _ => True)); auto.
  - intros n id. apply add_dependency_touches_only.
  - intros rec _. apply store_result_touches_only.
Qed.

(** *** Required and extracted *)

Local Instance keeps_settled_preorder : PreOrder keeps_settled.
Proof.
  split.
  - intros c. split; auto.
  - intros c1 c2 c3 [O12 S12] [O23 S23]. split; auto.
Qed.

Lemma add_dependency_settled name id :
  preserves keeps_settled (add_dependency name id).
Proof.
  intros c r c' H. apply add_dependency_spec in H as (_ & He & Ho & Hd & Hn).
  split; [intros n; now rewrite Ho |].
  intros Hs n Hout. rewrite Ho in Hout. specialize (Hs n Hout).
  unfold get_extracted_ids in *. rewrite He.
  destruct (decide (n = name)) as [-> | Hne].
  - rewrite Hn. unfold get_extracted_ids.
    destruct (decide (id ∈ default ∅ (extracted_ids c !! name))); set_solver.
  - now rewrite Hd.
Qed.

Lemma disjoint_difference_l (A B : gset SalesforceId) (id : SalesforceId) :
  A ## B -> A ∖ {[id]} ## B.
Proof. set_solver. Qed.

Lemma disjoint_difference_union (A B : gset SalesforceId) (id : SalesforceId) :
  A ## B -> A ∖ {[id]} ## {[id]} ∪ B.
Proof. set_solver. Qed.

Lemma store_result_settled op name r :
  preserves keeps_settled (store_result op name r).
Proof.
  intros c res c' H.
  pose proof (store_result_output_files op name r c res c' H) as Hfiles.
  destruct (store_result_cases op name r c res c' H) as [Hothers Hname].
  split; [intros n; apply Hfiles |].
  intros Hs n Hout. pose proof (Hs n (proj1 (Hfiles n) Hout)) as Hn.
  destruct (decide (n = name)) as [-> | Hne].
  - destruct Hname
      as [(-> & _ & [-> | (id & _ & ->)])
         | (id & _ & -> & [(Hnone & _ & Ho & _) | (rows & _ & _ & _ & ->)])].
    + exact Hn.
    + now apply disjoint_difference_l.
    + rewrite Ho, Hnone in Hout. now destruct Hout.
    + now apply disjoint_difference_union.
  - destruct (Hothers n Hne) as (-> & _ & ->). exact Hn.
Qed.

Lemma execute_keeps_settled fuel op c r c' :
  execute fuel op c = Some (r, c') -> keeps_settled c c'.
Proof.
  apply (execute_steps_preserves op keeps_settled (fun _ => True)); auto.
  - apply add_dependency_settled.
  - intros name rec _. apply store_result_settled.
Qed.

(** *** Resolving what is required *)

Local Instance resolves_preorder : PreOrder resolves.
Proof.
  split.
  - intros c. split; [intros name; reflexivity | auto].
  - intros c1 c2 c3 [G12 R12] [G23 R23]. split.
    + intros name. etransitivity; [apply G12 | apply G23].
    + intros name id H. destruct (R12 name id H) as [H2 | H2].
      * now apply R23.
      * right. now apply G23.
Qed.

Lemma add_dependency_resolves name id :
  preserves resolves (add_dependency name id).
Proof.
  intros c r c' H. apply add_dependency_spec in H as (_ & He & _ & Hd & Hn).
  split.
  - intros n. unfold get_extracted_ids. now rewrite He.
  - intros n id' Hid. left. destruct (decide (n = name)) as [-> | Hne].
    + rewrite Hn. destruct (decide (id ∈ get_extracted_ids c name)); set_solver.
    + now rewrite Hd.
Qed.

Lemma store_result_resolves op name r :
  preserves resolves (store_result op name r).
Proof.
  intros c res c' H.
  destruct (store_result_cases op name r c res c' H) as [Hothers Hname].
  split.
  - intros n. destruct (decide (n = name)) as [-> | Hne].
    + destruct Hname as [(-> & _) | (id & _ & -> & _)]; set_solver.
    + destruct (Hothers n Hne) as (-> & _). reflexivity.
  - intros n id' Hid. destruct (decide (n = name)) as [-> | Hne].
    + destruct Hname
        as [(-> & _ & [-> | (id & Hin & ->)])
           | (id & _ & -> & [(_ & _ & _ & ->) | (rows & _ & _ & _ & ->)])];
        try (now left);
        destruct (decide (id' = id)) as [-> | Hd]; set_solver.
    + destruct (Hothers n Hne) as (_ & _ & ->). now left.
Qed.

Lemma perform_id_field_pass_resolves op step lk id_field id_set :
  preserves resolves (perform_id_field_pass op step lk id_field id_set).
Proof.
  apply (perform_id_field_pass_respects op step resolves (fun _ => True)); auto.
  - apply add_dependency_resolves.
  - intros rec _. apply store_result_resolves.
Qed.

Lemma execute_scope_resolves op step :
  preserves resolves (execute_scope op step).
Proof.
  apply (execute_scope_respects op step resolves (fun _ => True)); auto.
  - apply add_dependency_resolves.
  - intros rec _. apply store_result_resolves.
Qed.

Lemma trace_self_lookups_resolves op step lk fuel c r c' :
  trace_self_lookups fuel op step lk c = Some (r, c') -> resolves c c'.
Proof.
  apply (trace_self_lookups_respects op step resolves (fun _ => True)); auto.
  - apply add_dependency_resolves.
  - intros rec _. apply store_result_resolves.
Qed.

Lemma execute_step_resolves fuel op step c r c' :
  execute_step fuel op step c = Some (r, c') -> resolves c c'.
Proof.
  apply (execute_step_respects op step resolves (fun _ => True)); auto.
  - apply add_dependency_resolves.
  - intros rec _. apply store_result_resolves.
Qed.

Lemma execute_steps_resolves fuel op todo c r c' :
  execute_steps fuel op todo c = Some (r, c') -> resolves c c'.
Proof.
  apply (execute_steps_preserves op resolves (fun _ => True)); auto.
  - apply add_dependency_resolves.
  - intros name rec _. apply store_result_resolves.
Qed.

(** When [resolve_registered_dependencies] returns, every identifier that
    was required of the step's sObject is extracted. *)
Lemma resolve_registered_dependencies_returns op step lk c c' :
  resolve_registered_dependencies op step lk c = (Ok tt, c') ->
  resolves c c'
  /\ get_dependencies c (sobjectname step) ⊆ get_extracted_ids c' (sobjectname step).
Proof.
  unfold resolve_registered_dependencies, mbind, M_bind, bind, gets.
  destruct (perform_id_field_pass op step lk "Id"
              (get_dependencies c (sobjectname step)) c) as [[[] | e] c1] eqn:E;
    [| discriminate].
  apply perform_id_field_pass_resolves in E.
  destruct (Nat.ltb_spec 0
              (size (get_dependencies c1 (sobjectname step)
                       ∩ get_dependencies c (sobjectname step)))) as [Hlt | Hle];
    [discriminate |].
  intros [= <-]. split; [assumption |].
  assert (Hempty : get_dependencies c1 (sobjectname step)
                     ∩ get_dependencies c (sobjectname step) ≡ ∅).
  { apply size_empty_iff. lia. }
  intros id Hid. destruct E as [_ E].
  destruct (E _ _ Hid) as [Hreq | Hext]; [| assumption]. set_solver.
Qed.

Lemma execute_step_resolves_required fuel op step c c' :
  scope step <> ExtractionScope.ALL_RECORDS ->
  execute_step fuel op step c = Some (Ok tt, c') ->
  get_dependencies c (sobjectname step) ⊆ get_extracted_ids c' (sobjectname step).
Proof.
  intros Hscope. unfold execute_step.
  destruct (execute_scope op step c) as [[[[] | lk] | e] c2] eqn:E.
  - revert E. unfold execute_scope, mbind, M_bind, bind at 1, lift.
    destruct (scan_fields op step) as [lk |]; [| discriminate].
    destruct (String.eqb_spec (scope step) ExtractionScope.ALL_RECORDS);
      [contradiction |].
    unfold bind. repeat match goal with
                        | |- context [match ?m c with _ => _ end] => destruct (m c) as [[[] |] ?]
                        | |- context [match ?m ?s with _ => _ end] =>
                            destruct (m s) as [[[] |] ?]
                        end; discriminate.
  - intros Htrace.
    assert (Hmid : get_dependencies c (sobjectname step)
                     ⊆ get_extracted_ids c2 (sobjectname step)).
    { revert E. unfold execute_scope, mbind, M_bind, bind at 1, lift.
      destruct (scan_fields op step) as [lk0 |]; [| discriminate].
      destruct (String.eqb_spec (scope step) ExtractionScope.ALL_RECORDS);
        [contradiction |].
      unfold bind at 1.
      match goal with
      | |- context [match ?m c with _ => _ end] =>
          destruct (m c) as [[[] | e] c1] eqn:E1; [| discriminate];
          assert (H1 : resolves c c1)
      end.
      { revert E1. destruct (String.eqb (scope step) ExtractionScope.QUERY).
        - apply (perform_bulk_api_pass_respects op step resolves (fun _ => True));
            auto; [apply add_dependency_resolves |].
          intros rec _. apply store_result_resolves.
        - destruct (String.eqb (scope step) ExtractionScope.DESCENDENTS).
          + apply preserves_for_each; [apply _ |]. intros f _.
            apply (perform_lookup_pass_respects op step resolves (fun _ => True));
              auto; [apply add_dependency_resolves |].
            intros rec _. apply store_result_resolves.
          + intros [= <-]. reflexivity. }
      unfold bind at 1.
      destruct (resolve_registered_dependencies op step lk0 c1)
        as [[[] | e] c3] eqn:E2; [| discriminate].
      intros [= <- <-].
      apply resolve_registered_dependencies_returns in E2 as [[G2 _] Hsub].
      intros id Hid. destruct H1 as [_ H1].
      destruct (H1 _ _ Hid) as [Hreq | Hext]; [now apply Hsub | now apply G2]. }
    assert (Hend : resolves c2 c').
    { destruct (traces step lk).
      - eapply trace_self_lookups_resolves; eassumption.
      - injection Htrace as <-. reflexivity. }
    destruct Hend as [G _]. intros id Hid. now apply G, Hmid.
  - discriminate.
Qed.

Lemma execute_steps_resolve_required fuel op :
  forall todo c c',
    execute_steps fuel op todo c = Some (Ok tt, c') ->
    forall step,
      step ∈ todo -> scope step <> ExtractionScope.ALL_RECORDS ->
      get_dependencies c (sobjectname step)
        ⊆ get_extracted_ids c' (sobjectname step).
Proof.
  induction todo as [|s todo IH]; intros c c' H step Hin Hscope.
  - inversion Hin.
  - simpl in H.
    destruct (execute_step fuel op s c) as [[[[] | e] c1] |] eqn:E1;
      [| discriminate | discriminate].
    pose proof (execute_step_resolves fuel op s c _ _ E1) as [_ R1].
    pose proof (execute_steps_resolves fuel op todo c1 _ _ H) as [G2 _].
    intros id Hid. apply elem_of_cons in Hin as [-> | Hin].
    + apply G2. eapply execute_step_resolves_required; eassumption.
    + destruct (R1 _ _ Hid) as [Hreq | Hext]; [| now apply G2].
      eapply IH; eassumption.
Qed.

End Invariants.

(** X16. Whatever [ExtractionStep.execute] does, and whether it returns or
    raises, it leaves the extracted identifiers and the output file of every
    other sObject as they were, and it opens and closes no output file: an
    sObject has an output file afterwards exactly when it had one before. *)
Theorem X16_step_changes_its_own_sobject_only
    (fuel : nat) (op : Extract.ExtractOperation) (step : Extract.ExtractionStep)
    (c c' : Extract.Context) (r : result unit) :
  Extract.execute_step fuel op step c = Some (r, c') ->
  (forall other,
      other <> Extract.sobjectname step ->
      Extract.get_extracted_ids c' other = Extract.get_extracted_ids c other
      /\ Extract.output_files c' !! other = Extract.output_files c !! other)
  /\ forall name,
      is_Some (Extract.output_files c' !! name)
      <-> is_Some (Extract.output_files c !! name).
Proof.
  intros H. destruct (execute_step_touches_only fuel op step c r c' H) as [Ho Hs].
  split; [exact Ho |]. intros name.
  destruct (decide (name = Extract.sobjectname step)) as [-> | Hne];
    [exact Hs |].
  destruct (Ho name Hne) as [_ ->]. reflexivity.
Qed.

Lemma X16_step_changes_its_own_sobject_only_witness :
  match Extract.execute_step 3 Example.chain_extraction Example.selected_accounts
          Example.chain_seed with
  | Some (_, c') =>
      Extract.get_extracted_ids c' "Contact"
      = Extract.get_extracted_ids Example.chain_seed "Contact"
      /\ Extract.output_files c' !! "Contact"
         = Extract.output_files Example.chain_seed !! "Contact"
  | None => False
  end.
Proof.
  destruct (Extract.execute_step 3 Example.chain_extraction Example.selected_accounts
              Example.chain_seed) as [[r c'] |] eqn:E.
  - apply (proj1 (X16_step_changes_its_own_sobject_only
                    3 Example.chain_extraction Example.selected_accounts
                    Example.chain_seed c' r E)).
    discriminate.
  - vm_compute in E. discriminate.
Defined.

(** X17. An extraction keeps the required and the extracted identifiers of
    an sObject apart, as long as the sObject has an output file: when no
    identifier is both required and extracted before
    [ExtractOperation.execute], none is afterwards, whether the operation
    returns or raises. Without an output file the guarantee is lost:
    [store_result] has then extracted the identifier when [writerow] raises,
    and the identifier stays required. *)
Theorem X17_required_and_extracted_stay_apart
    (fuel : nat) (op : Extract.ExtractOperation)
    (c c' : Extract.Context) (r : result unit) :
  Extract.settled c ->
  Extract.execute fuel op c = Some (r, c') ->
  Extract.settled c'
  /\ forall name rec id,
      Extract.record_id rec = Ok id ->
      Extract.output_files c !! name = None ->
      id ∈ Extract.get_dependencies c name ->
      id ∉ Extract.get_extracted_ids c name ->
      exists c1,
        Extract.store_result op name rec c = (Raise KeyError, c1)
        /\ id ∈ Extract.get_dependencies c1 name
        /\ id ∈ Extract.get_extracted_ids c1 name.
Proof.
  intros Hs H. split.
  - exact (proj2 (execute_keeps_settled fuel op c r c' H) Hs).
  - intros name rec id Hid Hnone Hreq Hnew.
    destruct (Extract.store_result op name rec c) as [res c1] eqn:E.
    destruct (store_result_spec op name rec c res c1 E) as [_ Hname].
    rewrite Hid, decide_False, Hnone in Hname by assumption.
    destruct Hname as (He & -> & _ & Hr).
    exists c1. split; [reflexivity |]. split.
    + unfold Extract.get_dependencies in *. now rewrite Hr.
    + rewrite He. set_solver.
Qed.

Lemma X17_required_and_extracted_stay_apart_witness :
  match Extract.execute 3 Example.chain_extraction Example.chain_seed with
  | Some (_, c') => Extract.settled c'
  | None => False
  end.
Proof.
  destruct (Extract.execute 3 Example.chain_extraction Example.chain_seed)
    as [[r c'] |] eqn:E.
  - refine (proj1 (X17_required_and_extracted_stay_apart
                     3 Example.chain_extraction Example.chain_seed c' r _ E)).
    intros name _. unfold Extract.get_extracted_ids, Example.chain_seed. simpl.
    rewrite lookup_empty. simpl. apply disjoint_empty_r.
  - vm_compute in E. discriminate.
Defined.

(** X18. When [ExtractOperation.execute] returns, every identifier that was
    required of the sObject of one of its steps before the operation is
    extracted for that sObject afterwards, unless the scope of the step is
    [all]: such a step never resolves registered dependencies. The same
    holds of a single step and the identifiers required when it starts. *)
Theorem X18_required_identifiers_are_extracted
    (fuel : nat) (op : Extract.ExtractOperation) (c c' : Extract.Context) :
  (Extract.execute fuel op c = Some (Ok tt, c') ->
   forall step,
     step ∈ Extract.steps op ->
     Extract.scope step <> ExtractionScope.ALL_RECORDS ->
     Extract.get_dependencies c (Extract.sobjectname step)
       ⊆ Extract.get_extracted_ids c' (Extract.sobjectname step))
  /\ (forall step,
         Extract.execute_step fuel op step c = Some (Ok tt, c') ->
         Extract.scope step <> ExtractionScope.ALL_RECORDS ->
         Extract.get_dependencies c (Extract.sobjectname step)
           ⊆ Extract.get_extracted_ids c' (Extract.sobjectname step)).
Proof.
  split.
  - intros H step Hin Hscope.
    exact (execute_steps_resolve_required fuel op (Extract.steps op) c c' H
             step Hin Hscope).
  - intros step H Hscope.
    exact (execute_step_resolves_required fuel op step c c' Hscope H).
Qed.

Lemma X18_required_identifiers_are_extracted_witness :
  match Extract.execute 3 Example.chain_extraction Example.chain_seed with
  | Some (Ok _, c') =>
      Extract.get_dependencies Example.chain_seed "Account"
        ⊆ Extract.get_extracted_ids c' "Account"
  | _ => False
  end.
Proof.
  destruct (Extract.execute 3 Example.chain_extraction Example.chain_seed)
    as [[[[] | e] c'] |] eqn:E.
  - refine (proj1 (X18_required_identifiers_are_extracted
                     3 Example.chain_extraction Example.chain_seed c') E
              Example.selected_accounts _ _).
    + apply list_elem_of_In. left. reflexivity.
    + discriminate.
  - vm_compute in E. discriminate.
  - vm_compute in E. discriminate.
Defined.

(** ** Extraction: the identifiers a lookup pass asks for *)

Lemma ids_for_reference_fold (c : Extract.Context) (targets : list string) :
  forall (acc : gset SalesforceId) (id : SalesforceId),
    id ∈ fold_left
           (fun ids name =>
              match Extract.extracted_ids c !! name with
              | Some extracted => ids ∪ extracted
              | None => ids
              end)
           targets acc
    <-> id ∈ acc
        \/ exists target, target ∈ targets /\ id ∈ Extract.get_extracted_ids c target.
Proof.
  induction targets as [|t targets IH]; intros acc id; simpl.
  - split; [auto | intros [H | (t & Ht & _)]; [assumption | inversion Ht]].
  - rewrite IH. unfold Extract.get_extracted_ids at 2.
    split.
    + intros [Hacc | (t' & Ht' & Hid)].
      * destruct (Extract.extracted_ids c !! t) as [extracted |] eqn:E; [| auto].
        apply elem_of_union in Hacc as [Hacc | Hext]; [auto |].
        right. exists t. split; [left |].
        unfold Extract.get_extracted_ids. now rewrite E.
      * right. exists t'. split; [now right | assumption].
    + intros [Hacc | (t' & Ht' & Hid)].
      * left. destruct (Extract.extracted_ids c !! t); set_solver.
      * apply elem_of_cons in Ht' as [-> | Ht'].
        -- left. unfold Extract.get_extracted_ids in Hid.
           destruct (Extract.extracted_ids c !! t); set_solver.
        -- right. eauto.
Qed.

(** X19. [ExtractOperation.get_sobject_ids_for_reference] answers with the
    identifiers extracted so far for the sObjects the field refers to, and
    no others; for a field that the description of the sObject does not
    list it raises [KeyError]. When nothing is extracted yet for any of the
    targets, [ExtractionStep.perform_lookup_pass] returns at once and leaves
    the context as it is. *)
Theorem X19_identifiers_for_reference
    (op : Extract.ExtractOperation) (c : Extract.Context)
    (name field : string) (field_map : field_map_t) :
  get_field_map (Extract.connection op) name = Ok field_map ->
  (forall d,
      field_map !! field = Some d ->
      exists ids,
        Extract.get_sobject_ids_for_reference op c name field = Ok ids
        /\ (forall id,
               id ∈ ids <->
               exists target,
                 target ∈ referenceTo d /\ id ∈ Extract.get_extracted_ids c target)
        /\ ((forall target,
                target ∈ referenceTo d -> Extract.get_extracted_ids c target = ∅) ->
            forall step lk,
              Extract.sobjectname step = name ->
              Extract.perform_lookup_pass op step lk field c = (Ok tt, c)))
  /\ (field_map !! field = None ->
      Extract.get_sobject_ids_for_reference op c name field = Raise KeyError).
Proof.
  intros Hmap. unfold Extract.get_sobject_ids_for_reference, field_descr.
  rewrite Hmap. split.
  - intros d Hd. rewrite Hd. cbn [of_option]. eexists. split; [reflexivity |].
    assert (Hmem : forall id,
               id ∈ fold_left
                      (fun ids name0 =>
                         match Extract.extracted_ids c !! name0 with
                         | Some extracted => ids ∪ extracted
                         | None => ids
                         end) (referenceTo d) (∅ : gset SalesforceId)
               <-> exists target,
                   target ∈ referenceTo d
                   /\ id ∈ Extract.get_extracted_ids c target).
    { intros id. rewrite ids_for_reference_fold. set_solver. }
    split; [exact Hmem |].
    intros Hnone step lk Hname.
    unfold Extract.perform_lookup_pass, mbind, M_bind, bind,
      Extract.get_sobject_ids_for_reference, field_descr.
    rewrite Hname, Hmap, Hd. cbn [of_option].
    match goal with
    | |- Extract.perform_id_field_pass _ _ _ _ ?ids _ = _ =>
        assert (Hempty : ids = ∅)
    end.
    { apply leibniz_equiv. apply elem_of_equiv_empty. intros id Hid.
      apply Hmem in Hid as (target & Ht & Hid).
      rewrite (Hnone target Ht) in Hid. set_solver. }
    rewrite Hempty. unfold Extract.perform_id_field_pass.
    rewrite elements_empty. reflexivity.
  - intros ->. reflexivity.
Qed.

Lemma X19_identifiers_for_reference_witness :
  exists ids,
    Extract.get_sobject_ids_for_reference Example.chain_extraction
      Example.chain_found_c "Account" "ParentId" = Ok ids
    /\ forall id,
        id ∈ ids <->
        exists target,
          target ∈ ["Account"]
          /\ id ∈ Extract.get_extracted_ids Example.chain_found_c target.
Proof.
  destruct (X19_identifiers_for_reference Example.chain_extraction
              Example.chain_found_c "Account" "ParentId" Example.account_fields
              eq_refl) as [H _].
  destruct (H (MkField "reference" ["Account"] "tns:ID") eq_refl)
    as (ids & Hids & Hmem & _).
  exists ids. split; [exact Hids | exact Hmem].
Defined.

(** ** Chunks: how many queries a pass sends *)

Lemma fill_chunk_full (ml : Z) (ids : list SalesforceId) :
  forall taken id_list taken' id_list' rest,
    Extract.fill_chunk ml taken id_list ids = (taken', id_list', rest) ->
    rest <> [] ->
    (ml - 22 <= Z.of_nat (String.length id_list'))%Z.
Proof.
  induction ids as [|id ids IH]; intros taken id_list taken' id_list' rest; simpl.
  - intros [= _ _ <-] Hrest. now destruct Hrest.
  - destruct (Z.ltb_spec (Z.of_nat (String.length id_list)) (ml - 22)) as [Hlt | Hge].
    + apply IH.
    + intros [= _ <- _] _. exact Hge.
Qed.

Lemma fill_chunk_all (ml : Z) (ids : list SalesforceId) :
  forall taken id_list,
    (forall id, id ∈ ids -> String.length (sfid id) = 18) ->
    (Z.of_nat (String.length id_list + 22 * length ids) < ml)%Z ->
    exists id_list',
      Extract.fill_chunk ml taken id_list ids = (taken ++ ids, id_list', []).
Proof.
  induction ids as [|id ids IH]; intros taken id_list H18 Hfit; simpl.
  - exists id_list. now rewrite app_nil_r.
  - simpl in Hfit.
    destruct (Z.ltb_spec (Z.of_nat (String.length id_list)) (ml - 22)) as [Hlt | Hge];
      [| lia].
    destruct (IH (taken ++ [id]) (id_list +:+ ", " +:+ Extract.quoted id))
      as [id_list' E].
    + intros i Hi. apply H18. now right.
    + rewrite !string_length_app, quoted_length by (apply H18; left). simpl. lia.
    + exists id_list'. now rewrite E, <- app_assoc.
Qed.

Lemma chunks_in_length (ml : Z) (rounds : nat) :
  forall ids, length (Extract.chunks_in rounds ml ids) <= rounds.
Proof.
  induction rounds as [|rounds IH]; intros ids; [simpl; lia |].
  destruct ids as [|id ids]; [simpl; lia |]. cbn [Extract.chunks_in].
  destruct (Extract.fill_chunk ml [id] (Extract.quoted id) ids) as [[taken id_list] rest].
  cbn [length]. specialize (IH rest). lia.
Qed.

Lemma chunks_in_full (ml : Z) (rounds : nat) :
  forall ids i chunk,
    Extract.chunks_in rounds ml ids !! i = Some chunk ->
    S i < length (Extract.chunks_in rounds ml ids) ->
    (ml - 22 <= Z.of_nat (String.length (snd chunk)))%Z.
Proof.
  induction rounds as [|rounds IH]; intros ids i chunk; [discriminate |].
  destruct ids as [|id ids]; [discriminate |]. cbn [Extract.chunks_in].
  destruct (Extract.fill_chunk ml [id] (Extract.quoted id) ids)
    as [[taken id_list] rest] eqn:E.
  destruct i as [|i]; cbn [length].
  - intros [= <-] Hlen. cbn [snd]. eapply fill_chunk_full; [eassumption |].
    intros ->. destruct rounds; simpl in Hlen; lia.
  - intros Hi Hlen. apply (IH rest i chunk Hi). lia.
Qed.

(** X20. The queries of an identifier-set pass are filled greedily: every
    chunk but the last holds a text of at least [max_len - 22] characters,
    and there are no more chunks than identifiers. When the text of all the
    identifiers, 22 characters each less the first separator, is shorter
    than [max_len], the pass sends one query that lists them all. *)
Theorem X20_chunks_are_filled
    (field_scope : list string) (ids : list SalesforceId) :
  let ml := Extract.max_len field_scope in
  let issued := Extract.chunks ml ids in
  (forall i chunk,
      issued !! i = Some chunk ->
      S i < length issued ->
      (ml - 22 <= Z.of_nat (String.length (snd chunk)))%Z)
  /\ length issued <= length ids
  /\ (ids <> [] ->
      (forall id, id ∈ ids -> String.length (sfid id) = 18) ->
      (Z.of_nat (22 * length ids) - 2 < ml)%Z ->
      issued = [(ids, String.concat ", " (map Extract.quoted ids))]).
Proof.
  intros ml issued. subst issued. unfold Extract.chunks.
  split; [apply chunks_in_full |]. split; [apply chunks_in_length |].
  intros Hne H18 Hfit.
  destruct (chunks_in_spec ml (length ids) ids (le_n _)) as (_ & Htext & _).
  destruct ids as [|id ids]; [now destruct Hne |].
  revert Htext. cbn [length Extract.chunks_in].
  destruct (fill_chunk_all ml ids [id] (Extract.quoted id)) as [id_list' E].
  - intros i Hi. apply H18. now right.
  - rewrite quoted_length by (apply H18; left). cbn [length] in Hfit. lia.
  - rewrite E. cbn [app].
    destruct (length ids); cbn [Extract.chunks_in];
      intros Htext; apply Forall_inv in Htext as [_ Htext]; cbn [fst snd] in Htext;
      now rewrite Htext.
Qed.

Lemma X20_chunks_are_filled_witness :
  Extract.chunks (Extract.max_len ["Id"; "Name"; "ParentId"])
    [Example.id_a; Example.id_b; Example.id_c]
  = [([Example.id_a; Example.id_b; Example.id_c],
      String.concat ", "
        (map Extract.quoted [Example.id_a; Example.id_b; Example.id_c]))].
Proof.
  destruct (X20_chunks_are_filled ["Id"; "Name"; "ParentId"]
              [Example.id_a; Example.id_b; Example.id_c]) as (_ & _ & H).
  apply H.
  - discriminate.
  - intros id Hid. apply list_elem_of_In in Hid. simpl in Hid.
    destruct Hid as [<- | [<- | [<- | []]]]; reflexivity.
  - vm_compute. reflexivity.
Defined.

(** ** Behaviours set for a field *)

(** X21. An extraction step keeps one dictionary of behaviours for its
    fields: a behaviour set with [set_lookup_behavior_for_field] is what
    both [get_self_lookup_behavior_for_field] and
    [get_outside_lookup_behavior_for_field] answer for the field, the other
    fields keep their answers, and a field never set answers the defaults
    of the step. So a self lookup whose field was given any behaviour other
    than [trace-none], an outside behaviour included, registers the record
    it refers to as a dependency, whatever the self-lookup behaviour of the
    step. *)
Theorem X21_one_dictionary_of_behaviours
    (step : Extract.ExtractionStep) (f b : string) :
  let step' := Extract.set_lookup_behavior_for_field step f b in
  Extract.get_self_lookup_behavior_for_field step' f = b
  /\ Extract.get_outside_lookup_behavior_for_field step' f = b
  /\ (forall g,
         g <> f ->
         Extract.get_self_lookup_behavior_for_field step' g
         = Extract.get_self_lookup_behavior_for_field step g
         /\ Extract.get_outside_lookup_behavior_for_field step' g
            = Extract.get_outside_lookup_behavior_for_field step g)
  /\ (Extract.lookup_behaviors step !! f = None ->
      Extract.get_self_lookup_behavior_for_field step f
      = Extract.self_lookup_behavior step
      /\ Extract.get_outside_lookup_behavior_for_field step f
         = Extract.outside_lookup_behavior step)
  /\ (b <> SelfLookupBehavior.TRACE_NONE ->
      forall r v id c,
        dict_get f r = Ok (Some v) ->
        Id.of_value (Some v) = Ok id ->
        Extract.trace_self_lookup step' r f c
        = Extract.add_dependency (Extract.sobjectname step) id c).
Proof.
  intros step'. subst step'.
  unfold Extract.get_self_lookup_behavior_for_field,
    Extract.get_outside_lookup_behavior_for_field,
    Extract.set_lookup_behavior_for_field.
  cbn [Extract.lookup_behaviors Extract.self_lookup_behavior
         Extract.outside_lookup_behavior].
  split; [now rewrite lookup_insert_eq |].
  split; [now rewrite lookup_insert_eq |].
  split; [intros g Hne; now rewrite lookup_insert_ne by congruence |].
  split; [intros ->; auto |].
  intros Hb r v id c Hv Hid. unfold Extract.trace_self_lookup.
  unfold Extract.get_self_lookup_behavior_for_field.
  cbn [Extract.lookup_behaviors Extract.sobjectname].
  rewrite lookup_insert_eq. cbn [default from_option Datatypes.id].
  destruct (String.eqb_spec b SelfLookupBehavior.TRACE_NONE) as [-> | _];
    [now destruct Hb |].
  cbn [negb]. unfold mbind, M_bind, bind, lift. rewrite Hv, Hid. reflexivity.
Qed.

Lemma X21_one_dictionary_of_behaviours_witness :
  Extract.trace_self_lookup
    (Extract.set_lookup_behavior_for_field
       (Extract.MkExtractionStep "Account" ExtractionScope.SELECTED_RECORDS
          ["Id"; "Name"; "ParentId"] None SelfLookupBehavior.TRACE_NONE
          OutsideLookupBehavior.INCLUDE ∅)
       "ParentId" OutsideLookupBehavior.DROP_FIELD)
    Example.b "ParentId" Example.chain_seed
  = Extract.add_dependency "Account" Example.id_a Example.chain_seed.
Proof.
  destruct (X21_one_dictionary_of_behaviours
              (Extract.MkExtractionStep "Account" ExtractionScope.SELECTED_RECORDS
                 ["Id"; "Name"; "ParentId"] None SelfLookupBehavior.TRACE_NONE
                 OutsideLookupBehavior.INCLUDE ∅)
              "ParentId" OutsideLookupBehavior.DROP_FIELD) as (_ & _ & _ & _ & H).
  apply (H ltac:(discriminate) Example.b "001000000000010AAA" Example.id_a
           Example.chain_seed); reflexivity.
Defined.

(** ** [DataMapper] *)

Section Mapper.

Import DataMapper.

Lemma dict_get_set_same (k : string) (v : value) (r : record) :
  dict_get k (dict_set k v r) = Ok v.
Proof.
  induction r as [|[k' v'] r IH]; simpl.
  - now rewrite String.eqb_refl.
  - destruct (String.eqb k' k) eqn:E; simpl.
    + now rewrite String.eqb_refl.
    + now rewrite E.
Qed.

Lemma dict_get_set_other (k k' : string) (v : value) (r : record) :
  k' <> k -> dict_get k' (dict_set k v r) = dict_get k' r.
Proof.
  intros Hne. induction r as [|[k0 v0] r IH]; simpl.
  - destruct (String.eqb_spec k k'); [congruence | reflexivity].
  - destruct (String.eqb_spec k0 k) as [-> | Hk]; simpl.
    + destruct (String.eqb_spec k k'); [congruence | reflexivity].
    + now rewrite IH.
Qed.

Lemma dict_set_keys (k : string) (v : value) (r : record) :
  (k ∈ keys r -> keys (dict_set k v r) = keys r)
  /\ (k ∉ keys r -> dict_set k v r = r ++ [(k, v)]).
Proof.
  induction r as [|[k0 v0] r [IHin IHout]]; simpl.
  - split; [intros H; inversion H | reflexivity].
  - destruct (String.eqb_spec k0 k) as [-> | Hk]; simpl.
    + split; [reflexivity |]. intros H. exfalso. apply H. left.
    + split.
      * intros H. apply elem_of_cons in H as [-> | H]; [congruence |].
        now rewrite IHin.
      * intros H. rewrite IHout; [reflexivity |]. intros Hin. apply H. now right.
Qed.

Lemma dict_set_NoDup (k : string) (v : value) (r : record) :
  NoDup (keys r) -> NoDup (keys (dict_set k v r)).
Proof.
  intros Hr. destruct (dict_set_keys k v r) as [Hin Hout].
  destruct (decide (k ∈ keys r)) as [H | H].
  - now rewrite Hin.
  - rewrite Hout by assumption. unfold keys. rewrite map_app. simpl.
    apply list.NoDup_app. split; [exact Hr |]. split; [| apply NoDup_singleton].
    intros x Hx Hx'. apply list_elem_of_singleton in Hx'. now subst.
Qed.

Lemma dict_has_keys (k : string) (r : record) :
  dict_has k r = true <-> k ∈ keys r.
Proof.
  unfold dict_has, keys. rewrite existsb_exists. split.
  - intros ([k0 v0] & Hin & Hk). apply String.eqb_eq in Hk. simpl in Hk. subst.
    apply list_elem_of_In. apply in_map_iff. exists (k, v0). auto.
  - intros Hin. apply list_elem_of_In, in_map_iff in Hin as ([k0 v0] & <- & Hin).
    exists (k0, v0). split; [assumption |]. apply String.eqb_refl.
Qed.

Lemma find_snoc {A} (p : A -> bool) (l : list A) (x : A) :
  List.find p (l ++ [x])
  = match List.find p l with
    | Some y => Some y
    | None => if p x then Some x else None
    end.
Proof.
  induction l as [|y l IH]; simpl; [reflexivity |].
  destruct (p y); [reflexivity | exact IH].
Qed.

(** The dict comprehension of [transform_record], started from the
    dictionary [out]. *)
Lemma transform_record_fold (m : DataMapper) (r : record) :
  forall out,
    let res :=
      fold_left
        (fun out kv =>
           dict_set (transform_key m (fst kv))
             (transform_value m (fst kv) (snd kv)) out)
        r out in
    (NoDup (keys out) -> NoDup (keys res))
    /\ (forall k',
           dict_get k' res
           = match List.find (fun kv => String.eqb (transform_key m (fst kv)) k')
                     (rev r) with
             | Some kv => Ok (transform_value m (fst kv) (snd kv))
             | None => dict_get k' out
             end)
    /\ (NoDup (keys out ++ map (transform_key m) (keys r)) ->
        res = out ++ map (fun kv => (transform_key m (fst kv),
                                     transform_value m (fst kv) (snd kv))) r).
Proof.
  induction r as [|[k v] r IH]; intros out; cbn zeta.
  - simpl. split; [auto |]. split; [auto |]. intros _. now rewrite app_nil_r.
  - cbn [fold_left fst snd].
    destruct (IH (dict_set (transform_key m k) (transform_value m k v) out))
      as (Hnd & Hget & Hexact). cbn zeta in Hnd, Hget, Hexact.
    split; [| split].
    + intros Hout. apply Hnd. now apply dict_set_NoDup.
    + intros k'. rewrite Hget. cbn [rev]. rewrite find_snoc. cbn [fst snd].
      destruct (List.find _ (rev r)); [reflexivity |].
      destruct (String.eqb_spec (transform_key m k) k') as [<- | Hne].
      * apply dict_get_set_same.
      * apply dict_get_set_other. congruence.
    + cbn [keys map fst]. intros Hall.
      apply list.NoDup_app in Hall as (Hout & Hsep & Hrest).
      assert (Hfresh : transform_key m k ∉ keys out).
      { intros Hin. apply (Hsep _ Hin). left. }
      destruct (dict_set_keys (transform_key m k) (transform_value m k v) out)
        as [_ Hset].
      rewrite Hexact.
      * rewrite Hset by assumption. rewrite <- app_assoc. reflexivity.
      * rewrite Hset by assumption. unfold keys at 1. rewrite map_app.
        cbn [map fst]. rewrite <- app_assoc. cbn [app].
        apply list.NoDup_app. split; [exact Hout |]. split; [| exact Hrest].
        intros x Hx Hx'. apply (Hsep x Hx). exact Hx'.
Qed.

End Mapper.

(** X22. [DataMapper.transform_record] returns a dictionary: no key occurs
    twice in it. Its keys are the transformed keys of the record, and the
    value under a key is the transformed value of the last field of the
    record whose key is mapped to it: when the mapping sends two fields to
    one name, the later field wins. *)
Theorem X22_transform_record_last_field_wins
    (m : DataMapper.DataMapper) (r : record) :
  NoDup (keys (DataMapper.transform_record m r))
  /\ (forall k',
         dict_get k' (DataMapper.transform_record m r)
         = match List.find
                   (fun kv => String.eqb (DataMapper.transform_key m (fst kv)) k')
                   (rev r) with
           | Some kv => Ok (DataMapper.transform_value m (fst kv) (snd kv))
           | None => Raise KeyError
           end)
  /\ (forall k',
         k' ∈ keys (DataMapper.transform_record m r)
         <-> exists k, k ∈ keys r /\ DataMapper.transform_key m k = k').
Proof.
  destruct (transform_record_fold m r []) as (Hnd & Hget & _). cbn zeta in Hnd, Hget.
  split; [apply Hnd; constructor |]. split; [exact Hget |].
  intros k'. rewrite <- dict_has_keys. unfold DataMapper.transform_record.
  assert (Hhas : forall rec, dict_has k' rec = true <-> exists v, dict_get k' rec = Ok v).
  { intros rec. induction rec as [|[k0 v0] rec IH]; simpl.
    - split; [discriminate | intros [v Hv]; discriminate].
    - destruct (String.eqb k0 k'); simpl; [split; eauto | exact IH]. }
  rewrite Hhas. setoid_rewrite Hget. split.
  - intros [v Hv].
    destruct (List.find _ (rev r)) as [[k v0] |] eqn:E; [| discriminate].
    apply find_some in E as [Hin Hk]. apply String.eqb_eq in Hk.
    exists k. split; [| exact Hk].
    apply list_elem_of_In, in_map_iff. exists (k, v0). split; [reflexivity |].
    now apply in_rev.
  - intros (k & Hin & Hk).
    apply list_elem_of_In, in_map_iff in Hin as ([k0 v0] & <- & Hin).
    destruct (List.find _ (rev r)) as [kv |] eqn:E; [eauto |].
    exfalso. apply in_rev in Hin.
    pose proof (find_none _ _ E (k0, v0) Hin) as Hno.
    cbn [fst] in Hk, Hno. rewrite Hk, String.eqb_refl in Hno. discriminate.
Qed.

Lemma NoDup_map_inj_on {A B} (f : A -> B) (l : list A) :
  (forall x y, x ∈ l -> y ∈ l -> f x = f y -> x = y) ->
  NoDup l -> NoDup (map f l).
Proof.
  intros Hinj Hl. induction Hl as [|x l Hx Hl IH]; simpl; constructor.
  - intros Hin. apply list_elem_of_In, in_map_iff in Hin as (y & Hy & Hin).
    apply list_elem_of_In in Hin.
    assert (y = x) by (apply Hinj; [now right | left | assumption]).
    subst. contradiction.
  - apply IH. intros a b Ha Hb. apply Hinj; now right.
Qed.

(** X23. When the mapping sends the fields of a record to pairwise distinct
    names, [DataMapper.transform_record] keeps the order of the fields and
    transforms each key and each value on its own. A second mapper that
    names every field back and undoes the transforms of its value returns
    the record: what the mapper of an extraction wrote, the inverse mapper
    of a load reads back. *)
Theorem X23_mappers_round_trip
    (m1 m2 : DataMapper.DataMapper) (r : record) :
  NoDup (keys r) ->
  (forall k v,
      (k, v) ∈ r ->
      DataMapper.transform_key m2 (DataMapper.transform_key m1 k) = k
      /\ DataMapper.transform_value m2 (DataMapper.transform_key m1 k)
           (DataMapper.transform_value m1 k v) = v) ->
  DataMapper.transform_record m1 r
  = map (fun kv => (DataMapper.transform_key m1 (fst kv),
                    DataMapper.transform_value m1 (fst kv) (snd kv))) r
  /\ DataMapper.transform_record m2 (DataMapper.transform_record m1 r) = r.
Proof.
  intros Hnd Hinv.
  assert (Hkey : forall k, k ∈ keys r ->
                           DataMapper.transform_key m2 (DataMapper.transform_key m1 k) = k).
  { intros k Hk. apply list_elem_of_In, in_map_iff in Hk as ([k0 v0] & <- & Hin).
    apply list_elem_of_In in Hin. now apply Hinv in Hin. }
  assert (H1 : DataMapper.transform_record m1 r
               = map (fun kv => (DataMapper.transform_key m1 (fst kv),
                                 DataMapper.transform_value m1 (fst kv) (snd kv))) r).
  { destruct (transform_record_fold m1 r []) as (_ & _ & Hexact).
    apply Hexact. cbn [keys map app].
    apply NoDup_map_inj_on; [| exact Hnd].
    intros x y Hx Hy Hxy. rewrite <- (Hkey x Hx), <- (Hkey y Hy). now rewrite Hxy. }
  split; [exact H1 |]. rewrite H1.
  destruct (transform_record_fold m2
              (map (fun kv => (DataMapper.transform_key m1 (fst kv),
                               DataMapper.transform_value m1 (fst kv) (snd kv))) r) [])
    as (_ & _ & Hexact).
  unfold DataMapper.transform_record. cbn zeta in Hexact. rewrite Hexact.
  - cbn [app]. rewrite map_map. cbn [fst snd].
    rewrite <- (map_id r) at 2. apply map_ext_in. intros [k v] Hin.
    apply list_elem_of_In in Hin. cbn [fst snd].
    destruct (Hinv k v Hin) as [-> ->]. reflexivity.
  - cbn [keys map app]. unfold keys. rewrite !map_map. cbn [fst].
    assert (Hid : map (fun x : string * value =>
                         DataMapper.transform_key m2
                           (DataMapper.transform_key m1 (fst x))) r
                  = map fst r).
    { apply map_ext_in. intros [k v] Hin. cbn [fst]. apply Hkey.
      apply list_elem_of_In, in_map_iff. exists (k, v). auto. }
    rewrite Hid. exact Hnd.
Qed.

Lemma X23_mappers_round_trip_witness :
  DataMapper.transform_record Example.to_file Example.b
  = [("Id", Some "001000000000011AAA"); ("Account Name", Some "B");
     ("Parent", Some "001000000000010AAA")]
  /\ DataMapper.transform_record Example.from_file
       (DataMapper.transform_record Example.to_file Example.b) = Example.b.
Proof.
  refine (X23_mappers_round_trip Example.to_file Example.from_file Example.b _ _).
  - repeat constructor; intros H; apply list_elem_of_In in H; simpl in H;
      intuition discriminate.
  - intros k v H. apply list_elem_of_In in H. simpl in H.
    destruct H as [[= <- <-] | [[= <- <-] | [[= <- <-] | []]]];
      split; reflexivity.
Defined.

(** ** [Operation]: the cache of the schema *)

Section Cache.

Import Operation.

Variable remote : string -> result Describe.



Lemma field_map_of_fold (fields : Describe) (k : string) :
  forall acc : field_map_t,
    fold_left (fun fm f => <[fst f := snd f]> fm) fields acc !! k
    = match List.find (fun f => String.eqb (fst f) k) (rev fields) with
      | Some f => Some (snd f)
      | None => acc !! k
      end.
Proof.
  induction fields as [|[name d] fields IH]; intros acc; [reflexivity |].
  cbn [fold_left rev fst snd]. rewrite IH, find_snoc. cbn [fst snd].
  destruct (List.find _ (rev fields)); [reflexivity |].
  destruct (String.eqb_spec name k) as [-> | Hne].
  - apply lookup_insert_eq.
  - now apply lookup_insert_ne.
Qed.

End Cache.



(** X25. The field map of an sObject holds, under each name, the last field
    of that name in the store's description; and
    [Operation.get_filtered_field_map] returns, of the field map that
    [get_field_map] returns in the same state, exactly the fields that
    satisfy the predicate, each under its name. *)
Theorem X25_filtered_field_map
    (remote : string -> result Operation.Describe) (name : string)
    (lam : FieldDescriptor -> bool) (s : Operation.State) :
  (forall fields k,
      Operation.field_map_of fields !! k
      = option_map snd
          (List.find (fun f => String.eqb (fst f) k) (rev fields)))
  /\ (forall out s',
         Operation.get_filtered_field_map remote name lam s = (Ok out, s') ->
         exists fm,
           Operation.get_field_map remote name s = (Ok fm, s')
           /\ forall k d, out !! k = Some d <-> fm !! k = Some d /\ lam d = true)
  /\ (forall e s',
         Operation.get_field_map remote name s = (Raise e, s') ->
         Operation.get_filtered_field_map remote name lam s = (Raise e, s')).
Proof.
  split; [| split].
  - intros fields k. unfold Operation.field_map_of. rewrite field_map_of_fold.
    destruct (List.find _ (rev fields)); [reflexivity | apply lookup_empty].
  - intros out s'. unfold Operation.get_filtered_field_map, mbind, M_bind, bind, ret.
    destruct (Operation.get_field_map remote name s) as [[fm | e] s1];
      [| discriminate].
    intros [= <- <-]. exists fm. split; [reflexivity |].
    intros k d. rewrite map_lookup_filter_Some. reflexivity.
  - intros e s' H. unfold Operation.get_filtered_field_map, mbind, M_bind, bind.
    now rewrite H.
Qed.

Lemma X25_filtered_field_map_witness :
  exists out s',
    Operation.get_filtered_field_map
      (fun _ => Ok [("Id", MkField "id" [] "tns:ID");
                    ("ParentId", MkField "reference" ["Account"] "tns:ID")])
      "Account" (fun d => String.eqb (ftype d) "reference") Operation.initial
    = (Ok out, s')
    /\ out !! "ParentId" = Some (MkField "reference" ["Account"] "tns:ID")
    /\ out !! "Id" = None.
Proof.
  destruct (Operation.get_filtered_field_map
              (fun _ => Ok [("Id", MkField "id" [] "tns:ID");
                            ("ParentId", MkField "reference" ["Account"] "tns:ID")])
              "Account" (fun d => String.eqb (ftype d) "reference")
              Operation.initial) as [[out | e] s'] eqn:E;
    [| vm_compute in E; discriminate].
  exists out, s'. split; [reflexivity |].
  destruct (X25_filtered_field_map
              (fun _ => Ok [("Id", MkField "id" [] "tns:ID");
                            ("ParentId", MkField "reference" ["Account"] "tns:ID")])
              "Account" (fun d => String.eqb (ftype d) "reference")
              Operation.initial) as (_ & H & _).
  destruct (H out s' E) as (fm & Hfm & Hout).
  injection Hfm as <- _.
  split.
  - apply Hout. split; reflexivity.
  - destruct (out !! "Id") as [d |] eqn:Ed; [| reflexivity].
    apply Hout in Ed as [Ed Hlam]. vm_compute in Ed. injection Ed as <-.
    discriminate.
Defined.

(** ** Extraction: a step with nothing to start from *)

Section Idle.

Import Extract.

Lemma for_each_idle {S A} (l : list A) (body : A -> M S unit) (s : S) :
  (forall x, x ∈ l -> body x s = (Ok tt, s)) -> for_each l body s = (Ok tt, s).
Proof.
  induction l as [|x l IH]; intros H; [reflexivity |].
  rewrite for_each_cons, H by left. apply IH. intros y Hy. apply H. now right.
Qed.

Lemma perform_lookup_pass_idle op step lk field field_map d c :
  get_field_map (connection op) (sobjectname step) = Ok field_map ->
  field_map !! field = Some d ->
  (forall name, get_extracted_ids c name = ∅) ->
  perform_lookup_pass op step lk field c = (Ok tt, c).
Proof.
  intros Hmap Hd Hnone.
  unfold perform_lookup_pass, mbind, M_bind, bind, get_sobject_ids_for_reference,
    field_descr.
  rewrite Hmap, Hd. cbn [of_option].
  match goal with
  | |- perform_id_field_pass _ _ _ _ ?ids _ = _ => assert (Hempty : ids = ∅)
  end.
  { apply leibniz_equiv. apply elem_of_equiv_empty. intros id Hid.
    apply ids_for_reference_fold in Hid as [Hid | (target & _ & Hid)];
      [set_solver |].
    rewrite Hnone in Hid. set_solver. }
  rewrite Hempty. unfold perform_id_field_pass. now rewrite elements_empty.
Qed.

Lemma resolve_registered_dependencies_idle op step lk c :
  get_dependencies c (sobjectname step) = ∅ ->
  resolve_registered_dependencies op step lk c = (Ok tt, c).
Proof.
  intros Hnone.
  unfold resolve_registered_dependencies, mbind, M_bind, bind, gets.
  rewrite Hnone. unfold perform_id_field_pass. rewrite elements_empty.
  cbn [chunks perform_id_field_pass_in length chunks_in for_each ret].
  rewrite Hnone.
  replace (size ((∅ : gset SalesforceId) ∩ ∅)) with 0; [reflexivity |].
  symmetry. apply size_empty_iff. set_solver.
Qed.

(** The fields that [scan_fields] classifies as self or descendent lookups
    are described. *)
Lemma scan_fields_described field_map sobjects name field_scope lk :
  Step.scan_fields field_map sobjects name field_scope = Ok lk ->
  forall f,
    f ∈ self_lookups lk \/ f ∈ descendent_lookups lk ->
    exists d, field_map !! f = Some d.
Proof.
  unfold Step.scan_fields.
  destruct (set_comprehension (Step.is_lookup field_map sobjects) field_scope)
    as [all |]; [| discriminate].
  destruct (set_comprehension (Step.is_self_lookup field_map name) (elements all))
    as [selfs |] eqn:Eself; [| discriminate].
  destruct (set_comprehension
              (Step.is_relative_lookup Nat.ltb field_map sobjects name)
              (elements all)) as [descs |] eqn:Edesc; [| discriminate].
  destruct (set_comprehension
              (Step.is_relative_lookup (fun a b => Nat.ltb b a) field_map sobjects name)
              (elements all)) as [deps |]; [| discriminate].
  intros H f. injection H as <-.
  cbn [self_lookups descendent_lookups]. intros [Hf | Hf].
  - apply (set_comprehension_elem _ _ _ Eself) in Hf as [_ Hf].
    unfold Step.is_self_lookup, field_descr in Hf.
    destruct (field_map !! f) as [d |]; [eauto | discriminate].
  - apply (set_comprehension_elem _ _ _ Edesc) in Hf as [_ Hf].
    unfold Step.is_relative_lookup, field_descr in Hf.
    destruct (field_map !! f) as [d |]; [eauto | discriminate].
Qed.

End Idle.

(** X26. A step of scope [some] or [children] for which no identifier is
    required, run when nothing is extracted yet, returns after at most one
    round of tracing and leaves the context as it is: it extracts nothing
    and writes nothing, and it raises nothing when its fields are
    described. *)
Theorem X26_step_with_nothing_to_start_from
    (fuel : nat) (op : Extract.ExtractOperation) (step : Extract.ExtractionStep)
    (lk : lookups) (c : Extract.Context) :
  Extract.scan_fields op step = Ok lk ->
  Extract.scope step = ExtractionScope.SELECTED_RECORDS
  \/ Extract.scope step = ExtractionScope.DESCENDENTS ->
  Extract.get_dependencies c (Extract.sobjectname step) = ∅ ->
  (forall name, Extract.get_extracted_ids c name = ∅) ->
  Extract.execute_step (S fuel) op step c = Some (Ok tt, c).
Proof.
  intros Hscan Hscope Hreq Hnone.
  assert (Hmap : exists field_map,
             get_field_map (Extract.connection op) (Extract.sobjectname step)
             = Ok field_map
             /\ forall f,
                 f ∈ self_lookups lk \/ f ∈ descendent_lookups lk ->
                 exists d, field_map !! f = Some d).
  { revert Hscan. unfold Extract.scan_fields.
    destruct (get_field_map _ _) as [field_map |]; [| discriminate].
    intros Hscan. exists field_map. split; [reflexivity |].
    exact (scan_fields_described _ _ _ _ _ Hscan). }
  destruct Hmap as (field_map & Hmap & Hdescr).
  assert (Hpass : forall l : gset string,
             (forall f, f ∈ l -> f ∈ self_lookups lk \/ f ∈ descendent_lookups lk) ->
             for_each (elements l) (Extract.perform_lookup_pass op step lk) c
             = (Ok tt, c)).
  { intros l Hl. apply for_each_idle. intros f Hf. apply elem_of_elements in Hf.
    destruct (Hdescr f (Hl f Hf)) as [d Hd].
    exact (perform_lookup_pass_idle op step lk f field_map d c Hmap Hd Hnone). }
  assert (Hexec : Extract.execute_scope op step c = (Ok (inr lk), c)).
  { unfold Extract.execute_scope, mbind, M_bind, bind, lift, ret.
    rewrite Hscan.
    destruct Hscope as [-> | ->].
    - change (String.eqb ExtractionScope.SELECTED_RECORDS ExtractionScope.ALL_RECORDS)
        with false.
      change (String.eqb ExtractionScope.SELECTED_RECORDS ExtractionScope.QUERY)
        with false.
      change (String.eqb ExtractionScope.SELECTED_RECORDS ExtractionScope.DESCENDENTS)
        with false.
      cbv beta iota. now rewrite resolve_registered_dependencies_idle.
    - change (String.eqb ExtractionScope.DESCENDENTS ExtractionScope.ALL_RECORDS)
        with false.
      change (String.eqb ExtractionScope.DESCENDENTS ExtractionScope.QUERY)
        with false.
      change (String.eqb ExtractionScope.DESCENDENTS ExtractionScope.DESCENDENTS)
        with true.
      cbv beta iota. rewrite Hpass by auto.
      now rewrite resolve_registered_dependencies_idle. }
  unfold Extract.execute_step. rewrite Hexec.
  destruct (Extract.traces step lk); [| reflexivity].
  cbn [Extract.trace_self_lookups].
  unfold Extract.trace_round, mbind, M_bind, bind.
  rewrite Hpass by auto. rewrite resolve_registered_dependencies_idle by assumption.
  now rewrite Nat.eqb_refl.
Qed.

Lemma X26_step_with_nothing_to_start_from_witness :
  Extract.execute_step 1 Example.contact_extraction Example.dropping_contacts
    Example.contact_sink = Some (Ok tt, Example.contact_sink).
Proof.
  apply (X26_step_with_nothing_to_start_from 0 Example.contact_extraction
           Example.dropping_contacts Example.contact_lookups Example.contact_sink).
  - vm_compute. reflexivity.
  - right. reflexivity.
  - reflexivity.
  - intros name. unfold Extract.get_extracted_ids, Example.contact_sink. simpl.
    now rewrite lookup_empty.
Defined.
